(** * PrivaGlass: the WhatsApp transcript parser, the date interpreter and
    the transcript selection, embedded from [src/services/db.ts] (parser.ts
    section), [src/components/MessageBubble.tsx] and [src/App.tsx].

    Strings are lists of 8-bit code units ([list ascii]); the JavaScript
    notions of whitespace, case mapping and line terminator are the ones of
    ECMAScript restricted to that range.  Objects that the code mutates
    through shared references ([ChatMessage] records reachable from both the
    returned arrays and [stateTracker.current]) live in an explicit store.
    The loading path of the component is a transition system over the
    tasks of the event loop: the handler and the frames are cut at every
    [await] and [requestAnimationFrame], so that runs can interleave. *)

From Stdlib Require Import Ascii String List ZArith Lia Bool DecimalString.
From stdpp Require Import base option list gmap strings.

Set Default Proof Using "Type".
Local Open Scope nat_scope.

Abbreviation str := (list ascii).

(** A string literal as a list of code units. *)
Definition lit (s : string) : str := list_ascii_of_string s.

(* ===================================================================== *)
(** * Characters *)
(* ===================================================================== *)

Module Chars.

Definition code (c : ascii) : nat := nat_of_ascii c.

Definition newline : ascii := ascii_of_nat 10.

Definition ch_eqb (a b : ascii) : bool := Ascii.eqb a b.

Definition in_range (lo hi : nat) (c : ascii) : bool :=
  (lo <=? code c) && (code c <=? hi).

(** ECMAScript WhiteSpace and LineTerminator code points below 256: TAB, LF,
    VT, FF, CR, SP, NBSP.  Both [String.prototype.trim] and the class [\s]
    use this set. *)
Definition is_space (c : ascii) : bool :=
  match code c with
  | 9 | 10 | 11 | 12 | 13 | 32 | 160 => true
  | _ => false
  end.

(** [\d] *)
Definition is_digit (c : ascii) : bool := in_range 48 57 c.

(** [.] without the s flag: anything but a line terminator. *)
Definition is_dot (c : ascii) : bool :=
  negb (ch_eqb c newline || ch_eqb c (ascii_of_nat 13)).

(** Character-wise [toLowerCase] on the 8-bit range. *)
Definition lower (c : ascii) : ascii :=
  if in_range 65 90 c then ascii_of_nat (code c + 32)
  else if in_range 192 222 c && negb (code c =? 215) then ascii_of_nat (code c + 32)
  else c.

(** Canonicalize of the [i] flag (upper-casing; a character above 127 never
    canonicalizes to one below 128). *)
Definition canon (c : ascii) : ascii :=
  if in_range 97 122 c then ascii_of_nat (code c - 32)
  else if in_range 224 254 c && negb (code c =? 247) then ascii_of_nat (code c - 32)
  else c.

Definition ci_eqb (a b : ascii) : bool := ch_eqb (canon a) (canon b).

Definition one_of (s : string) (c : ascii) : bool :=
  existsb (ch_eqb c) (lit s).

End Chars.

Import Chars.

(* ===================================================================== *)
(** * String primitives of the host language *)
(* ===================================================================== *)

Module JsString.

Fixpoint str_eqb (a b : str) : bool :=
  match a, b with
  | [], [] => true
  | x :: a', y :: b' => ch_eqb x y && str_eqb a' b'
  | _, _ => false
  end.

(** [a.startsWith(p)] at the head of [a]. *)
Fixpoint starts_with (p a : str) : bool :=
  match p, a with
  | [], _ => true
  | x :: p', y :: a' => ch_eqb x y && starts_with p' a'
  | _ :: _, [] => false
  end.

(** [s.includes(p)] *)
Fixpoint includes (p s : str) : bool :=
  starts_with p s ||
  match s with
  | [] => false
  | _ :: s' => includes p s'
  end.

(** [s.endsWith(p)] *)
Definition ends_with (p s : str) : bool :=
  starts_with (rev p) (rev s).

Definition toLowerCase (s : str) : str := map lower s.

Fixpoint trim_start (s : str) : str :=
  match s with
  | c :: s' => if is_space c then trim_start s' else s
  | [] => []
  end.

Definition trim_end (s : str) : str := rev (trim_start (rev s)).

(** [s.trim()] *)
Definition trim (s : str) : str := trim_end (trim_start s).

(** [s.indexOf(c, from)] for a one-character needle; [None] is -1. *)
Fixpoint index_from (c : ascii) (from : nat) (s : str) : option nat :=
  match s with
  | [] => None
  | x :: s' =>
      match from with
      | S f => S <$> index_from c f s'
      | 0 => if ch_eqb x c then Some 0 else S <$> index_from c 0 s'
      end
  end.

(** [s.substring(a, b)] for [a <= b]. *)
Definition substring (a b : nat) (s : str) : str := take (b - a) (drop a s).

(** [s.replace(p, '')] with a string pattern: the first occurrence goes. *)
Fixpoint remove_first (p s : str) : str :=
  if starts_with p s then drop (length p) s
  else match s with
       | [] => []
       | c :: s' => c :: remove_first p s'
       end.

End JsString.

Import JsString.

(* ===================================================================== *)
(** * A backtracking matcher for the regular expressions of the source *)
(* ===================================================================== *)

Module Regex.

(** The fragment the source uses: every quantified atom is a character
    class, groups are numbered, [^] and [$] are not multiline. *)
Inductive regex : Type :=
| Eps
| Chr (p : ascii → bool)
| Seq (r1 r2 : regex)
| Alt (r1 r2 : regex)
| Rep (p : ascii → bool) (lo : nat) (hi : option nat) (greedy : bool)
| Grp (g : nat) (r : regex)
| Bol
| Eol.

Abbreviation caps := (gmap nat (list ascii)).

Definition hi_pred (hi : option nat) : option nat := pred <$> hi.

Definition hi_zero (hi : option nat) : bool :=
  match hi with Some 0 => true | _ => false end.

Definition or_else {R} (a : option R) (b : option R) : option R :=
  match a with Some x => Some x | None => b end.

(** [p{lo,hi}] (greedy) or [p{lo,hi}?] (lazy) at index [i] of the input,
    whose remainder is [s]; [k] is the rest of the pattern. *)
Fixpoint rep {R} (p : ascii → bool) (lo : nat) (hi : option nat) (greedy : bool)
    (i : nat) (s : str) (k : nat → str → option R) {struct s} : option R :=
  if hi_zero hi then k i s
  else
    match lo with
    | S lo' =>
        match s with
        | c :: s' => if p c then rep p lo' (hi_pred hi) greedy (S i) s' k else None
        | [] => None
        end
    | 0 =>
        if greedy then
          match
            match s with
            | c :: s' => if p c then rep p 0 (hi_pred hi) greedy (S i) s' k else None
            | [] => None
            end
          with
          | Some x => Some x
          | None => k i s
          end
        else
          match k i s with
          | Some x => Some x
          | None =>
              match s with
              | c :: s' => if p c then rep p 0 (hi_pred hi) greedy (S i) s' k else None
              | [] => None
              end
          end
    end.

(** The matcher in continuation-passing style, after the MatcherContinuation
    semantics of ECMA-262: alternatives and repetitions are tried in priority
    order and the first complete match wins. *)
Fixpoint exec {R} (r : regex) (i : nat) (s : str) (c : caps)
    (k : nat → str → caps → option R) : option R :=
  match r with
  | Eps => k i s c
  | Chr p =>
      match s with
      | ch :: s' => if p ch then k (S i) s' c else None
      | [] => None
      end
  | Seq r1 r2 => exec r1 i s c (λ i' s' c', exec r2 i' s' c' k)
  | Alt r1 r2 => or_else (exec r1 i s c k) (exec r2 i s c k)
  | Rep p lo hi g => rep p lo hi g i s (λ i' s', k i' s' c)
  | Grp g r1 => exec r1 i s c (λ i' s' c', k i' s' (<[g := take (i' - i) s]> c'))
  | Bol => match i with 0 => k i s c | S _ => None end
  | Eol => match s with [] => k i s c | _ :: _ => None end
  end.

(** One attempt at index [i]: the end index and the captures. *)
Definition match_at (r : regex) (i : nat) (s : str) : option (nat * caps) :=
  exec r i s ∅ (λ i' _ c', Some (i', c')).

(** The leftmost match at or after index [i] (the remainder being [s]):
    start index, end index, matched text and captures. *)
Fixpoint search (r : regex) (i : nat) (s : str) : option (nat * nat * str * caps) :=
  match match_at r i s with
  | Some (e, c) => Some (i, e, take (e - i) s, c)
  | None =>
      match s with
      | _ :: s' => search r (S i) s'
      | [] => None
      end
  end.

(** [s.replace(r, '')] for a regular expression with the [g] flag: every
    match, found left to right from the end of the previous one, is removed;
    after an empty match the scan moves one character on. *)
Fixpoint remove_all_from (r : regex) (i skip : nat) (s : str) : str :=
  match skip with
  | S n =>
      match s with
      | _ :: s' => remove_all_from r (S i) n s'
      | [] => []
      end
  | 0 =>
      match match_at r i s with
      | Some (e, _) =>
          match s with
          | ch :: s' =>
              if e <=? i then ch :: remove_all_from r (S i) 0 s'
              else remove_all_from r (S i) (e - i - 1) s'
          | [] => []
          end
      | None =>
          match s with
          | ch :: s' => ch :: remove_all_from r (S i) 0 s'
          | [] => []
          end
      end
  end.

Definition remove_all (r : regex) (s : str) : str := remove_all_from r 0 0 s.

(** ** Pattern builders *)

Definition seqs (rs : list regex) : regex := foldr Seq Eps rs.
Definition alts (rs : list regex) : regex :=
  match rs with
  | [] => Eps
  | r :: rs' => fold_left Alt rs' r
  end.

(** [r?] for a pattern that cannot match the empty string. *)
Definition opt (r : regex) : regex := Alt r Eps.

(** A literal character, compared up to case when [ci] is set. *)
Definition chr (ci : bool) (c : ascii) : regex :=
  Chr (λ x, if ci then ci_eqb x c else ch_eqb x c).

Definition word (ci : bool) (s : string) : regex := seqs (map (chr ci) (lit s)).

Definition digits (lo hi : nat) : regex := Rep is_digit lo (Some hi) true.

End Regex.

Import Regex.

(* ===================================================================== *)
(** * The patterns of parser.ts *)
(* ===================================================================== *)

Module Patterns.

Definition is_date_sep (c : ascii) : bool := one_of "/.-" c.
Definition is_space_or_dash (c : ascii) : bool := is_space c || ch_eqb c "-".
Definition not_colon (c : ascii) : bool := negb (ch_eqb c ":").
Definition is_name_char (c : ascii) : bool :=
  in_range 97 122 c || in_range 65 90 c || in_range 48 57 c || one_of "._-" c.
Definition is_edge_char (c : ascii) : bool :=
  ch_eqb c ":" || is_space c || ch_eqb c "-".

(** The timestamp group of [MESSAGE_REGEXP]:
    "\d{1,4}[\/\.\-]\d{1,4}[\/\.\-]\d{1,4},?\s\d{1,2}:\d{2}(?::\d{2})?\s?(?:AM|PM|am|pm)?" *)
Definition TIMESTAMP : regex :=
  seqs [ digits 1 4; Chr is_date_sep; digits 1 4; Chr is_date_sep; digits 1 4;
         opt (chr true ","); Chr is_space; digits 1 2; chr true ":"; digits 2 2;
         opt (Seq (chr true ":") (digits 2 2));
         Rep is_space 0 (Some 1) true;
         opt (alts [word true "AM"; word true "PM"; word true "am"; word true "pm"]) ].

(** "/^\[?(TIMESTAMP)\]?[\s\-]*([^:]+):\s(BODY)$/i", where BODY is the greedy
    run of any characters but line terminators. *)
Definition MESSAGE_REGEXP : regex :=
  seqs [ Bol; opt (chr true "["); Grp 1 TIMESTAMP; opt (chr true "]");
         Rep is_space_or_dash 0 None true;
         Grp 2 (Rep not_colon 1 None true);
         chr true ":"; Chr is_space;
         Grp 3 (Rep is_dot 0 None true); Eol ].

Definition EXTENSIONS : list string :=
  [ "jpg"; "jpeg"; "png"; "webp"; "gif"; "heic"; "mp4"; "opus"; "m4a"; "wav";
    "pdf"; "sticker"; "doc"; "docx"; "xls"; "xlsx"; "txt" ]%string.

(** "/([a-zA-Z0-9._\-]+\.(?:jpg|jpeg|...|txt))/gi" *)
Definition ATTACHMENT_REGEXP : regex :=
  Grp 1 (seqs [ Rep is_name_char 1 None true; chr true ".";
                alts (map (word true) EXTENSIONS) ]).

(** "/\(file attached\)/gi", "/<attached:?\s*.*?>/gi", "/media omitted/gi",
    "/\[.*?\]/g" *)
Definition SYSTEM_PATTERNS : list regex :=
  [ word true "(file attached)";
    seqs [ word true "<attached"; opt (chr true ":"); Rep is_space 0 None true;
           Rep is_dot 0 None false; chr true ">" ];
    word true "media omitted";
    seqs [ chr false "["; Rep is_dot 0 None false; chr false "]" ] ].

(** "/^[:\s\-]+|[:\s\-]+$/g" *)
Definition EDGE_REGEXP : regex :=
  Alt (Seq Bol (Rep is_edge_char 1 None true))
      (Seq (Rep is_edge_char 1 None true) Eol).

(** [line.match(MESSAGE_REGEXP)]: the three captures of a header line. *)
Definition head_match (line : str) : option (str * str * str) :=
  match search MESSAGE_REGEXP 0 line with
  | Some (_, _, _, c) =>
      Some (default [] (c !! 1), default [] (c !! 2), default [] (c !! 3))
  | None => None
  end.

(** [line.match(ATTACHMENT_REGEXP)]: with the [g] flag the result lists the
    matched texts, and element 0 is the leftmost one. *)
Definition media_match (line : str) : option str :=
  match search ATTACHMENT_REGEXP 0 line with
  | Some (_, _, m, _) => Some m
  | None => None
  end.

(** [SYSTEM_PATTERNS.forEach(regex => body = body.replace(regex, ''))] *)
Definition strip_system (body : str) : str :=
  fold_left (λ b r, remove_all r b) SYSTEM_PATTERNS body.

(** [x.replace(fileName, '').trim().replace(EDGE_REGEXP, '')] after the
    system patterns are stripped. *)
Definition clean (fileName : str) (x : str) : str :=
  remove_all EDGE_REGEXP (trim (remove_first fileName (strip_system x))).

End Patterns.

Import Patterns.

(* ===================================================================== *)
(** * The message assembler: [parseWhatsAppStringChunk] *)
(* ===================================================================== *)

(** [ChatMessage] of types.ts. *)
Record ChatMessage : Type := mkMsg {
  timestamp : str;
  sender : str;
  text : str;
  isMe : option bool;
  mediaUrl : option str;
  isViewOnce : bool
}.

(** Message objects are heap allocated and shared: the arrays the parser
    returns and [stateTracker.current] hold references to them. *)
Abbreviation ref := nat.

Record State : Type := mkState {
  heap : list ChatMessage;
  current : option ref
}.

(** The line budget: a number of lines, or the host's [Infinity]. *)
Inductive budget : Type :=
| Finite (n : nat)
| Infinity.

Definition under (lines : nat) (limit : budget) : bool :=
  match limit with
  | Finite n => lines <? n
  | Infinity => true
  end.

(** Truthiness of [string | undefined]. *)
Definition truthy (o : option str) : bool :=
  match o with
  | Some (_ :: _) => true
  | _ => false
  end.

(** [a || b] *)
Definition js_or (a b : option str) : option str :=
  if truthy a then a else b.

Definition set_mediaUrl (u : option str) (m : ChatMessage) : ChatMessage :=
  mkMsg (timestamp m) (sender m) (text m) (isMe m) u (isViewOnce m).

Definition set_text (t : str) (m : ChatMessage) : ChatMessage :=
  mkMsg (timestamp m) (sender m) t (isMe m) (mediaUrl m) (isViewOnce m).

Section Assembler.

Variable assetMap : gmap (list ascii) (list ascii).

(** [assetMap.get(fileName) || assetMap.get(fileName.toLowerCase())] *)
Definition resolve (fileName : str) : option str :=
  js_or (assetMap !! fileName) (assetMap !! toLowerCase fileName).

(** [mediaMatch ? mediaMatch[0].trim() : null], kept only when truthy. *)
Definition file_name (line : str) : option str :=
  match trim <$> media_match line with
  | Some (c :: f) => Some (c :: f)
  | _ => None
  end.

(** The record built from a header line. *)
Definition header_message (fileName : option str) (ts author bodyContent : str)
    : ChatMessage :=
  let body := trim bodyContent in
  let '(url, body) :=
    match fileName with
    | Some f => (resolve f, clean f body)
    | None => (None, body)
    end in
  mkMsg (trim ts) (trim author) body None url
        (includes (lit "view once") (toLowerCase bodyContent)).

(** The update of the open record on a continuation line. *)
Definition continue_message (fileName : option str) (line : str)
    (m : ChatMessage) : ChatMessage :=
  match fileName with
  | Some f =>
      let url := resolve f in
      let m1 := if truthy url then set_mediaUrl url m else m in
      let cleaned := clean f line in
      match cleaned with
      | [] => m1
      | _ :: _ =>
          set_text (text m1 ++ (match text m1 with [] => [] | _ :: _ => [newline] end)
                      ++ cleaned) m1
      end
  | None => set_text (text m ++ newline :: line) m
  end.

(** The body of the loop for one non-empty trimmed line: the new state and
    the references pushed onto [parsedMessages]. *)
Definition process_line (line : str) (st : State) : State * list ref :=
  let headMatch := head_match line in
  let fileName := file_name line in
  match headMatch with
  | Some (ts, author, bodyContent) =>
      let message := header_message fileName ts author bodyContent in
      let r := length (heap st) in
      (mkState (heap st ++ [message]) (Some r), [r])
  | None =>
      match current st with
      | Some r => (mkState (alter (continue_message fileName line) r (heap st)) (Some r), [])
      | None => (st, [])
      end
  end.

(** The [while] loop.  [fuel] bounds the number of iterations; [None] means
    the bound was hit before the loop condition failed. *)
Fixpoint parse_loop (fuel : nat) (content : str) (limit : budget)
    (currentPointer linesProcessed : nat) (parsedMessages : list ref)
    (st : State) : option (nat * list ref * State) :=
  if (currentPointer <? length content) && under linesProcessed limit then
    match fuel with
    | 0 => None
    | S fuel' =>
        let nextLineBreak :=
          default (length content) (index_from newline currentPointer content) in
        let line := trim (substring currentPointer nextLineBreak content) in
        let currentPointer := nextLineBreak + 1 in
        match line with
        | [] => parse_loop fuel' content limit currentPointer linesProcessed
                  parsedMessages st
        | _ :: _ =>
            let '(st', out) := process_line line st in
            parse_loop fuel' content limit currentPointer (S linesProcessed)
              (parsedMessages ++ out) st'
        end
    end
  else Some (currentPointer, parsedMessages, st).

(** [parseWhatsAppStringChunk(content, offset, limit, assetMap, stateTracker)]:
    [nextCharIndex], [messages] and the store after the call.  Every
    iteration moves the pointer forward, so [length content] iterations
    are enough (see [parse_total]). *)
Definition parseWhatsAppStringChunk (content : str) (offset : nat)
    (limit : budget) (st : State) : option (nat * list ref * State) :=
  parse_loop (length content) content limit offset 0 [] st.

End Assembler.

(** The sequential calls of a chunked run: each call starts at the
    [nextCharIndex] the previous one returned and shares its store; the
    result carries the last [nextCharIndex], the concatenation of the
    returned arrays and the final store. *)
Fixpoint run_chunks (assetMap : gmap (list ascii) (list ascii)) (content : str)
    (limits : list budget) (offset : nat) (st : State)
    : option (nat * list ref * State) :=
  match limits with
  | [] => Some (offset, [], st)
  | limit :: limits' =>
      match parseWhatsAppStringChunk assetMap content offset limit st with
      | Some (next, msgs, st') =>
          match run_chunks assetMap content limits' next st' with
          | Some (last, msgs', st'') => Some (last, msgs ++ msgs', st'')
          | None => None
          end
      | None => None
      end
  end.

(* ===================================================================== *)
(** * The date interpreter: [formatFullDate] of MessageBubble.tsx *)
(* ===================================================================== *)

Module DateFormat.

Local Open Scope Z_scope.

(** The numbers the function handles: integers and [NaN].  Integers are
    kept exact; the host's doubles agree with them below 2^53, far above
    any date field. *)
Inductive jsnum : Type :=
| NaN
| Num (z : Z).

(** [a > k], [a < k]: false on [NaN]. *)
Definition gt (a : jsnum) (k : Z) : bool :=
  match a with Num z => k <? z | NaN => false end.
Definition lt (a : jsnum) (k : Z) : bool :=
  match a with Num z => z <? k | NaN => false end.
Definition add (a : jsnum) (k : Z) : jsnum :=
  match a with Num z => Num (z + k) | NaN => NaN end.

(** The value of a digit in the given radix. *)
Definition digit_val (radix : Z) (c : ascii) : option Z :=
  let n := Z.of_nat (code c) in
  let v := if in_range 48 57 c then Some (n - 48)
           else if in_range 97 122 c then Some (n - 87)
           else if in_range 65 90 c then Some (n - 55)
           else None in
  match v with
  | Some d => if d <? radix then Some d else None
  | None => None
  end.

(** The longest prefix of digits, read in the radix; [None] when empty. *)
Fixpoint read_digits (radix : Z) (acc : option Z) (s : str) : option Z :=
  match s with
  | c :: s' =>
      match digit_val radix c with
      | Some d => read_digits radix (Some (default 0 acc * radix + d)) s'
      | None => acc
      end
  | [] => acc
  end.

(** [parseInt(s)]: leading white space, a sign, a [0x] prefix, digits. *)
Definition parseInt (s : str) : jsnum :=
  let s := trim_start s in
  let '(sign, s) :=
    match s with
    | c :: s' => if ch_eqb c "-" then (-1, s')
                 else if ch_eqb c "+" then (1, s') else (1, s)
    | [] => (1, s)
    end in
  let '(radix, s) :=
    match s with
    | c0 :: c1 :: s' =>
        if ch_eqb c0 "0" && (ch_eqb c1 "x" || ch_eqb c1 "X") then (16, s') else (10, s)
    | _ => (10, s)
    end in
  match read_digits radix None s with
  | Some v => Num (sign * v)
  | None => NaN
  end.

(** The number inside a template literal. *)
Definition to_str (a : jsnum) : str :=
  match a with
  | Num z => lit (NilZero.string_of_int (Z.to_int z))
  | NaN => lit "NaN"
  end.

(** [dateStr.split(/[\/\.\-]/)] *)
Fixpoint split_date (cur : str) (s : str) : list str :=
  match s with
  | c :: s' => if is_date_sep c then rev cur :: split_date [] s'
               else split_date (c :: cur) s'
  | [] => [rev cur]
  end.

Definition months : list string :=
  [ "January"; "February"; "March"; "April"; "May"; "June";
    "July"; "August"; "September"; "October"; "November"; "December" ]%string.

(** [months[monthIdx]]; [None] is [undefined]. *)
Definition month_at (monthIdx : jsnum) : option str :=
  match monthIdx with
  | Num z => if z <? 0 then None else lit <$> (months !! Z.to_nat z)
  | NaN => None
  end.

(** The detection logic for DD/MM against MM/DD: the day and the month
    index. *)
Definition resolve_day_month (p0 p1 : jsnum) : jsnum * jsnum :=
  if gt p0 12 then (p0, add p1 (-1))
  else if gt p1 12 then (p1, add p0 (-1))
  else (p0, add p1 (-1)).

(** [formatFullDate(dateStr)]; [thisYear] is [new Date().getFullYear()]. *)
Definition formatFullDate (thisYear : Z) (dateStr : str) : str :=
  match dateStr with
  | [] => []
  | _ :: _ =>
      let parts := map trim (split_date [] dateStr) in
      if (length parts <? 2)%nat then dateStr
      else
        let part (i : nat) : str := default [] (parts !! i) in
        let p0 := parseInt (part 0%nat) in
        let p1 := parseInt (part 1%nat) in
        let '(day, monthIdx) := resolve_day_month p0 p1 in
        let year :=
          match parts !! 2%nat with
          | Some (c :: y) =>
              let year := parseInt (c :: y) in
              if lt year 100 then add year 2000 else year
          | _ => Num thisYear
          end in
        let monthName := default (part 1%nat) (month_at monthIdx) in
        to_str day ++ lit " " ++ monthName ++ lit " " ++ to_str year
  end.

End DateFormat.

(* ===================================================================== *)
(** * The transcript selection of [extractChatAndMediaFromZip] *)
(* ===================================================================== *)

Module Archive.

(** An entry of the loaded archive ([zip.files] in enumeration order): its
    name, whether it is a folder, and its content as a string. *)
Record ZipEntry : Type := mkEntry {
  name : str;
  dir : bool;
  data : str
}.

(** [zip.file(n)] of JSZip: the entry stored under that exact name, unless
    it is a folder. *)
Definition zip_file (entries : list ZipEntry) (n : str) : option ZipEntry :=
  match List.find (λ f, str_eqb (name f) n) entries with
  | Some f => if dir f then None else Some f
  | None => None
  end.

(** [entries.filter(f => f.name.endsWith('.txt') && !f.dir)] *)
Definition textEntries (entries : list ZipEntry) : list ZipEntry :=
  List.filter (λ f, ends_with (lit ".txt") (name f) && negb (dir f)) entries.

Definition has_chat (f : ZipEntry) : bool :=
  includes (lit "chat") (toLowerCase (name f)).

(** [sort((a, b) => b.name.length - a.name.length)]: the host's sort is
    stable, and an element moves behind another only when the comparator is
    positive. *)
Fixpoint insert_by_length (x : ZipEntry) (l : list ZipEntry) : list ZipEntry :=
  match l with
  | [] => [x]
  | y :: l' =>
      if length (name x) <? length (name y) then y :: insert_by_length x l'
      else x :: y :: l'
  end.

Definition sort_by_length (l : list ZipEntry) : list ZipEntry :=
  foldr insert_by_length [] l.

(** [zip.file("_chat.txt") || textEntries.find(...) || textEntries.sort(...)[0]] *)
Definition chatFile (entries : list ZipEntry) : option ZipEntry :=
  match zip_file entries (lit "_chat.txt") with
  | Some f => Some f
  | None =>
      match List.find has_chat (textEntries entries) with
      | Some f => Some f
      | None => head (sort_by_length (textEntries entries))
      end
  end.

(** The outcome of the extraction as far as the transcript goes: the error
    thrown, or the text of the chosen entry. *)
Inductive outcome : Type :=
| Throw (message : str)
| Text (chatText : str).

Definition extractChat (entries : list ZipEntry) : outcome :=
  match chatFile entries with
  | None => Throw (lit "No chat logs found in archive.")
  | Some f => Text (data f)
  end.

End Archive.

(* ===================================================================== *)
(** * The upload handler and the chunk scheduler of App.tsx *)
(* ===================================================================== *)

Module App.

(** The refs of the component that the loading path touches.  [store] holds
    the message objects and [lastMessageRef.current]; controllers are
    numbered and [aborted] lists the ones whose signal fired. *)
Record Refs : Type := mkRefs {
  store : State;
  accumulatedRef : list ref;
  abortControllerRef : option nat;
  controllers : nat;
  aborted : list nat
}.

(** The selected file: the cache key built from its name and size, and
    what reading it settles to: the text and the asset table (from
    [file.text()], or from [extractChatAndMediaFromZip] for an archive), or
    the message of the error thrown. *)
Record Upload : Type := mkUpload {
  cacheId : str;
  fileText : str;
  mediaMap : gmap (list ascii) (list ascii);
  failure : option str
}.

(** What waits in the event loop: [handleFileUpload] suspended at
    [await getChatFromCache(cacheId)] or at the [await] that reads the file,
    a [parseNext] handed to [requestAnimationFrame] with the [currentPos] of
    its closure, and the write that [saveChatToCache] performs once the
    database is open, holding the array it was given. *)
Inductive task : Type :=
| AwaitCache (up : Upload)
| AwaitFile (up : Upload)
| Frame (up : Upload) (currentPos : nat)
| AwaitSave (cacheId : str) (messages : list ref).

(** The component between two tasks: the refs, the fields of [state] that
    decide what is rendered, the object store of the database and the
    waiting tasks.  State updates are taken as applied when the task that
    requested them ends. *)
Record Page : Type := mkPage {
  refs : Refs;
  messages : list ref;
  loading : bool;
  error : option str;
  cache : gmap (list ascii) (list ChatMessage);
  pending : list task
}.

Definition initial_refs : Refs := mkRefs (mkState [] None) [] None 0 [].

(** The component as mounted, over whatever the database holds. *)
Definition initial (cache : gmap (list ascii) (list ChatMessage)) : Page :=
  mkPage initial_refs [] false None cache [].

(** The file input is rendered only in the branch
    [state.loading ? ... : state.messages.length === 0 ? ... : ...]. *)
Definition input_mounted (page : Page) : bool :=
  negb (loading page) && (length (messages page) =? 0).

(** The statements of [handleFileUpload] on the refs before its first
    [await]: the previous run is aborted, a new controller is installed and
    [accumulatedRef] is emptied. *)
Definition begin_upload (app : Refs) : Refs :=
  let aborted' :=
    match abortControllerRef app with
    | Some c => c :: aborted app
    | None => aborted app
    end in
  mkRefs (store app) [] (Some (controllers app)) (S (controllers app)) aborted'.

Definition signal_aborted (app : Refs) : bool :=
  match abortControllerRef app with
  | Some c => bool_decide (c ∈ aborted app)
  | None => false
  end.

(** [handleFileUpload] up to [await getChatFromCache(cacheId)] ([None]: no
    file in the event). *)
Definition handleFileUpload (file : option Upload) (page : Page) : Page :=
  match file with
  | None => page
  | Some up =>
      mkPage (begin_upload (refs page)) [] true None (cache page)
        (pending page ++ [AwaitCache up])
  end.

(** One run of [parseNext] with [currentPos] in its closure: a slice of
    15000 lines is parsed, [state.messages] is refreshed at the end of the
    text or when the number of records is a multiple of 10000, and either
    the next frame is requested or the records go to the cache. *)
Definition parseNext (up : Upload) (currentPos : nat) (page : Page) : option Page :=
  let app := refs page in
  if signal_aborted app then Some page
  else
    match parseWhatsAppStringChunk (mediaMap up) (fileText up) currentPos
            (Finite (15 * 1000)) (store app) with
    | None => None
    | Some (nextCharIndex, messages', st') =>
        let acc := accumulatedRef app ++ messages' in
        let app' := mkRefs st' acc (abortControllerRef app) (controllers app)
                      (aborted app) in
        let shown :=
          if (length (fileText up) <=? nextCharIndex)
             || (length acc mod (10 * 1000) =? 0)
          then acc else messages page in
        let next :=
          if nextCharIndex <? length (fileText up)
          then Frame up nextCharIndex
          else AwaitSave (cacheId up) acc in
        Some (mkPage app' shown (loading page) (error page) (cache page)
                (pending page ++ [next]))
    end.

(** [processInChunks(text, startIdx, mediaMap, cacheId)]: the first
    [parseNext] runs at once. *)
Definition processInChunks (up : Upload) (startIdx : nat) (page : Page)
    : option Page :=
  parseNext up startIdx page.

(** [handleFileUpload] after [await getChatFromCache(cacheId)]: a cached
    array (fresh objects, read from the database) is shown as it is;
    otherwise the file is read. *)
Definition after_cache (up : Upload) (cached : option (list ChatMessage))
    (page : Page) : Page :=
  match cached with
  | Some msgs =>
      let app := refs page in
      let h := heap (store app) in
      let fresh := seq (length h) (length msgs) in
      mkPage (mkRefs (mkState (h ++ msgs) (current (store app))) fresh
                (abortControllerRef app) (controllers app) (aborted app))
        fresh false (error page) (cache page) (pending page)
  | None =>
      mkPage (refs page) (messages page) (loading page) (error page) (cache page)
        (pending page ++ [AwaitFile up])
  end.

(** [handleFileUpload] after the file is read: the [catch] clause on an
    error; otherwise the first slice of 1000 lines, and [processInChunks]
    when text is left. *)
Definition after_file (up : Upload) (page : Page) : option Page :=
  match failure up with
  | Some message =>
      Some (mkPage (refs page) (messages page) false (Some message) (cache page)
              (pending page))
  | None =>
      let app := refs page in
      match parseWhatsAppStringChunk (mediaMap up) (fileText up) 0
              (Finite 1000) (store app) with
      | None => None
      | Some (nextCharIndex, firstBatch, st') =>
          let app' := mkRefs st' firstBatch (abortControllerRef app)
                        (controllers app) (aborted app) in
          let page' := mkPage app' firstBatch false (error page) (cache page)
                         (pending page) in
          if nextCharIndex <? length (fileText up)
          then processInChunks up nextCharIndex page'
          else Some page'
      end
  end.

(** [store.put(messages, cacheKey)]: the records are copied as they are
    when the write happens. *)
Definition save (key : str) (msgs : list ref) (page : Page) : Page :=
  mkPage (refs page) (messages page) (loading page) (error page)
    (<[key := omap (λ r, heap (store (refs page)) !! r) msgs]> (cache page))
    (pending page).

(** What happens on the page: a file is chosen in the file input, or the
    waiting task number [i] runs; [ok] tells whether the database answered
    ([getChatFromCache] resolves to [null] and [saveChatToCache] gives up
    when it did not). *)
Inductive event : Type :=
| Select (file : option Upload)
| Resume (i : nat) (ok : bool).

(** One task of the event loop; [None] when the event cannot happen (the
    file input is not rendered, or no task has that number). *)
Definition step (e : event) (page : Page) : option Page :=
  match e with
  | Select file =>
      if input_mounted page then Some (handleFileUpload file page) else None
  | Resume i ok =>
      match pending page !! i with
      | None => None
      | Some t =>
          let page := mkPage (refs page) (messages page) (loading page) (error page)
                        (cache page) (delete i (pending page)) in
          match t with
          | AwaitCache up =>
              Some (after_cache up (if ok then cache page !! cacheId up else None) page)
          | AwaitFile up => after_file up page
          | Frame up currentPos => parseNext up currentPos page
          | AwaitSave key msgs =>
              Some (if ok then save key msgs page else page)
          end
      end
  end.

Fixpoint run (events : list event) (page : Page) : option Page :=
  match events with
  | [] => Some page
  | e :: events' =>
      match step e page with
      | Some page' => run events' page'
      | None => None
      end
  end.

(** A bound on the tasks a waiting task can still give rise to. *)
Definition work (t : task) : nat :=
  match t with
  | AwaitCache up => length (fileText up) + 4
  | AwaitFile up => length (fileText up) + 3
  | Frame up currentPos => length (fileText up) - currentPos + 2
  | AwaitSave _ _ => 1
  end.

Definition total_work (page : Page) : nat := sum_list (map work (pending page)).

Definition is_frame (t : task) : bool :=
  match t with Frame _ _ => true | _ => false end.

Definition is_save (t : task) : bool :=
  match t with AwaitSave _ _ => true | _ => false end.

Definition is_resume (e : event) : bool :=
  match e with Resume _ _ => true | Select _ => false end.

End App.

(* ===================================================================== *)
(** * Vocabulary of the statements *)
(* ===================================================================== *)

(** A budget that lets the loop take at least one line. *)
Definition positive (limit : budget) : Prop :=
  match limit with
  | Finite 0 => False
  | _ => True
  end.

(** A property of records that continuation lines maintain. *)
Definition stable (assetMap : gmap (list ascii) (list ascii))
    (P : ChatMessage → Prop) : Prop :=
  ∀ f line m, P m → P (continue_message assetMap f line m).

(** The property of a record that C2 asks for, as the claim states it. *)
Definition sender_and_timestamp_nonempty (m : ChatMessage) : Prop :=
  sender m ≠ [] ∧ timestamp m ≠ [].

(** ** The words of a pattern *)

Module RegexSem.

(** [den r i w rest c c']: at index [i], pattern [r] can consume [w] in
    front of [rest], turning the captures [c] into [c']. *)
Fixpoint den (r : regex) (i : nat) (w rest : str) (c c' : caps) : Prop :=
  match r with
  | Eps => w = [] ∧ c' = c
  | Chr p => ∃ ch, w = [ch] ∧ p ch = true ∧ c' = c
  | Seq r1 r2 =>
      ∃ w1 w2 c1, w = w1 ++ w2 ∧ den r1 i w1 (w2 ++ rest) c c1
                  ∧ den r2 (i + length w1) w2 rest c1 c'
  | Alt r1 r2 => den r1 i w rest c c' ∨ den r2 i w rest c c'
  | Rep p lo _ _ => Forall (λ ch, p ch = true) w ∧ lo ≤ length w ∧ c' = c
  | Grp g r1 => ∃ c1, den r1 i w rest c c1 ∧ c' = <[g := w]> c1
  | Bol => w = [] ∧ i = 0 ∧ c' = c
  | Eol => w = [] ∧ rest = [] ∧ c' = c
  end.

(** Bounds of a quantifier are ordered (the host rejects other patterns). *)
Definition bounds_ok (lo : nat) (hi : option nat) : bool :=
  match hi with
  | Some h => lo <=? h
  | None => true
  end.

(** Patterns all of whose quantifiers have ordered bounds. *)
Fixpoint wf (r : regex) : bool :=
  match r with
  | Seq r1 r2 | Alt r1 r2 => wf r1 && wf r2
  | Rep _ lo hi _ => bounds_ok lo hi
  | Grp _ r1 => wf r1
  | _ => true
  end.

(** Patterns without capture groups. *)
Fixpoint no_group (r : regex) : bool :=
  match r with
  | Seq r1 r2 | Alt r1 r2 => no_group r1 && no_group r2
  | Grp _ _ => false
  | _ => true
  end.

End RegexSem.

(* ===================================================================== *)
(** * Sample inputs *)
(* ===================================================================== *)

Definition two_lines : str := lit "a" ++ [newline] ++ lit "b".

Definition demo_text : str :=
  lit "[1/2/23, 10:00:00 AM] Alice: Hello" ++ [newline] ++
  lit "How are you?" ++ [newline] ++
  lit "[1/2/23, 10:01:00 AM] Bob: Fine".

Definition demo_state : State :=
  mkState
    [ mkMsg (lit "1/2/23, 10:00:00 AM") (lit "Alice")
        (lit "Hello" ++ [newline] ++ lit "How are you?") None None false;
      mkMsg (lit "1/2/23, 10:01:00 AM") (lit "Bob") (lit "Fine") None None false ]
    (Some 1).

Definition blank_author_line : str := lit "1/2/23 1:00  : x".

Definition two_assets : gmap (list ascii) (list ascii) :=
  <[lit "a.jpg" := lit "blob:1"]> (<[lit "b.jpg" := lit "blob:2"]> ∅).

Definition two_attachments : str :=
  lit "1/2/23, 10:00 - Al: a.jpg (file attached)" ++ [newline] ++
  lit "b.jpg (file attached)".

Definition view_once_line : str :=
  lit "[1/2/23, 10:00:00 AM] Al: <View Once> [photo] a.jpg".


Definition demo_archive : list Archive.ZipEntry :=
  [ Archive.mkEntry (lit "media/IMG-001.jpg") false [];
    Archive.mkEntry (lit "notes.txt") false (lit "n");
    Archive.mkEntry (lit "WhatsApp Chat with Al.txt") false (lit "w");
    Archive.mkEntry (lit "_chat.txt") false (lit "c") ].

(** A transcript whose first 15999 lines belong to no message: its only
    header line is the last line of the second slice, and one more line
    follows. *)
Definition first_file : App.Upload :=
  App.mkUpload (lit "wa-v2-first.txt-32022")
    (concat (replicate (16 * 1000 - 1) (lit "x" ++ [newline]))
     ++ lit "1/2/23, 10:00 - Al: Hi" ++ [newline] ++ lit "x")
    ∅ None.

Definition second_file : App.Upload :=
  App.mkUpload (lit "wa-v2-second.txt-34")
    (lit "orphan line" ++ [newline] ++ lit "1/2/23, 10:01 - Bo: Yo") ∅ None.

(* ===================================================================== *)
(** * The asset table of [extractChatAndMediaFromZip] *)
(* ===================================================================== *)

Module Media.

Import Archive.

(** "/\.(jpg|jpeg|png|webp|gif|heic|mp4|opus|m4a|wav|pdf|sticker|doc|docx|xls|xlsx|txt)$/i" *)
Definition MEDIA_NAME_REGEXP : regex :=
  seqs [ chr true "."; alts (map (word true) EXTENSIONS); Eol ].

(** [r.test(s)] for a pattern without the [g] flag. *)
Definition regex_test (r : regex) (s : str) : bool :=
  match search r 0 s with
  | Some _ => true
  | None => false
  end.

(** [entries.filter(f => !f.dir && MEDIA_NAME_REGEXP.test(f.name))] *)
Definition mediaEntries (entries : list ZipEntry) : list ZipEntry :=
  List.filter (λ f, negb (dir f) && regex_test MEDIA_NAME_REGEXP (name f)) entries.

Definition is_path_sep (c : ascii) : bool := ch_eqb c "/" || ch_eqb c "\".

(** "s.split(/[\\/]/).pop()": what follows the last separator. *)
Fixpoint last_segment (cur : str) (s : str) : str :=
  match s with
  | c :: s' => if is_path_sep c then last_segment [] s' else last_segment (c :: cur) s'
  | [] => rev cur
  end.

(** [entry.name.split(...).pop() || entry.name] *)
Definition baseName (f : ZipEntry) : str :=
  match last_segment [] (name f) with
  | [] => name f
  | c :: b => c :: b
  end.

Section Extraction.

(** The locator [URL.createObjectURL] hands out for the blob of an entry;
    [None] when reading the blob throws, which the loop catches. *)
Variable objectURL : ZipEntry → option str.

(** One turn of the loop over [mediaEntries]: two [mediaMap.set] calls. *)
Definition register (mediaMap : gmap (list ascii) (list ascii)) (entry : ZipEntry)
    : gmap (list ascii) (list ascii) :=
  match objectURL entry with
  | Some url =>
      <[toLowerCase (baseName entry) := url]> (<[baseName entry := url]> mediaMap)
  | None => mediaMap
  end.

Definition mediaMap (entries : list ZipEntry) : gmap (list ascii) (list ascii) :=
  fold_left register (mediaEntries entries) ∅.

(** What the promise settles to. *)
Inductive result : Type :=
| Rejected (message : str)
| Resolved (text : str) (mediaMap : gmap (list ascii) (list ascii)).

Definition extractChatAndMediaFromZip (entries : list ZipEntry) : result :=
  match extractChat entries with
  | Throw message => Rejected message
  | Text chatText => Resolved chatText (mediaMap entries)
  end.

End Extraction.

End Media.

(* ===================================================================== *)
(** * The transcript as a list of lines *)
(* ===================================================================== *)

(** [s.split('\n')]: the pieces between line breaks. *)
Fixpoint lines_of (s : str) : list str :=
  match s with
  | [] => [[]]
  | c :: s' =>
      if ch_eqb c newline then [] :: lines_of s'
      else match lines_of s' with
           | l :: ls => (c :: l) :: ls
           | [] => [[c]]
           end
  end.

(** The loop body applied to a list of raw lines, one after the other:
    blank lines are skipped, the others go through [process_line]. *)
Fixpoint run_lines (assetMap : gmap (list ascii) (list ascii)) (ls : list str)
    (st : State) : State * list ref :=
  match ls with
  | [] => (st, [])
  | l :: ls' =>
      match trim l with
      | [] => run_lines assetMap ls' st
      | c :: line =>
          let '(st1, out) := process_line assetMap (c :: line) st in
          let '(st2, msgs) := run_lines assetMap ls' st1 in
          (st2, out ++ msgs)
      end
  end.

(** The fields of a record that no continuation line touches, and the text
    it had as a prefix of the text it has. *)
Definition extends (m m' : ChatMessage) : Prop :=
  timestamp m' = timestamp m ∧ sender m' = sender m ∧ isMe m' = isMe m
  ∧ isViewOnce m' = isViewOnce m ∧ ∃ more, text m' = text m ++ more.

Definition orphan_text : str :=
  lit "Messages are end-to-end encrypted." ++ [newline] ++ lit "no header here".

Definition blank_text : str := lit "  " ++ [newline; newline] ++ lit " ".

(* ===================================================================== *)
(** * States of the upload handler *)
(* ===================================================================== *)

(** Controller numbers are handed out in order: the ones already aborted
    and the installed one are below the next number, and the installed one
    is not among the aborted. *)
Definition controllers_in_order (app : App.Refs) : Prop :=
  Forall (λ c, c < App.controllers app) (App.aborted app)
  ∧ ∀ c, App.abortControllerRef app = Some c →
         c < App.controllers app ∧ c ∉ App.aborted app.

(** The pages the component can be in: the one it is mounted with, over
    any content of the database, and those that events lead to. *)
Inductive reachable_page : App.Page → Prop :=
| reach_initial cache : reachable_page (App.initial cache)
| reach_step e page page' :
    reachable_page page → App.step e page = Some page' → reachable_page page'.

(** The states of the refs that the component can be in. *)
Definition reachable (app : App.Refs) : Prop :=
  ∃ page, reachable_page page ∧ App.refs page = app.

(** A run that is alone on the page, between two of its tasks: it waits
    for the cache, for the file, or for a frame, with the text up to the
    frame's position read in one pass from the store [st0] the run found;
    or it is over, and the whole text was read in one pass. *)
Definition alone (up : App.Upload) (st0 : State) (page : App.Page) : Prop :=
  App.signal_aborted (App.refs page) = false
  ∧ ((App.pending page = [App.AwaitCache up]
      ∧ App.store (App.refs page) = st0 ∧ App.cache page !! App.cacheId up = None)
     ∨ (App.pending page = [App.AwaitFile up] ∧ App.store (App.refs page) = st0)
     ∨ (∃ pos, App.pending page = [App.Frame up pos]
               ∧ ∀ next msgs st,
                   parseWhatsAppStringChunk (App.mediaMap up) (App.fileText up) pos
                     Infinity (App.store (App.refs page)) = Some (next, msgs, st) →
                   parseWhatsAppStringChunk (App.mediaMap up) (App.fileText up) 0
                     Infinity st0
                   = Some (next, App.accumulatedRef (App.refs page) ++ msgs, st))
     ∨ (Forall (λ t, App.is_save t = true) (App.pending page)
        ∧ App.messages page = App.accumulatedRef (App.refs page)
        ∧ ∃ next,
            parseWhatsAppStringChunk (App.mediaMap up) (App.fileText up) 0
              Infinity st0
            = Some (next, App.accumulatedRef (App.refs page),
                    App.store (App.refs page)))).

(** A transcript of 1001 messages: more than the first slice takes. *)
Definition long_file : App.Upload :=
  App.mkUpload (lit "wa-v2-long.txt-23023")
    (concat (replicate 1001 (lit "1/2/23, 10:00 - Al: Hi" ++ [newline]))) ∅ None.

(** The page once [long_file], chosen on the initial page over an empty
    database, is read: the cache and the file have answered. *)
Definition long_file_events : list App.event :=
  [App.Select (Some long_file); App.Resume 0 true; App.Resume 0 true].

Definition long_file_loaded : App.Page :=
  Eval vm_compute in default (App.initial ∅) (App.run long_file_events (App.initial ∅)).

(** A locator for every entry, as [URL.createObjectURL] would give one. *)
Definition demo_urls (f : Archive.ZipEntry) : option str :=
  Some (lit "blob:" ++ Archive.name f).

(* ===================================================================== *)
(** * The derived lists and statistics of App.tsx *)
(* ===================================================================== *)

Module View.

(** What a property of the [participants] object can hold: a count, or the
    string that adding 1 to something that is not a number gives. *)
Inductive tally : Type :=
| Count (n : nat)
| Words.

(** The properties every object inherits from [Object.prototype]. *)
Definition object_prototype_names : list string :=
  [ "constructor"; "__proto__"; "hasOwnProperty"; "isPrototypeOf";
    "propertyIsEnumerable"; "toLocaleString"; "toString"; "valueOf";
    "__defineGetter__"; "__defineSetter__"; "__lookupGetter__";
    "__lookupSetter__" ]%string.

Definition inherited (k : str) : bool :=
  existsb (λ n, str_eqb k (lit n)) object_prototype_names.

(** [participants[k] = (participants[k] || 0) + 1] on an object literal: an
    own property is read first, then an inherited one (a function or an
    object, truthy); a number grows by one, anything else becomes a string;
    assigning a string to [__proto__] does nothing. *)
Definition bump (participants : gmap (list ascii) tally) (k : str)
    : gmap (list ascii) tally :=
  let found :=
    match participants !! k with
    | Some v => Some v
    | None => if inherited k then Some Words else None
    end in
  let next :=
    match found with
    | Some (Count n) => Count (n + 1)
    | Some Words => Words
    | None => Count 1
    end in
  if str_eqb k (lit "__proto__") then participants else <[k := next]> participants.

Record LocalStats : Type := mkStats {
  totalMessages : nat;
  participants : gmap (list ascii) tally;
  mediaCount : nat;
  wordCount : nat;
  topWords : list (str * nat)
}.

(** [computeStats(messages)] *)
Definition computeStats (messages : list ChatMessage) : LocalStats :=
  let '(participants, mediaCount) :=
    fold_left
      (λ '(p, c) m, (bump p (sender m), if truthy (mediaUrl m) then S c else c))
      messages (∅, 0) in
  mkStats (length messages) participants mediaCount 0 [].

(** [state.messages.filter(m => m.mediaUrl)] *)
Definition galleryMedia (messages : list ChatMessage) : list ChatMessage :=
  List.filter (λ m, truthy (mediaUrl m)) messages.

(** [s.split(',')[0]] *)
Fixpoint before_comma (s : str) : str :=
  match s with
  | c :: s' => if ch_eqb c "," then [] else c :: before_comma s'
  | [] => []
  end.

(** [msg.timestamp.split(',')[0].trim()] *)
Definition dateKey (msg : ChatMessage) : str := trim (before_comma (timestamp msg)).

Record Group : Type := mkGroup {
  date : str;
  msgs : list ChatMessage
}.

(** One turn of the [forEach] of [groupedMessages]: a group is opened when
    there is none or the last one has another date, and the message goes to
    the last group. *)
Definition push_message (groups : list Group) (msg : ChatMessage) : list Group :=
  let groups :=
    match last groups with
    | Some g => if str_eqb (date g) (dateKey msg) then groups
                else groups ++ [mkGroup (dateKey msg) []]
    | None => groups ++ [mkGroup (dateKey msg) []]
    end in
  alter (λ g, mkGroup (date g) (msgs g ++ [msg])) (length groups - 1) groups.

Definition groupedMessages (visible : list ChatMessage) : list Group :=
  fold_left push_message visible [].




(** How many of the messages have [s] as sender. *)
Definition occurrences (s : str) (messages : list ChatMessage) : nat :=
  length (List.filter (λ m, str_eqb (sender m) s) messages).

(** The property [s] after [n] more messages of sender [s], when it held
    [o] before. *)
Definition tally_after (o : option tally) (s : str) (n : nat) : option tally :=
  match n with
  | 0 => o
  | S _ =>
      if str_eqb s (lit "__proto__") then o
      else match o with
           | Some (Count k) => Some (Count (k + n))
           | Some Words => Some Words
           | None => if inherited s then Some Words else Some (Count n)
           end
  end.

(** No two neighbours among the groups have the same date. *)
Fixpoint neighbours_differ (gs : list Group) : Prop :=
  match gs with
  | g :: gs' =>
      match gs' with
      | g' :: _ => date g ≠ date g' ∧ neighbours_differ gs'
      | [] => True
      end
  | [] => True
  end.

(** The groups after each step: their messages, in order, are the messages
    seen; none is empty; each holds messages of its date; neighbours have
    different dates. *)
Definition well_grouped (gs : list Group) (seen : list ChatMessage) : Prop :=
  concat (map msgs gs) = seen
  ∧ Forall (λ g, msgs g ≠ [] ∧ Forall (λ m, dateKey m = date g) (msgs g)) gs
  ∧ neighbours_differ gs.

End View.



(* ===================================================================== *)
(** * Helpers of MessageBubble.tsx *)
(* ===================================================================== *)

Module Bubble.

Definition is_phone_char (c : ascii) : bool :=
  is_digit c || is_space c || one_of "-+()" c.

Definition is_dial_char (c : ascii) : bool := is_digit c || ch_eqb c "+".

(** "/^[\d\s\-\+\(\)]+$/" *)
Definition PHONE_REGEXP : regex :=
  seqs [ Bol; Rep is_phone_char 1 None true; Eol ].

(** "/[^\d\+]/g" *)
Definition NON_DIAL_REGEXP : regex := Chr (λ c, negb (is_dial_char c)).

(** "/^\+/" *)
Definition LEADING_PLUS_REGEXP : regex := Seq Bol (chr false "+").

(** [s.replace(r, '')] for a pattern without the [g] flag: the leftmost
    match goes. *)
Definition remove_first_match (r : regex) (s : str) : str :=
  match search r 0 s with
  | Some (b, e, _, _) => take b s ++ drop e s
  | None => s
  end.

(** [formatSenderName(name)] in a bubble whose message has the given [isMe]
    and [sender]. *)
Definition formatSenderName (isMe : option bool) (sender name : str) : str :=
  match isMe with
  | Some true => sender
  | _ =>
      if Media.regex_test PHONE_REGEXP name
      then lit "+" ++ remove_first_match LEADING_PLUS_REGEXP
                        (remove_all NON_DIAL_REGEXP name)
      else name
  end.

(** A string without its leading plus sign, if it has one. *)
Definition strip_plus (s : str) : str :=
  match s with
  | c :: s' => if ch_eqb c "+" then s' else s
  | [] => []
  end.

Local Open Scope Z_scope.

(** ToInt32 *)
Definition wrap32 (z : Z) : Z := (z + 2 ^ 31) mod 2 ^ 32 - 2 ^ 31.

(** [hash = name.charCodeAt(i) + ((hash << 5) - hash)]: the shift works on
    32-bit integers, the sum and the difference on numbers. *)
Definition hash_step (hash : Z) (c : ascii) : Z :=
  Z.of_nat (code c) + (wrap32 (wrap32 hash * 32) - hash).

Definition name_hash (name : str) : Z := fold_left hash_step name 0.

(** The palette of [getAvatarStyles]: base and light. *)
Definition avatar_colors : list (string * string) :=
  [ ("#d62976", "#e05291"); ("#3b82f6", "#60a5fa"); ("#10b981", "#34d399");
    ("#f59e0b", "#fbbf24"); ("#8b5cf6", "#a78bfa"); ("#ef4444", "#f87171");
    ("#00a884", "#00c49a") ]%string.

(** The palette of [getNameColor]. *)
Definition name_colors : list string :=
  [ "#d62976"; "#3b82f6"; "#10b981"; "#f59e0b"; "#8b5cf6"; "#ef4444";
    "#00a884" ]%string.

Record Style : Type := mkStyle {
  background : str;
  color : str
}.

(** [Math.abs(hash) % colors.length] *)
Definition color_index (name : str) (palette_size : nat) : nat :=
  Z.to_nat (Z.abs (name_hash name) mod Z.of_nat palette_size).

(** [getNameColor(name)]; [None] is [undefined]. *)
Definition getNameColor (name : str) : option str :=
  lit <$> name_colors !! color_index name (length name_colors).

(** [getAvatarStyles(name)]; [None] stands for the TypeError of reading a
    property of [undefined]. *)
Definition getAvatarStyles (name : str) : option Style :=
  match avatar_colors !! color_index name (length avatar_colors) with
  | Some (base, light) =>
      Some (mkStyle (lit "linear-gradient(135deg, " ++ lit light ++ lit " 0%, "
                       ++ lit base ++ lit " 100%)")%list
                    (lit "#ffffff"))
  | None => None
  end.

End Bubble.

(** Whether a raw line, once trimmed, is a header line. *)
Definition is_header (l : str) : bool :=
  match head_match (trim l) with
  | Some _ => true
  | None => false
  end.

(** What continuation lines without attachment add to a text: each one
    that is not blank, trimmed, after a line break. *)
Definition joined (conts : list str) : str :=
  concat (map (λ l, match trim l with [] => [] | c :: t => newline :: c :: t end) conts).

(** A locator is absent or is a value of the asset table. *)
Definition from_table (assetMap : gmap (list ascii) (list ascii)) (m : ChatMessage) : Prop :=
  mediaUrl m = None ∨ ∃ k, assetMap !! k = mediaUrl m.

Definition headers_text : str :=
  lit "[1/2/23, 10:00:00 AM] Alice: Hello" ++ [newline] ++
  lit " How are you? " ++ [newline] ++ [newline] ++
  lit "Fine, I hope.".

(** The shape of an attachment name: a non-empty stem of letters, digits,
    dots, underscores and hyphens, a dot, and an extension that is, up to
    case, one of the listed ones. *)
Definition attachment_shaped (f : str) : Prop :=
  ∃ stem ext e,
    f = stem ++ "."%char :: ext
    ∧ stem ≠ [] ∧ Forall (λ ch, is_name_char ch = true) stem
    ∧ In e EXTENSIONS ∧ toLowerCase ext = lit e.

Definition two_texts : str * str :=
  (lit "1/2/23, 10:00 - Al: Hi" ++ [newline] ++ lit "there",
   lit "again" ++ [newline] ++ lit "1/2/23, 10:01 - Bo: Yo").

(* ===================================================================== *)
(** * The guess of the user's own name: [detectMeSender] of App.tsx *)
(* ===================================================================== *)

Module Detect.

Import View.

(** The own properties of the object [counts], in the order of their
    creation. *)
Abbreviation props := (list (str * tally)).

Fixpoint own (counts : props) (k : str) : option tally :=
  match counts with
  | [] => None
  | (k', v) :: rest => if str_eqb k' k then Some v else own rest k
  end.

(** [counts[k] = v]: an own property is overwritten in place, a new one
    comes last. *)
Fixpoint set_prop (counts : props) (k : str) (v : tally) : props :=
  match counts with
  | [] => [(k, v)]
  | (k', v') :: rest =>
      if str_eqb k' k then (k', v) :: rest else (k', v') :: set_prop rest k v
  end.

(** [counts[k] = (counts[k] || 0) + 1] on an object literal: an own
    property is read first, then an inherited one (a function or an object,
    truthy); a number grows by one, anything else becomes a string;
    assigning a string to [__proto__] does nothing. *)
Definition bump_prop (counts : props) (k : str) : props :=
  let found :=
    match own counts k with
    | Some v => Some v
    | None => if inherited k then Some Words else None
    end in
  let next :=
    match found with
    | Some (Count n) => Count (n + 1)
    | Some Words => Words
    | None => Count 1
    end in
  if str_eqb k (lit "__proto__") then counts else set_prop counts k next.

(** The value of a property name that is an array index: a canonical
    decimal numeral below 2^32 - 1. *)
Definition index_value (k : str) : option N :=
  match k with
  | [] => None
  | c :: rest =>
      if forallb is_digit k && (negb (ch_eqb c "0") || (length rest =? 0))
      then
        let v := fold_left (λ a d, (10 * a + N.of_nat (code d - 48))%N) k 0%N in
        if (v <? 4294967295)%N then Some v else None
      else None
  end.

Definition is_index (e : str * tally) : bool :=
  match index_value e.1 with Some _ => true | None => false end.

Fixpoint insert_by_index (x : str * tally) (l : props) : props :=
  match l with
  | [] => [x]
  | y :: l' =>
      if (default 0 (index_value y.1) <? default 0 (index_value x.1))%N
      then y :: insert_by_index x l'
      else x :: y :: l'
  end.

(** [Object.entries(counts)]: the array indices in ascending order, then
    the other names in the order of their creation. *)
Definition entries (counts : props) : props :=
  foldr insert_by_index [] (List.filter is_index counts)
  ++ List.filter (λ e, negb (is_index e)) counts.

(** Whether [b[1] - a[1]] is positive; the difference with a string that
    is no numeral is [NaN], which [sort] takes for zero. *)
Definition comes_after (a b : str * tally) : bool :=
  match a.2, b.2 with
  | Count x, Count y => x <? y
  | _, _ => false
  end.

Definition same_rank (a b : str * tally) : bool :=
  negb (comes_after a b) && negb (comes_after b a).

(** The comparator orders the entries consistently when all values are
    numbers, or when every two entries compare as equal; otherwise the
    order [sort] leaves is up to the host. *)
Definition consistent (es : props) : bool :=
  forallb (λ e, match e.2 with Count _ => true | Words => false end) es
  || forallb (λ a, forallb (same_rank a) es) es.

(** [sort((a, b) => b[1] - a[1])]: the host's sort is stable, and an element
    moves behind another only when the comparator is positive. *)
Fixpoint insert_by_count (x : str * tally) (l : props) : props :=
  match l with
  | [] => [x]
  | y :: l' => if comes_after x y then y :: insert_by_count x l' else x :: y :: l'
  end.

Definition sort_by_count (l : props) : props := foldr insert_by_count [] l.

(** The number an entry holds. *)
Definition count_of (e : str * tally) : nat :=
  match e.2 with Count n => n | Words => 0 end.

(** What a call does: nothing, [setMeSender(s)], or [setMeSender] of a name
    that depends on the host's sort. *)
Inductive call : Type :=
| NoCall
| SetMeSender (s : str)
| HostDefined.

(** [detectMeSender(messages)] *)
Definition detectMeSender (messages : list ChatMessage) : call :=
  match messages with
  | [] => NoCall
  | _ :: _ =>
      let counts :=
        fold_left (λ counts m, bump_prop counts (sender m)) (take 300 messages) [] in
      let es := entries counts in
      if consistent es then
        match sort_by_count es with
        | e :: _ => SetMeSender e.1
        | [] => NoCall
        end
      else HostDefined
  end.

End Detect.

Definition three_messages : list ChatMessage :=
  [ mkMsg (lit "1/2/23, 10:00") (lit "Al") (lit "a") None None false;
    mkMsg (lit "1/2/23, 10:01") (lit "Bo") (lit "b") None None false;
    mkMsg (lit "1/2/23, 10:02") (lit "Bo") (lit "c") None None false ].

(* ===================================================================== *)
(** * The date part of a bubble *)
(* ===================================================================== *)

Module Stamp.

Definition is_bracket (c : ascii) : bool := ch_eqb c "[" || ch_eqb c "]".

(** "/[\[\]]/g" *)
Definition BRACKET_REGEXP : regex := Chr is_bracket.

(** [timestamp.replace(BRACKET_REGEXP, '')] *)
Definition cleanTimestamp (timestamp : str) : str :=
  remove_all BRACKET_REGEXP timestamp.

(** [datePart] of MessageBubble.tsx: what is in front of the first comma of
    the clean timestamp, or all of it, trimmed. *)
Definition datePart (timestamp : str) : str :=
  let cleanTimestamp := cleanTimestamp timestamp in
  match index_from "," 0 cleanTimestamp with
  | Some commaIndex => trim (substring 0 commaIndex cleanTimestamp)
  | None => trim cleanTimestamp
  end.

End Stamp.

(** The characters a timestamp capture can hold. *)
Definition is_timestamp_char (c : ascii) : bool :=
  is_digit c || is_date_sep c || is_space c || one_of ",:AMPamp" c.

(** Every character a pattern can consume satisfies [P]. *)
Fixpoint within (P : ascii → bool) (r : regex) : bool :=
  match r with
  | Chr p | Rep p _ _ _ =>
      forallb (λ n, implb (p (ascii_of_nat n)) (P (ascii_of_nat n))) (seq 0 256)
  | Seq r1 r2 | Alt r1 r2 => within P r1 && within P r2
  | Grp _ r1 => within P r1
  | _ => true
  end.

(* ===================================================================== *)
(** * One slice, read off the lines that are left *)
(* ===================================================================== *)

(** Nothing is left of the text: the loop condition [currentPointer <
    totalLength] fails. *)
Definition at_end (ls : list str) : bool :=
  match ls with
  | [] | [[]] => true
  | _ => false
  end.

(** The budget after one more counted line; [None] when it is used up. *)
Definition spend (limit : budget) : option budget :=
  match limit with
  | Finite 0 => None
  | Finite (S n) => Some (Finite n)
  | Infinity => Some Infinity
  end.

(** What is left of a budget after [lines] counted lines. *)
Definition left_of (limit : budget) (lines : nat) : budget :=
  match limit with
  | Finite n => Finite (n - lines)
  | Infinity => Infinity
  end.

(** The loop of [parseWhatsAppStringChunk] over the lines from the pointer
    on: the pointer moves past each line and its line break, and every line
    that is not blank takes one unit of the budget. *)
Fixpoint slice_lines (assetMap : gmap (list ascii) (list ascii)) (ls : list str)
    (pos : nat) (limit : budget) (acc : list ref) (st : State)
    : nat * list ref * State :=
  match ls with
  | [] => (pos, acc, st)
  | l :: ls' =>
      if at_end ls then (pos, acc, st)
      else
        match spend limit with
        | None => (pos, acc, st)
        | Some limit' =>
            let pos' := S (length l + pos) in
            match trim l with
            | [] => slice_lines assetMap ls' pos' limit acc st
            | c :: line =>
                let '(st', out) := process_line assetMap (c :: line) st in
                slice_lines assetMap ls' pos' limit' (acc ++ out) st'
            end
        end
  end.

(** Two states of the refs hold the same controllers. *)
Definition same_controllers (a b : App.Refs) : Prop :=
  App.abortControllerRef b = App.abortControllerRef a
  ∧ App.controllers b = App.controllers a ∧ App.aborted b = App.aborted a.

(** An archive without a transcript: reading it throws. *)
Definition broken_file : App.Upload :=
  App.mkUpload (lit "wa-v2-photos.zip-4096") [] ∅
    (Some (lit "No chat logs found in archive.")).

(** What the page shows of the loading path: whether the file input is
    rendered, the store, [accumulatedRef.current], [state.messages] and the
    waiting tasks. *)
Definition shown (page : App.Page)
    : bool * State * list ref * list ref * list App.task :=
  (App.input_mounted page, App.store (App.refs page),
   App.accumulatedRef (App.refs page), App.messages page, App.pending page).

(** Where the first two slices of [first_file] end. *)
Definition first_slice_end : nat :=
  (slice_lines ∅ (lines_of (drop 0 (App.fileText first_file))) 0 (Finite 1000) []
     (mkState [] None)).1.1.

Definition second_slice_end : nat :=
  (slice_lines ∅ (lines_of (drop first_slice_end (App.fileText first_file)))
     first_slice_end (Finite (15 * 1000)) [] (mkState [] None)).1.1.

(** What the code guarantees instead, for a record and the header line it
    was built from: timestamp and sender are the trimmed first and second
    captures of the line; the timestamp is non-empty; the author capture is
    a non-empty string without colon, and the sender is empty exactly when
    that capture is made of white space. *)
Definition emitted_from (line : str) (m : ChatMessage) : Prop :=
  ∃ ts author body,
    head_match line = Some (ts, author, body)
    ∧ timestamp m = trim ts ∧ timestamp m ≠ []
    ∧ sender m = trim author
    ∧ author ≠ [] ∧ Forall (λ ch, not_colon ch = true) author
    ∧ (sender m = [] ↔ Forall (λ ch, is_space ch = true) author).

(** An entry that is a file whose name ends in ".txt". *)
Definition is_txt_entry (e : Archive.ZipEntry) : Prop :=
  Archive.dir e = false ∧ ∃ stem, Archive.name e = stem ++ lit ".txt".

(** An entry whose name has "chat" in it, in any casing. *)
Definition mentions_chat (e : Archive.ZipEntry) : Prop :=
  ∃ pre w post, Archive.name e = pre ++ w ++ post ∧ toLowerCase w = lit "chat".

(** An archive without "_chat.txt", and one without any text entry. *)
Definition named_archive : list Archive.ZipEntry :=
  [ Archive.mkEntry (lit "media/IMG-001.jpg") false [];
    Archive.mkEntry (lit "notes.txt") false (lit "n");
    Archive.mkEntry (lit "WhatsApp Chat with Al.txt") false (lit "w");
    Archive.mkEntry (lit "chat-old.txt") false (lit "o") ].

Definition photo_archive : list Archive.ZipEntry :=
  [ Archive.mkEntry (lit "IMG-001.jpg") false (lit "j");
    Archive.mkEntry (lit "old.txt") true [] ].

(* ===================================================================== *)
(** * Termination and progress of one slice *)
(* ===================================================================== *)

Section LoopFacts.

Variable assetMap : gmap (list ascii) (list ascii).
Variable content : str.

Lemma index_from_bounds c from (s : str) j :
  index_from c from s = Some j → from ≤ j < length s.
Proof.
  revert from j. induction s as [|x s IH]; intros from j; simpl; [done|].
  destruct from as [|f].
  - destruct (ch_eqb x c).
    + intros [= <-]. lia.
    + destruct (index_from c 0 s) as [j'|] eqn:E; simpl; [|done].
      intros [= <-]. apply IH in E. lia.
  - destruct (index_from c f s) as [j'|] eqn:E; simpl; [|done].
    intros [= <-]. apply IH in E. lia.
Qed.

(** The line break the loop finds lies between the pointer and the end. *)
Lemma next_break_bounds ptr :
  ptr < length content →
  ptr ≤ default (length content) (index_from newline ptr content) ≤ length content.
Proof.
  intros Hlt. destruct (index_from newline ptr content) as [j|] eqn:E; simpl.
  - apply index_from_bounds in E. lia.
  - lia.
Qed.

Lemma parse_loop_total fuel limit ptr lines acc st :
  length content - ptr ≤ fuel →
  ∃ next msgs st',
    parse_loop assetMap fuel content limit ptr lines acc st = Some (next, msgs, st')
    ∧ ptr ≤ next
    ∧ next ≤ Nat.max ptr (length content + 1)
    ∧ (ptr < length content → under lines limit = true → ptr < next).
Proof.
  revert ptr lines acc st.
  induction fuel as [|fuel IH]; intros ptr lines acc st Hfuel; simpl.
  - destruct (ptr <? length content) eqn:Hp; simpl.
    + apply Nat.ltb_lt in Hp. lia.
    + apply Nat.ltb_ge in Hp. eexists _, _, _. split; [done|]. repeat split; lia.
  - destruct (ptr <? length content) eqn:Hp; simpl.
    2:{ apply Nat.ltb_ge in Hp. eexists _, _, _. split; [done|]. repeat split; lia. }
    apply Nat.ltb_lt in Hp.
    destruct (under lines limit) eqn:Hu; simpl.
    2:{ eexists _, _, _. split; [done|]. repeat split; [lia..|]. intros; done. }
    pose proof (next_break_bounds ptr Hp) as Hb.
    set (nlb := default (length content) (index_from newline ptr content)) in *.
    destruct (trim (substring ptr nlb content)) as [|c line].
    + destruct (IH (nlb + 1) lines acc st) as (next & msgs & st' & Heq & Hle & Hmax & _); [lia|].
      eexists _, _, _. split; [exact Heq|]. repeat split; lia.
    + destruct (process_line assetMap (c :: line) st) as [st1 out].
      destruct (IH (nlb + 1) (S lines) (acc ++ out) st1)
        as (next & msgs & st' & Heq & Hle & Hmax & _); [lia|].
      eexists _, _, _. split; [exact Heq|]. repeat split; lia.
Qed.

(** More fuel does not change a result. *)
Lemma parse_loop_fuel_mono fuel fuel' limit ptr lines acc st r :
  fuel ≤ fuel' →
  parse_loop assetMap fuel content limit ptr lines acc st = Some r →
  parse_loop assetMap fuel' content limit ptr lines acc st = Some r.
Proof.
  revert fuel' ptr lines acc st.
  induction fuel as [|fuel IH]; intros fuel' ptr lines acc st Hle; simpl.
  - destruct ((ptr <? length content) && under lines limit) eqn:Hc; [done|].
    intros <-. destruct fuel'; simpl; by rewrite Hc.
  - destruct fuel' as [|fuel']; [lia|]. simpl.
    destruct ((ptr <? length content) && under lines limit) eqn:Hc; [|done].
    set (nlb := default (length content) (index_from newline ptr content)).
    destruct (trim (substring ptr nlb content)) as [|c line].
    + apply IH. lia.
    + destruct (process_line assetMap (c :: line) st) as [st1 out]. apply IH. lia.
Qed.

Lemma parse_loop_fuel_irrelevant fuel fuel' limit ptr lines acc st r r' :
  parse_loop assetMap fuel content limit ptr lines acc st = Some r →
  parse_loop assetMap fuel' content limit ptr lines acc st = Some r' →
  r = r'.
Proof.
  intros H1 H2.
  apply (parse_loop_fuel_mono _ (Nat.max fuel fuel')) in H1; [|lia].
  apply (parse_loop_fuel_mono _ (Nat.max fuel fuel')) in H2; [|lia].
  congruence.
Qed.

(** The array under construction is only ever extended. *)
Lemma parse_loop_acc fuel limit ptr lines acc st :
  parse_loop assetMap fuel content limit ptr lines acc st =
  (λ '(next, msgs, st'), (next, acc ++ msgs, st'))
    <$> parse_loop assetMap fuel content limit ptr lines [] st.
Proof.
  revert ptr lines acc st.
  induction fuel as [|fuel IH]; intros ptr lines acc st; simpl.
  - destruct ((ptr <? length content) && under lines limit); simpl; [done|].
    by rewrite app_nil_r.
  - destruct ((ptr <? length content) && under lines limit); simpl.
    2:{ by rewrite app_nil_r. }
    set (nlb := default (length content) (index_from newline ptr content)).
    destruct (trim (substring ptr nlb content)) as [|c line].
    + apply IH.
    + destruct (process_line assetMap (c :: line) st) as [st1 out].
      rewrite (IH _ _ (acc ++ out)), (IH _ _ ([] ++ out)). simpl.
      destruct (parse_loop assetMap fuel content limit (nlb + 1) (S lines) [] st1)
        as [[[n m] s]|]; simpl; [|done].
      by rewrite app_assoc.
Qed.

(** With an unbounded budget the line counter plays no role. *)
Lemma parse_loop_unbounded_lines fuel ptr lines lines' acc st :
  parse_loop assetMap fuel content Infinity ptr lines acc st =
  parse_loop assetMap fuel content Infinity ptr lines' acc st.
Proof.
  revert ptr lines lines' acc st.
  induction fuel as [|fuel IH]; intros ptr lines lines' acc st; simpl; [done|].
  destruct ((ptr <? length content) && true); [|done].
  set (nlb := default (length content) (index_from newline ptr content)).
  destruct (trim (substring ptr nlb content)) as [|c line].
  - apply IH.
  - destruct (process_line assetMap (c :: line) st) as [st1 out]. apply IH.
Qed.

(** A bounded run followed by an unbounded run from where it stopped is the
    unbounded run. *)
Lemma parse_loop_split fuel limit ptr lines acc st p1 m1 s1 fuel2 p2 m2 s2 fuel3 lines3 :
  parse_loop assetMap fuel content limit ptr lines acc st = Some (p1, m1, s1) →
  parse_loop assetMap fuel2 content Infinity p1 0 [] s1 = Some (p2, m2, s2) →
  length content - ptr ≤ fuel3 →
  parse_loop assetMap fuel3 content Infinity ptr lines3 acc st = Some (p2, m1 ++ m2, s2).
Proof.
  revert ptr lines acc st fuel3 lines3.
  induction fuel as [|fuel IH]; intros ptr lines acc st fuel3 lines3 H1 H2 Hfuel.
  - simpl in H1.
    destruct ((ptr <? length content) && under lines limit) eqn:Hc; [done|].
    injection H1 as <- <- <-.
    destruct (parse_loop_total fuel3 Infinity ptr lines3 acc st Hfuel)
      as (n & m & s & Heq & _).
    rewrite Heq. rewrite parse_loop_acc, (parse_loop_unbounded_lines _ _ _ 0) in Heq.
    destruct (parse_loop assetMap fuel3 content Infinity ptr 0 [] st)
      as [r|] eqn:E; [|done].
    rewrite <- (parse_loop_fuel_irrelevant _ _ _ _ _ _ _ _ _ H2 E) in Heq.
    simpl in Heq. by rewrite Heq.
  - simpl in H1.
    destruct ((ptr <? length content) && under lines limit) eqn:Hc.
    + apply andb_true_iff in Hc as [Hp Hu]. apply Nat.ltb_lt in Hp.
      destruct fuel3 as [|fuel3]; [lia|]. simpl.
      replace (ptr <? length content) with true by (symmetry; by apply Nat.ltb_lt).
      simpl.
      pose proof (next_break_bounds ptr Hp) as Hb.
      set (nlb := default (length content) (index_from newline ptr content)) in *.
      destruct (trim (substring ptr nlb content)) as [|c line].
      * eapply IH; [exact H1|exact H2|lia].
      * destruct (process_line assetMap (c :: line) st) as [st1 out].
        eapply IH; [exact H1|exact H2|lia].
    + injection H1 as <- <- <-.
      destruct (parse_loop_total fuel3 Infinity ptr lines3 acc st Hfuel)
        as (n' & m' & s' & Heq3 & _).
      rewrite Heq3. rewrite parse_loop_acc, (parse_loop_unbounded_lines _ _ _ 0) in Heq3.
      destruct (parse_loop assetMap fuel3 content Infinity ptr 0 [] st)
        as [r|] eqn:E; [|done].
      rewrite <- (parse_loop_fuel_irrelevant _ _ _ _ _ _ _ _ _ H2 E) in Heq3.
      simpl in Heq3. by rewrite Heq3.
Qed.

End LoopFacts.

(** Every call returns. *)
Lemma parse_total assetMap content offset limit st :
  ∃ r, parseWhatsAppStringChunk assetMap content offset limit st = Some r.
Proof.
  destruct (parse_loop_total assetMap content (length content) limit offset 0 [] st)
    as (n & m & s & Heq & _); [lia|].
  by exists (n, m, s).
Qed.

(* ===================================================================== *)
(** * Chunk invariance *)
(* ===================================================================== *)

(** C1.  However the text is cut into slices by line budgets, once the
    sequential calls (sharing the store, each starting at the previous
    [nextCharIndex]) have consumed the text, the concatenation of the arrays
    they returned, the store those references point into, the open record
    and the final [nextCharIndex] are those of a single call with an
    unbounded budget. *)
Theorem chunk_invariance assetMap content limits offset st last msgs st' :
  run_chunks assetMap content limits offset st = Some (last, msgs, st') →
  length content ≤ last →
  parseWhatsAppStringChunk assetMap content offset Infinity st = Some (last, msgs, st').
Proof.
  revert offset st last msgs st'.
  induction limits as [|limit limits IH]; intros offset st last msgs st' Hrun Hend.
  - simpl in Hrun. injection Hrun as <- <- <-.
    unfold parseWhatsAppStringChunk.
    destruct (length content) as [|n] eqn:Hlen; simpl.
    + rewrite Hlen. simpl. by destruct offset.
    + rewrite Hlen.
      replace (offset <? S n) with false by (symmetry; apply Nat.ltb_ge; lia).
      done.
  - simpl in Hrun.
    destruct (parseWhatsAppStringChunk assetMap content offset limit st)
      as [[[p1 m1] s1]|] eqn:H1; [|done].
    destruct (run_chunks assetMap content limits p1 s1)
      as [[[p2 m2] s2]|] eqn:H2; [|done].
    injection Hrun as <- <- <-.
    specialize (IH _ _ _ _ _ H2 Hend).
    unfold parseWhatsAppStringChunk in *.
    eapply parse_loop_split; [exact H1|exact IH|lia].
Qed.

Lemma chunk_invariance_witness :
  run_chunks ∅ demo_text [Finite 1; Finite 1; Finite 1] 0 (mkState [] None)
    = Some (80, [0; 1], demo_state)
  ∧ length demo_text ≤ 80
  ∧ parseWhatsAppStringChunk ∅ demo_text 0 Infinity (mkState [] None)
    = Some (80, [0; 1], demo_state).
Proof.
  assert (run_chunks ∅ demo_text [Finite 1; Finite 1; Finite 1] 0 (mkState [] None)
          = Some (80, [0; 1], demo_state)) as Hrun by (vm_compute; reflexivity).
  assert (length demo_text ≤ 80) as Hend by (vm_compute; lia).
  split; [exact Hrun|]. split; [exact Hend|].
  exact (chunk_invariance ∅ demo_text _ 0 _ _ _ _ Hrun Hend).
Defined.

(* ===================================================================== *)
(** * What a successful match says about the input *)
(* ===================================================================== *)

Module RegexFacts.

Import RegexSem.

Lemma rep_sound {R} p lo hi g i (s : str) (k : nat → str → option R) x :
  bounds_ok lo hi = true →
  rep p lo hi g i s k = Some x →
  ∃ w rest, s = w ++ rest ∧ Forall (λ ch, p ch = true) w ∧ lo ≤ length w
            ∧ k (i + length w) rest = Some x.
Proof.
  revert lo hi i.
  assert (∀ (s : str) i, k i s = Some x →
          ∃ w rest, s = w ++ rest ∧ Forall (λ ch, p ch = true) w ∧ 0 ≤ length w
                    ∧ k (i + length w) rest = Some x) as Hstop.
  { intros s0 i Hk. exists [], s0. simpl. rewrite Nat.add_0_r. by repeat split. }
  assert (∀ lo hi, bounds_ok lo hi = true → hi_zero hi = true → lo = 0) as Hzero.
  { intros lo [[|h]|] Hb Hz; try done. simpl in Hb. apply Nat.leb_le in Hb. lia. }
  assert (∀ lo hi, bounds_ok (S lo) hi = true → bounds_ok lo (hi_pred hi) = true) as Hpred.
  { intros lo [h|] Hb; [|done]. unfold bounds_ok, hi_pred in *.
    apply Nat.leb_le in Hb. apply Nat.leb_le. simpl. lia. }
  assert (∀ hi, bounds_ok 0 hi = true) as Hb0.
  { by intros [h|]. }
  induction s as [|ch s IH]; intros lo hi i Hb H.
  - simpl in H. destruct (hi_zero hi) eqn:Hz.
    + rewrite (Hzero _ _ Hb Hz). by apply Hstop.
    + destruct lo as [|lo]; [|done].
      apply Hstop. by destruct g, (k i []).
  - simpl in H. destruct (hi_zero hi) eqn:Hz.
    { rewrite (Hzero _ _ Hb Hz). by apply Hstop. }
    assert (∀ lo', bounds_ok lo' (hi_pred hi) = true →
            (if p ch then rep p lo' (hi_pred hi) g (S i) s k else None) = Some x →
            ∃ w rest, ch :: s = w ++ rest ∧ Forall (λ ch, p ch = true) w
                      ∧ S lo' ≤ length w ∧ k (i + length w) rest = Some x) as Hmore.
    { intros lo' Hb' Hm. destruct (p ch) eqn:Hp; [|done].
      destruct (IH _ _ _ Hb' Hm) as (w & rest & -> & Hall & Hlen & Hk).
      exists (ch :: w), rest. simpl. repeat split; [by constructor|lia|].
      by rewrite <- Nat.add_succ_comm. }
    destruct lo as [|lo].
    + destruct g.
      * destruct (if p ch then rep p 0 (hi_pred hi) true (S i) s k else None) eqn:Hm.
        -- injection H as ->.
           destruct (Hmore 0 (Hb0 _) Hm) as (w & rest & ? & ? & ? & ?).
           exists w, rest. repeat split; [done..|lia|done].
        -- by apply Hstop.
      * destruct (k i (ch :: s)) eqn:Hk.
        -- injection H as ->. by apply Hstop.
        -- destruct (Hmore 0 (Hb0 _) H) as (w & rest & ? & ? & ? & ?).
           exists w, rest. repeat split; [done..|lia|done].
    + apply Hmore; [|done]. by apply Hpred.
Qed.

(** Soundness of the matcher: a result comes from a word of the pattern
    followed by a successful continuation. *)
Lemma exec_sound {R} r : ∀ i (s : str) c (k : nat → str → caps → option R) x,
  wf r = true →
  exec r i s c k = Some x →
  ∃ w rest c', s = w ++ rest ∧ den r i w rest c c'
               ∧ k (i + length w) rest c' = Some x.
Proof.
  induction r as [|p|r1 IH1 r2 IH2|r1 IH1 r2 IH2|p lo hi g|g r1 IH1| |];
    intros i s c k x Hwf H; simpl in H.
  - exists [], s, c. simpl. by rewrite Nat.add_0_r.
  - destruct s as [|ch s]; [done|]. destruct (p ch) eqn:Hp; [|done].
    exists [ch], s, c. simpl. rewrite Nat.add_1_r. repeat split; [|done]. by exists ch.
  - simpl in Hwf. apply andb_true_iff in Hwf as [Hwf1 Hwf2].
    destruct (IH1 _ _ _ _ _ Hwf1 H) as (w1 & rest1 & c1 & -> & Hd1 & H2).
    destruct (IH2 _ _ _ _ _ Hwf2 H2) as (w2 & rest & c' & -> & Hd2 & Hk).
    exists (w1 ++ w2), rest, c'. rewrite <- app_assoc. split; [done|]. split.
    + simpl. by exists w1, w2, c1.
    + by rewrite length_app, Nat.add_assoc.
  - simpl in Hwf. apply andb_true_iff in Hwf as [Hwf1 Hwf2].
    unfold or_else in H. destruct (exec r1 i s c k) eqn:E1.
    + injection H as ->.
      destruct (IH1 _ _ _ _ _ Hwf1 E1) as (w & rest & c' & ? & ? & ?).
      exists w, rest, c'. simpl. by repeat split; [|left|].
    + destruct (IH2 _ _ _ _ _ Hwf2 H) as (w & rest & c' & ? & ? & ?).
      exists w, rest, c'. simpl. by repeat split; [|right|].
  - destruct (rep_sound _ _ _ _ _ _ _ _ Hwf H) as (w & rest & ? & ? & ? & ?).
    exists w, rest, c. simpl. by repeat split.
  - destruct (IH1 _ _ _ _ _ Hwf H) as (w & rest & c1 & -> & Hd & Hk).
    exists w, rest, (<[g := w]> c1). split; [done|]. split.
    + simpl. by exists c1.
    + replace (i + length w - i) with (length w) in Hk by lia.
      by rewrite take_app_length in Hk.
  - destruct i; [|done]. exists [], s, c. by simpl.
  - destruct s; [|done]. exists [], [], c. simpl. by rewrite Nat.add_0_r.
Qed.

Lemma search_sound r : ∀ i (s : str) b e m c,
  wf r = true →
  search r i s = Some (b, e, m, c) →
  ∃ rest, den r b m rest ∅ c.
Proof.
  intros i s. revert i. induction s as [|ch s IH]; intros i b e m c Hwf H;
    simpl in H; unfold match_at in H.
  - destruct (exec r i [] ∅ _) as [[e' c']|] eqn:E; [|done].
    injection H as <- <- <- <-.
    destruct (exec_sound _ _ _ _ _ _ Hwf E) as (w & rest & c1 & Hs & Hd & [= <- <-]).
    exists rest. replace (i + length w - i) with (length w) by lia.
    rewrite Hs. by rewrite take_app_length.
  - destruct (exec r i (ch :: s) ∅ _) as [[e' c']|] eqn:E.
    + injection H as <- <- <- <-.
      destruct (exec_sound _ _ _ _ _ _ Hwf E) as (w & rest & c1 & Hs & Hd & [= <- <-]).
      exists rest. replace (i + length w - i) with (length w) by lia.
      rewrite Hs. by rewrite take_app_length.
    + by eapply IH.
Qed.

End RegexFacts.

Section HeaderFacts.

Import RegexSem RegexFacts.

Lemma den_no_group r : ∀ i w rest c c',
  no_group r = true → den r i w rest c c' → c' = c.
Proof.
  induction r as [|p|r1 IH1 r2 IH2|r1 IH1 r2 IH2|p lo hi g|g r1 IH1| |];
    intros i w rest c c' Hn Hd; simpl in *; try done.
  - by destruct Hd.
  - by destruct Hd as (? & ? & ? & ?).
  - apply andb_true_iff in Hn as [Hn1 Hn2].
    destruct Hd as (w1 & w2 & c1 & _ & Hd1 & Hd2).
    apply IH1 in Hd1; [|done]. apply IH2 in Hd2; [|done]. congruence.
  - apply andb_true_iff in Hn as [Hn1 Hn2]. destruct Hd as [Hd|Hd]; eauto.
  - by destruct Hd as (? & ? & ?).
  - by destruct Hd as (? & ? & ?).
  - by destruct Hd as (? & ? & ?).
Qed.

(** A timestamp starts with a digit. *)
Lemma timestamp_starts_with_digit i w rest c c' :
  den TIMESTAMP i w rest c c' →
  ∃ d w', w = d :: w' ∧ is_digit d = true.
Proof.
  unfold TIMESTAMP. cbn [seqs foldr den digits].
  intros (w1 & w2 & c1 & -> & (Hall & Hlen & _) & _).
  destruct w1 as [|d w1]; [simpl in Hlen; lia|].
  exists d, (w1 ++ w2). split; [done|]. by inversion Hall.
Qed.

Lemma head_match_sound line ts author body :
  head_match line = Some (ts, author, body) →
  (∃ d ts', ts = d :: ts' ∧ is_digit d = true)
  ∧ author ≠ [] ∧ Forall (λ ch, not_colon ch = true) author.
Proof.
  unfold head_match.
  destruct (search MESSAGE_REGEXP 0 line) as [[[[b e] m] c]|] eqn:Hs; [|done].
  intros [= <- <- <-].
  apply search_sound in Hs as [rest Hd]; [|done].
  unfold MESSAGE_REGEXP in Hd. cbn [seqs foldr] in Hd.
  remember TIMESTAMP as T eqn:HT.
  cbn [den] in Hd.
  destruct Hd as (w0 & ? & c0 & _ & _ & Hd).
  destruct Hd as (wo & ? & c1 & _ & _ & Hd).
  destruct Hd as (wt & ? & c2 & _ & (cT & HdT & ->) & Hd).
  destruct Hd as (wc & ? & c3 & _ & Hc3 & Hd).
  apply den_no_group in Hc3 as ->; [|done].
  destruct Hd as (ws & ? & c4 & _ & (_ & _ & ->) & Hd).
  destruct Hd as (wa & ? & c5 & _ & (ca & (Hall & Hlen & ->) & ->) & Hd).
  destruct Hd as (? & ? & c6 & _ & Hc6 & Hd).
  apply den_no_group in Hc6 as ->; [|done].
  destruct Hd as (? & ? & c7 & _ & (? & _ & _ & ->) & Hd).
  destruct Hd as (wb & ? & c8 & _ & (cb & (_ & _ & ->) & ->) & Hd).
  destruct Hd as (? & ? & c9 & _ & (_ & _ & ->) & (_ & ->)).
  rewrite lookup_insert_ne, lookup_insert_ne, lookup_insert_eq by done.
  rewrite lookup_insert_ne, lookup_insert_eq by done. simpl.
  subst T. split.
  - by eapply timestamp_starts_with_digit.
  - split; [|done]. destruct wa; [simpl in Hlen; lia|done].
Qed.

(** Trimming keeps a string that starts with a character outside the
    white-space set non-empty. *)
Lemma trim_start_snoc_nonempty (l : str) d :
  is_space d = false → trim_start (l ++ [d]) ≠ [].
Proof.
  intros Hd. induction l as [|x l IH]; simpl.
  - by rewrite Hd.
  - by destruct (is_space x).
Qed.

Lemma trim_nonempty d (s : str) :
  is_space d = false → trim (d :: s) ≠ [].
Proof.
  intros Hd. unfold trim, trim_end. simpl. rewrite Hd.
  intros H. apply (f_equal (@rev ascii)) in H. rewrite rev_involutive in H.
  simpl in H.
  destruct (rev s) as [|y l] eqn:E.
  - simpl in H. by rewrite Hd in H.
  - simpl in H. destruct (is_space y).
    + by apply (trim_start_snoc_nonempty l d) in H.
    + by destruct l.
Qed.

Lemma digit_not_space d : is_digit d = true → is_space d = false.
Proof. by destruct d as [[] [] [] [] [] [] [] []]. Qed.

End HeaderFacts.

(* ===================================================================== *)
(** * What a call does to the store *)
(* ===================================================================== *)

Section StoreFacts.

Variable assetMap : gmap (list ascii) (list ascii).

Lemma process_line_preserves P line st st' out r m :
  stable assetMap P →
  process_line assetMap line st = (st', out) →
  heap st !! r = Some m → P m →
  ∃ m', heap st' !! r = Some m' ∧ P m'.
Proof.
  intros HP Hpl Hr Hm. unfold process_line in Hpl.
  destruct (head_match line) as [[[ts author] body]|].
  - injection Hpl as <- <-. simpl. exists m. split; [|done].
    rewrite lookup_app_l; [done|]. by eapply lookup_lt_Some.
  - destruct (current st) as [r0|].
    + injection Hpl as <- <-. simpl.
      destruct (decide (r0 = r)) as [->|Hne].
      * rewrite list_lookup_alter_eq, Hr. simpl. eexists. split; [done|]. by apply HP.
      * rewrite list_lookup_alter_ne by done. by exists m.
    + injection Hpl as <- <-. by exists m.
Qed.

(** A header line pushes exactly one reference, to the record built from
    the three captures; any other line pushes nothing. *)
Lemma process_line_emitted line st st' out r :
  process_line assetMap line st = (st', out) → r ∈ out →
  ∃ ts author body,
    head_match line = Some (ts, author, body)
    ∧ heap st' !! r = Some (header_message assetMap (file_name line) ts author body).
Proof.
  intros Hpl Hin. unfold process_line in Hpl.
  destruct (head_match line) as [[[ts author] body]|].
  - injection Hpl as <- <-. apply list_elem_of_singleton in Hin as ->.
    exists ts, author, body. split; [done|]. simpl.
    by rewrite lookup_app_r, Nat.sub_diag.
  - destruct (current st); injection Hpl as <- <-; by apply elem_of_nil in Hin.
Qed.

Lemma parse_loop_preserves P fuel content limit ptr lines acc st next msgs st' r m :
  stable assetMap P →
  parse_loop assetMap fuel content limit ptr lines acc st = Some (next, msgs, st') →
  heap st !! r = Some m → P m →
  ∃ m', heap st' !! r = Some m' ∧ P m'.
Proof.
  intros HP. revert ptr lines acc st m.
  induction fuel as [|fuel IH]; intros ptr lines acc st m H Hr Hm; simpl in H.
  - destruct ((ptr <? length content) && under lines limit); [done|].
    injection H as <- <- <-. by exists m.
  - destruct ((ptr <? length content) && under lines limit).
    2:{ injection H as <- <- <-. by exists m. }
    set (nlb := default (length content) (index_from newline ptr content)) in *.
    destruct (trim (substring ptr nlb content)) as [|c line].
    + by eapply IH.
    + destruct (process_line assetMap (c :: line) st) as [st1 out] eqn:Hpl.
      destruct (process_line_preserves P _ _ _ _ _ _ HP Hpl Hr Hm) as (m1 & Hr1 & Hm1).
      by eapply IH.
Qed.

(** Every reference in the returned array points to a record that was built
    from a header line and then only touched by continuation lines. *)
Lemma parse_loop_emitted P fuel content limit ptr lines acc st next msgs st' :
  stable assetMap P →
  (∀ line ts author body,
     head_match line = Some (ts, author, body) →
     P (header_message assetMap (file_name line) ts author body)) →
  parse_loop assetMap fuel content limit ptr lines acc st = Some (next, msgs, st') →
  (∀ r, r ∈ acc → ∃ m, heap st !! r = Some m ∧ P m) →
  ∀ r, r ∈ msgs → ∃ m, heap st' !! r = Some m ∧ P m.
Proof.
  intros HP Hhead. revert ptr lines acc st.
  induction fuel as [|fuel IH]; intros ptr lines acc st H Hacc; simpl in H.
  - destruct ((ptr <? length content) && under lines limit); [done|].
    by injection H as <- <- <-.
  - destruct ((ptr <? length content) && under lines limit).
    2:{ by injection H as <- <- <-. }
    set (nlb := default (length content) (index_from newline ptr content)) in *.
    destruct (trim (substring ptr nlb content)) as [|c line].
    + by eapply IH.
    + destruct (process_line assetMap (c :: line) st) as [st1 out] eqn:Hpl.
      eapply IH; [exact H|].
      intros r [Hin|Hin]%elem_of_app.
      * destruct (Hacc r Hin) as (m & Hr & Hm).
        by eapply process_line_preserves.
      * destruct (process_line_emitted _ _ _ _ _ Hpl Hin) as (ts & au & bo & Hh & Hr).
        eexists. split; [exact Hr|]. by apply Hhead.
Qed.

End StoreFacts.

(* ===================================================================== *)
(** * Sender and timestamp of emitted records *)
(* ===================================================================== *)

Lemma trim_start_nil_iff (s : str) :
  trim_start s = [] ↔ Forall (λ ch, is_space ch = true) s.
Proof.
  induction s as [|x s IH]; simpl.
  - split; [constructor|done].
  - destruct (is_space x) eqn:Hx.
    + rewrite IH. split; [by constructor|by inversion 1].
    + split; [done|]. inversion 1; congruence.
Qed.

Lemma trim_start_head (s : str) x t :
  trim_start s = x :: t → is_space x = false.
Proof.
  induction s as [|y s IH]; simpl; [done|].
  destruct (is_space y) eqn:Hy; [done|]. by intros [= <- <-].
Qed.

(** [trim] empties exactly the strings made of white space. *)
Lemma trim_nil_iff (s : str) :
  trim s = [] ↔ Forall (λ ch, is_space ch = true) s.
Proof.
  split.
  - intros H. apply trim_start_nil_iff.
    destruct (trim_start s) as [|x t] eqn:E; [done|].
    apply trim_start_head in E as Hx.
    unfold trim in H. rewrite E in H. unfold trim_end in H.
    apply (f_equal (@rev ascii)) in H. rewrite rev_involutive in H. simpl in H.
    apply trim_start_nil_iff in H.
    apply Forall_app in H as [_ H]. inversion H; congruence.
  - intros H. apply trim_start_nil_iff in H. unfold trim. by rewrite H.
Qed.

(** C2, counterexample.  A header whose author field is a single blank is
    accepted by [MESSAGE_REGEXP]; the record emitted for it has the empty
    string as sender. *)
Lemma blank_author_gives_empty_sender :
  let m := mkMsg (lit "1/2/23 1:00") [] (lit "x") None None false in
  parseWhatsAppStringChunk ∅ blank_author_line 0 Infinity (mkState [] None)
    = Some (17, [0], mkState [m] (Some 0))
  ∧ ¬ sender_and_timestamp_nonempty m.
Proof.
  split; [vm_compute; reflexivity|]. by intros [H _].
Qed.

(* ===================================================================== *)
(** * The attachment of the open record *)
(* ===================================================================== *)

(** C3, counterexample.  After the header line the record holds the locator
    of [a.jpg]; the continuation line naming [b.jpg] replaces it. *)
Lemma later_attachment_replaces_mediaUrl :
  let m url := mkMsg (lit "1/2/23, 10:00") (lit "Al") [] None (Some (lit url)) false in
  parseWhatsAppStringChunk two_assets two_attachments 0 (Finite 1) (mkState [] None)
    = Some (42, [0], mkState [m "blob:1"%string] (Some 0))
  ∧ parseWhatsAppStringChunk two_assets two_attachments 42 (Finite 1)
      (mkState [m "blob:1"%string] (Some 0))
    = Some (64, [], mkState [m "blob:2"%string] (Some 0)).
Proof. split; vm_compute; reflexivity. Qed.

Lemma continue_message_mediaUrl assetMap f line m :
  mediaUrl (continue_message assetMap f line m) =
  match f with
  | Some name => if truthy (resolve assetMap name) then resolve assetMap name
                 else mediaUrl m
  | None => mediaUrl m
  end.
Proof.
  unfold continue_message. destruct f as [name|]; [|done].
  by destruct (truthy (resolve assetMap name)), (clean name line).
Qed.

(* ===================================================================== *)
(** * The view-once flag *)
(* ===================================================================== *)

Lemma starts_with_spec (p s : str) :
  starts_with p s = true ↔ ∃ post, s = p ++ post.
Proof.
  revert s. induction p as [|x p IH]; intros s; simpl.
  - split; [by exists s|done].
  - destruct s as [|y s]; [split; [done|by intros [? ?]]|].
    unfold ch_eqb. rewrite andb_true_iff, Ascii.eqb_eq, IH. split.
    + intros [-> [post ->]]. by exists post.
    + intros [post [= -> ->]]. split; [done|by exists post].
Qed.

(** [includes] is the substring test. *)
Lemma includes_spec (p s : str) :
  includes p s = true ↔ ∃ pre post, s = pre ++ p ++ post.
Proof.
  induction s as [|y s IH].
  - simpl. rewrite orb_false_r, starts_with_spec. split.
    + intros [post ->]. by exists [], post.
    + intros (pre & post & H). destruct pre; [by exists post|done].
  - cbn [includes]. rewrite orb_true_iff, starts_with_spec, IH. split.
    + intros [[post ->]|(pre & post & ->)]; [by exists [], post|by exists (y :: pre), post].
    + intros (pre & post & H). destruct pre as [|z pre].
      * left. by exists post.
      * right. injection H as -> ->. by exists pre, post.
Qed.

(** A case-insensitive occurrence: some substring lower-cases to the needle. *)
Lemma includes_lower_spec (p s : str) :
  includes p (toLowerCase s) = true ↔
  ∃ pre w post, s = pre ++ w ++ post ∧ toLowerCase w = p.
Proof.
  rewrite includes_spec. unfold toLowerCase. split.
  - intros (pre' & post' & H).
    apply map_eq_app in H as (pre & rest & -> & _ & H).
    apply map_eq_app in H as (w & post & -> & Hw & _).
    by exists pre, w, post.
  - intros (pre & w & post & -> & <-).
    exists (map lower pre), (map lower post). by rewrite !map_app.
Qed.

(** C8.  On a header line the emitted record's flag is true exactly when
    the raw capture of the body has a substring that lower-cases to
    "view once", whatever trimming and stripping do to the stored text; and
    no later call changes the flag of that record. *)
Theorem view_once_flag assetMap line st ts author body :
  head_match line = Some (ts, author, body) →
  ∃ m, process_line assetMap line st
         = (mkState (heap st ++ [m]) (Some (length (heap st))), [length (heap st)])
       ∧ isViewOnce m = includes (lit "view once") (toLowerCase body)
       ∧ (isViewOnce m = true ↔
          ∃ pre w post, body = pre ++ w ++ post ∧ toLowerCase w = lit "view once")
       ∧ ∀ content offset limit next msgs st',
           parseWhatsAppStringChunk assetMap content offset limit
             (mkState (heap st ++ [m]) (Some (length (heap st))))
             = Some (next, msgs, st') →
           ∃ m', heap st' !! length (heap st) = Some m'
                 ∧ isViewOnce m' = isViewOnce m.
Proof.
  intros Hh. unfold process_line. rewrite Hh.
  eexists. split; [reflexivity|].
  assert (isViewOnce (header_message assetMap (file_name line) ts author body)
          = includes (lit "view once") (toLowerCase body)) as Hflag.
  { unfold header_message. by destruct (file_name line). }
  split; [exact Hflag|]. split.
  - rewrite Hflag. apply includes_lower_spec.
  - intros content offset limit next msgs st' Hparse.
    set (m := header_message assetMap (file_name line) ts author body) in *.
    eapply (parse_loop_preserves assetMap (λ x, isViewOnce x = isViewOnce m));
      [|exact Hparse| |reflexivity].
    + intros f l x Hx. unfold continue_message.
      destruct f as [name|]; [|done].
      by destruct (truthy (resolve assetMap name)), (clean name l).
    + simpl. by rewrite lookup_app_r, Nat.sub_diag.
Qed.

Lemma view_once_flag_witness :
  head_match view_once_line
    = Some (lit "1/2/23, 10:00:00 AM", lit "Al", lit "<View Once> [photo] a.jpg")
  ∧ ∃ m, process_line two_assets view_once_line (mkState [] None)
           = (mkState [m] (Some 0), [0])
         ∧ isViewOnce m = true
         ∧ text m = lit "<View Once>".
Proof.
  assert (head_match view_once_line
          = Some (lit "1/2/23, 10:00:00 AM", lit "Al", lit "<View Once> [photo] a.jpg"))
    as Hh by (vm_compute; reflexivity).
  split; [exact Hh|].
  destruct (view_once_flag two_assets view_once_line (mkState [] None) _ _ _ Hh)
    as (m & Hpl & Hflag & _ & _).
  exists m. split; [exact Hpl|]. split.
  - rewrite Hflag. vm_compute; reflexivity.
  - vm_compute in Hpl. by injection Hpl as <-.
Defined.

(* ===================================================================== *)
(** * Continuation lines naming a file that is not in the table *)
(* ===================================================================== *)

Lemma remove_first_unfold (p s : str) :
  remove_first p s =
  if starts_with p s then drop (length p) s
  else match s with
       | [] => []
       | c :: s' => c :: remove_first p s'
       end.
Proof. by destruct s. Qed.

(** [remove_first] deletes the leftmost occurrence of the pattern. *)
Lemma remove_first_occurrence (p pre post : str) :
  (∀ k, k < length pre → starts_with p (drop k (pre ++ p ++ post)) = false) →
  remove_first p (pre ++ p ++ post) = pre ++ post.
Proof.
  assert (∀ q : str, starts_with p (p ++ q) = true) as Hpre.
  { intros q. induction p as [|x p IH]; simpl; [done|].
    unfold ch_eqb. by rewrite Ascii.eqb_refl. }
  induction pre as [|x pre IH]; intros Hno.
  - simpl. rewrite remove_first_unfold, Hpre. by rewrite drop_app_length.
  - rewrite remove_first_unfold.
    pose proof (Hno 0) as H0. simpl in H0. simpl. rewrite H0 by lia.
    f_equal. apply IH.
    intros k Hk. apply (Hno (S k)). simpl. lia.
Qed.




(* ===================================================================== *)
(** * The date interpreter *)
(* ===================================================================== *)

Section DateFacts.

Import DateFormat.
Local Open Scope Z_scope.

(** C5.  For numeric tokens [a] and [b]: when [a > 12], [a] is the day and
    [b] the month; otherwise, when [b > 12], [b] is the day and [a] the
    month; otherwise [a] is the day and [b] the month (month indices count
    from 0).  So (13, 5) gives day 13 and index 4, (5, 13) gives day 13 and
    index 4, (5, 6) gives day 5 and index 5, and the formatted dates name May,
    May and June. *)
Theorem date_precedence (a b : Z) :
  resolve_day_month (Num a) (Num b) =
    (if 12 <? a then (Num a, Num (b - 1))
     else if 12 <? b then (Num b, Num (a - 1))
     else (Num a, Num (b - 1)))
  ∧ resolve_day_month (Num 13) (Num 5) = (Num 13, Num 4)
  ∧ resolve_day_month (Num 5) (Num 13) = (Num 13, Num 4)
  ∧ resolve_day_month (Num 5) (Num 6) = (Num 5, Num 5)
  ∧ formatFullDate 2026 (lit "13/5/23") = lit "13 May 2023"
  ∧ formatFullDate 2026 (lit "5/13/23") = lit "13 May 2023"
  ∧ formatFullDate 2026 (lit "5/6/23") = lit "5 June 2023".
Proof.
  split.
  - unfold resolve_day_month. simpl. by destruct (12 <? a), (12 <? b).
  - repeat split; vm_compute; reflexivity.
Qed.

(** The fallback of the month name is always the second token. *)
Lemma month_fallback_is_second_token thisYear c (s : str) p0 p1 rest day monthIdx :
  map trim (split_date [] (c :: s)) = p0 :: p1 :: rest →
  resolve_day_month (parseInt p0) (parseInt p1) = (day, monthIdx) →
  month_at monthIdx = None →
  ∃ year, formatFullDate thisYear (c :: s)
          = to_str day ++ lit " " ++ p1 ++ lit " " ++ to_str year.
Proof.
  intros Hparts Hres Hm. unfold formatFullDate. rewrite Hparts.
  cbn [length Nat.ltb Nat.leb lookup list_lookup default].
  simpl. rewrite Hres, Hm. simpl. by eexists.
Qed.

(** C6, the code at the failing input.  With tokens (0, 13) the month is
    taken from the first token, its index -1 names no month, and the output
    repeats the second token, which was resolved as the day: the month
    token "0" is not echoed.  Where the month comes from the second token the
    fallback does echo it verbatim. *)
Theorem swapped_month_fallback_echoes_day_token :
  resolve_day_month (parseInt (lit "0")) (parseInt (lit "13")) = (Num 13, Num (-1))
  ∧ month_at (Num (-1)) = None
  ∧ formatFullDate 2026 (lit "0/13/23") = lit "13 13 2023"
  ∧ formatFullDate 2026 (lit "13/00/23") = lit "13 00 2023".
Proof. repeat split; vm_compute; reflexivity. Qed.

End DateFacts.

(* ===================================================================== *)
(** * The choice of the transcript entry *)
(* ===================================================================== *)

Section ArchiveFacts.

Import Archive.

Lemma str_eqb_eq (a b : str) : str_eqb a b = true ↔ a = b.
Proof.
  revert b. induction a as [|x a IH]; intros [|y b]; simpl; try done.
  unfold ch_eqb. rewrite andb_true_iff, Ascii.eqb_eq, IH.
  split; [by intros [-> ->]|by intros [= -> ->]].
Qed.

(** Names are the keys of [zip.files]: looking one up finds its entry. *)
Lemma find_by_name (entries : list ZipEntry) e :
  NoDup (map name entries) → e ∈ entries →
  List.find (λ f, str_eqb (name f) (name e)) entries = Some e.
Proof.
  induction entries as [|x entries IH]; intros Hnd Hin; [by apply elem_of_nil in Hin|].
  simpl in *. apply NoDup_cons in Hnd as [Hx Hnd].
  apply elem_of_cons in Hin as [->|Hin].
  - by rewrite (proj2 (str_eqb_eq _ _) eq_refl).
  - destruct (str_eqb (name x) (name e)) eqn:E.
    + apply str_eqb_eq in E. exfalso. apply Hx. rewrite E.
      by apply list_elem_of_fmap_2.
    + by apply IH.
Qed.

Lemma zip_file_absent (entries : list ZipEntry) n :
  (∀ e, e ∈ entries → name e = n → dir e = true) →
  zip_file entries n = None.
Proof.
  intros Hdir. unfold zip_file.
  destruct (List.find _ entries) as [f|] eqn:E; [|done].
  apply find_some in E as [Hin Hn]. apply str_eqb_eq in Hn.
  by rewrite (Hdir f (proj2 (list_elem_of_In _ _) Hin) Hn).
Qed.

Lemma find_first (l pre post : list ZipEntry) e :
  l = pre ++ e :: post → has_chat e = true →
  Forall (λ x, has_chat x = false) pre →
  List.find has_chat l = Some e.
Proof.
  intros -> He Hpre. induction Hpre as [|x pre Hx _ IH]; simpl.
  - by rewrite He.
  - by rewrite Hx.
Qed.

Lemma find_none_all (l : list ZipEntry) :
  Forall (λ x, has_chat x = false) l → List.find has_chat l = None.
Proof.
  induction 1 as [|x l Hx _ IH]; simpl; [done|]. by rewrite Hx.
Qed.

Lemma insert_by_length_head x (l : list ZipEntry) :
  ∃ y rest, insert_by_length x l = y :: rest
            ∧ (y = x ∨ head l = Some y)
            ∧ length (name x) ≤ length (name y)
            ∧ (∀ z, head l = Some z → length (name z) ≤ length (name y)).
Proof.
  destruct l as [|z l]; simpl.
  - exists x, []. repeat split; [by left|lia|done].
  - destruct (length (name x) <? length (name z)) eqn:E.
    + apply Nat.ltb_lt in E. eexists _, _. repeat split; [by right|lia|].
      by intros ? [= <-].
    + apply Nat.ltb_ge in E. eexists _, _. repeat split; [by left|lia|].
      by intros ? [= <-].
Qed.

(** The head of the sorted array has a name of maximal length. *)
Lemma sort_by_length_head (l : list ZipEntry) :
  l ≠ [] →
  ∃ e, head (sort_by_length l) = Some e ∧ e ∈ l
       ∧ ∀ x, x ∈ l → length (name x) ≤ length (name e).
Proof.
  induction l as [|x l IH]; [done|]. intros _. simpl.
  destruct (insert_by_length_head x (sort_by_length l)) as (y & rest & -> & Hy & Hxy & Hmax).
  exists y. simpl. split; [done|].
  destruct l as [|x' l].
  - simpl in Hy. destruct Hy as [->|?]; [|done].
    split; [by left|]. by intros ? ->%list_elem_of_singleton.
  - destruct IH as (e & He & Hin & Hle); [done|].
    specialize (Hmax e He). split.
    + destruct Hy as [->|Hy]; [by left|]. right. congruence.
    + intros z [->|Hz]%elem_of_cons; [done|]. specialize (Hle z Hz). lia.
Qed.

Lemma text_entry_iff (entries : list ZipEntry) e :
  e ∈ textEntries entries ↔
  e ∈ entries ∧ ends_with (lit ".txt") (name e) = true ∧ dir e = false.
Proof.
  unfold textEntries. rewrite list_elem_of_In, filter_In, <- list_elem_of_In.
  rewrite andb_true_iff, negb_true_iff. tauto.
Qed.

End ArchiveFacts.

(* ===================================================================== *)
(** * The shape of what a call returns *)
(* ===================================================================== *)

Section ShapeFacts.

Variable assetMap : gmap (list ascii) (list ascii).

Lemma index_from_lookup c from (s : str) j :
  index_from c from s = Some j → s !! j = Some c.
Proof.
  revert from j. induction s as [|x s IH]; intros from j; simpl; [done|].
  destruct from as [|f].
  - destruct (ch_eqb x c) eqn:E.
    + intros [= <-]. simpl. f_equal. by apply Ascii.eqb_eq.
    + destruct (index_from c 0 s) as [j'|] eqn:E'; simpl; [|done].
      intros [= <-]. simpl. by eapply IH.
  - destruct (index_from c f s) as [j'|] eqn:E'; simpl; [|done].
    intros [= <-]. simpl. by eapply IH.
Qed.

(** One line either pushes nothing and can only touch the open record, or
    allocates one record at the end of the store and opens it. *)
Lemma process_line_shape line st st' out :
  process_line assetMap line st = (st', out) →
  (out = [] ∧ length (heap st') = length (heap st) ∧ current st' = current st
   ∧ ∀ r, current st ≠ Some r → heap st' !! r = heap st !! r)
  ∨ (out = [length (heap st)] ∧ current st' = Some (length (heap st))
     ∧ ∃ m, heap st' = heap st ++ [m]).
Proof.
  unfold process_line. destruct (head_match line) as [[[ts au] bo]|].
  - intros [= <- <-]. right. simpl. split; [done|]. split; [done|]. by eexists.
  - destruct (current st) as [r0|] eqn:Hc.
    + intros [= <- <-]. left. simpl. rewrite length_alter.
      repeat split; try done. intros r Hne.
      apply list_lookup_alter_ne. congruence.
    + intros [= <- <-]. left. by rewrite Hc.
Qed.

Lemma last_app_cons {A} (l1 l2 : list A) :
  last (l1 ++ l2) = match last l2 with Some x => Some x | None => last l1 end.
Proof.
  destruct l2 as [|x l2 _] using rev_ind.
  - by rewrite app_nil_r.
  - by rewrite app_assoc, !last_snoc.
Qed.

Lemma parse_loop_shape fuel content limit ptr lines acc st next msgs st' :
  parse_loop assetMap fuel content limit ptr lines acc st = Some (next, msgs, st') →
  ∃ new,
    msgs = acc ++ new
    ∧ new = seq (length (heap st)) (length new)
    ∧ length (heap st') = length (heap st) + length new
    ∧ current st' = match last new with Some r => Some r | None => current st end
    ∧ (∀ n, limit = Finite n → lines ≤ n → lines + length new ≤ n)
    ∧ (∀ r, r < length (heap st) → current st ≠ Some r →
            heap st' !! r = heap st !! r)
    ∧ (next = ptr ∨ next = length content + 1
       ∨ (0 < next ≤ length content ∧ content !! (next - 1) = Some newline)).
Proof.
  revert ptr lines acc st.
  induction fuel as [|fuel IH]; intros ptr lines acc st H; simpl in H.
  - destruct ((ptr <? length content) && under lines limit); [done|].
    injection H as <- <- <-. exists []. rewrite app_nil_r. simpl.
    repeat split; try done; try lia; by left.
  - destruct ((ptr <? length content) && under lines limit) eqn:Hc.
    2:{ injection H as <- <- <-. exists []. rewrite app_nil_r. simpl.
        repeat split; try done; try lia; by left. }
    apply andb_true_iff in Hc as [Hp Hu]. apply Nat.ltb_lt in Hp.
    assert (∀ next0, (next0 = default (length content) (index_from newline ptr content) + 1
              ∨ next0 = length content + 1
              ∨ (0 < next0 ≤ length content ∧ content !! (next0 - 1) = Some newline)) →
            next0 = ptr ∨ next0 = length content + 1
              ∨ (0 < next0 ≤ length content ∧ content !! (next0 - 1) = Some newline))
      as Hnext.
    { intros next0 [->|H0]; [|by right].
      destruct (index_from newline ptr content) as [j|] eqn:E; simpl; [|by right; left].
      right. right. apply index_from_bounds in E as Hb.
      apply index_from_lookup in E. replace (j + 1 - 1) with j by lia.
      split; [lia|done]. }
    set (nlb := default (length content) (index_from newline ptr content)) in *.
    destruct (trim (substring ptr nlb content)) as [|c line].
    + destruct (IH _ _ _ _ H) as (new & -> & Hseq & Hlen & Hcur & Hbud & Hfr & Hnx).
      exists new. repeat split; try done. by apply Hnext.
    + destruct (process_line assetMap (c :: line) st) as [st1 out] eqn:Hpl.
      destruct (IH _ _ _ _ H) as (new & -> & Hseq & Hlen & Hcur & Hbud & Hfr & Hnx).
      assert (∀ n, limit = Finite n → lines < n) as Hlt.
      { intros n ->. simpl in Hu. by apply Nat.ltb_lt in Hu. }
      apply process_line_shape in Hpl
        as [(-> & Hl1 & Hc1 & Hf1)|(-> & Hc1 & m & Hh1)].
      * exists new. rewrite app_nil_r. rewrite Hl1 in *. rewrite Hc1 in *.
        split; [done|]. split; [done|]. split; [done|]. split; [done|].
        split; [|split; [|by apply Hnext]].
        -- intros n Hn Hle. specialize (Hbud n Hn). specialize (Hlt n Hn). lia.
        -- intros r Hr Hne. rewrite Hfr; [by apply Hf1|done|done].
      * exists (length (heap st) :: new). rewrite <- app_assoc.
        rewrite Hh1, length_app in *. simpl in *.
        split; [done|]. split.
        { f_equal. by rewrite Nat.add_1_r in Hseq. }
        split; [lia|]. split.
        { rewrite Hcur, Hc1.
          change (length (heap st) :: new) with ([length (heap st)] ++ new).
          rewrite last_app_cons. by destruct (last new). }
        split; [|split; [|by apply Hnext]].
        -- intros n Hn Hle. specialize (Hbud n Hn). specialize (Hlt n Hn). lia.
        -- intros r Hr Hne. rewrite Hfr; [|lia|].
           ++ by rewrite lookup_app_l.
           ++ rewrite Hc1. intros [= <-]. lia.
Qed.

End ShapeFacts.

(* ===================================================================== *)
(** * The loop as a pass over the lines *)
(* ===================================================================== *)

Section LineFacts.

Variable assetMap : gmap (list ascii) (list ascii).

Lemma index_from_drop c ptr (s : str) :
  ptr ≤ length s →
  index_from c ptr s = (λ j, ptr + j) <$> index_from c 0 (drop ptr s).
Proof.
  revert ptr. induction s as [|x s IH]; intros ptr Hle.
  - simpl in Hle. by replace ptr with 0 by lia.
  - destruct ptr as [|p].
    + rewrite drop_0. by destruct (index_from c 0 (x :: s)).
    + simpl in Hle. cbn [index_from drop]. rewrite IH by lia.
      by destruct (index_from c 0 (drop p s)).
Qed.

Lemma lines_of_first (s : str) :
  match index_from newline 0 s with
  | Some k => lines_of s = take k s :: lines_of (drop (S k) s)
  | None => lines_of s = [s]
  end.
Proof.
  induction s as [|x s IH]; [done|]. cbn [index_from lines_of].
  destruct (ch_eqb x newline) eqn:E; [by simpl|].
  destruct (index_from newline 0 s) as [k|]; simpl.
  - by rewrite IH.
  - by rewrite IH.
Qed.

Lemma run_lines_app ls1 ls2 st :
  run_lines assetMap (ls1 ++ ls2) st =
  let '(st1, out1) := run_lines assetMap ls1 st in
  let '(st2, out2) := run_lines assetMap ls2 st1 in
  (st2, out1 ++ out2).
Proof.
  revert st. induction ls1 as [|l ls1 IH]; intros st; simpl.
  - by destruct (run_lines assetMap ls2 st).
  - destruct (trim l) as [|c line]; [apply IH|].
    destruct (process_line assetMap (c :: line) st) as [st1 out].
    rewrite IH. destruct (run_lines assetMap ls1 st1) as [st2 out1].
    destruct (run_lines assetMap ls2 st2) as [st3 out2]. by rewrite app_assoc.
Qed.

(** From any pointer the loop does what [run_lines] does on a prefix of the
    remaining lines, and on all of them when the budget is unbounded. *)
Lemma parse_loop_lines fuel content limit ptr lines acc st :
  length content - ptr ≤ fuel →
  ∃ next k,
    parse_loop assetMap fuel content limit ptr lines acc st
      = Some (next, acc ++ (run_lines assetMap (take k (lines_of (drop ptr content))) st).2,
              (run_lines assetMap (take k (lines_of (drop ptr content))) st).1)
    ∧ (limit = Infinity → length (lines_of (drop ptr content)) ≤ k).
Proof.
  revert ptr lines acc st.
  induction fuel as [|fuel IH]; intros ptr lines acc st Hfuel.
  - simpl. replace (ptr <? length content) with false
      by (symmetry; apply Nat.ltb_ge; lia).
    simpl. exists ptr, 1. rewrite drop_ge by lia. simpl.
    rewrite app_nil_r. split; [done|]. intros _. lia.
  - simpl. destruct (ptr <? length content) eqn:Hp; simpl.
    2:{ apply Nat.ltb_ge in Hp. exists ptr, 1. rewrite drop_ge by lia. simpl.
        rewrite app_nil_r. split; [done|]. intros _. lia. }
    apply Nat.ltb_lt in Hp.
    destruct (under lines limit) eqn:Hu.
    2:{ exists ptr, 0. simpl. rewrite app_nil_r. split; [done|].
        intros ->. done. }
    pose proof (lines_of_first (drop ptr content)) as Hfirst.
    rewrite index_from_drop by lia.
    destruct (index_from newline 0 (drop ptr content)) as [k|] eqn:Hk; simpl.
    + apply index_from_bounds in Hk as Hkb. rewrite length_drop in Hkb.
      unfold substring. replace (ptr + k - ptr) with k by lia.
      rewrite Hfirst. rewrite drop_drop in *.
      replace (ptr + S k) with (ptr + k + 1) in * by lia.
      destruct (trim (take k (drop ptr content))) as [|c line] eqn:Ht.
      * destruct (IH (ptr + k + 1) lines acc st) as (next & j & Heq & Hinf); [lia|].
        exists next, (S j). simpl. rewrite Ht. split; [done|].
        intros Hl. specialize (Hinf Hl). lia.
      * destruct (process_line assetMap (c :: line) st) as [st1 out] eqn:Hpl.
        destruct (IH (ptr + k + 1) (S lines) (acc ++ out) st1)
          as (next & j & Heq & Hinf); [lia|].
        exists next, (S j). simpl. rewrite Ht, Hpl.
        destruct (run_lines assetMap _ st1) as [st2 msgs] eqn:Hr.
        simpl in *. rewrite app_assoc. split; [done|].
        intros Hl. specialize (Hinf Hl). lia.
    + unfold substring. rewrite Hfirst.
      rewrite (take_ge (drop ptr content)) by (rewrite length_drop; lia).
      assert (∀ l a s0, parse_loop assetMap fuel content limit (length content + 1) l a s0
                        = Some (length content + 1, a, s0)) as Hstop.
      { intros l a s0. destruct fuel; simpl;
          replace (length content + 1 <? length content) with false
            by (symmetry; apply Nat.ltb_ge; lia); done. }
      destruct (trim (drop ptr content)) as [|c line] eqn:Ht.
      * exists (length content + 1), 1. simpl. rewrite Ht, Hstop, app_nil_r.
        split; [done|]. intros _. lia.
      * destruct (process_line assetMap (c :: line) st) as [st1 out] eqn:Hpl.
        exists (length content + 1), 1. simpl. rewrite Ht, Hpl, Hstop. simpl.
        rewrite app_nil_r. split; [done|]. intros _. lia.
Qed.

End LineFacts.

(* ===================================================================== *)
(** * Further properties of [parseWhatsAppStringChunk] *)
(* ===================================================================== *)

(** X1.  A call with an unbounded budget does to the store, and returns,
    what processing the lines of the text from the offset on, one by one in
    file order, does; a call with any budget does so for a prefix of those
    lines. *)
Theorem parse_is_a_pass_over_the_lines assetMap content offset st :
  (∃ next,
     parseWhatsAppStringChunk assetMap content offset Infinity st
       = Some (next, (run_lines assetMap (lines_of (drop offset content)) st).2,
               (run_lines assetMap (lines_of (drop offset content)) st).1))
  ∧ ∀ limit, ∃ next k,
      parseWhatsAppStringChunk assetMap content offset limit st
        = Some (next,
                (run_lines assetMap (take k (lines_of (drop offset content))) st).2,
                (run_lines assetMap (take k (lines_of (drop offset content))) st).1).
Proof.
  split.
  - destruct (parse_loop_lines assetMap (length content) content Infinity offset 0 [] st)
      as (next & k & Heq & Hk); [lia|].
    exists next. unfold parseWhatsAppStringChunk. rewrite Heq.
    by rewrite take_ge by auto.
  - intros limit.
    destruct (parse_loop_lines assetMap (length content) content limit offset 0 [] st)
      as (next & k & Heq & _); [lia|].
    by exists next, k.
Qed.

(** X2.  The references a call returns are exactly the records it
    allocated: consecutive, in file order, starting at the end of the store
    it was given, without repetition; the store grows by that many records. *)
Theorem returned_references_are_the_new_records
    assetMap content offset limit st next msgs st' :
  parseWhatsAppStringChunk assetMap content offset limit st = Some (next, msgs, st') →
  msgs = seq (length (heap st)) (length msgs)
  ∧ length (heap st') = length (heap st) + length msgs
  ∧ NoDup msgs.
Proof.
  intros H. apply parse_loop_shape in H as (new & -> & Hseq & Hlen & _).
  simpl. split; [done|]. split; [done|]. rewrite Hseq. apply NoDup_seq.
Qed.

Lemma returned_references_are_the_new_records_witness :
  parseWhatsAppStringChunk ∅ demo_text 0 Infinity (mkState [] None)
    = Some (80, [0; 1], demo_state)
  ∧ [0; 1] = seq 0 2
  ∧ length (heap demo_state) = 0 + 2
  ∧ NoDup [0; 1].
Proof.
  assert (parseWhatsAppStringChunk ∅ demo_text 0 Infinity (mkState [] None)
          = Some (80, [0; 1], demo_state)) as H by (vm_compute; reflexivity).
  split; [exact H|].
  exact (returned_references_are_the_new_records _ _ _ _ _ _ _ _ H).
Defined.

(** X3.  A call with a finite budget of [n] lines returns at most [n]
    records. *)
Theorem budget_bounds_the_records assetMap content offset n st next msgs st' :
  parseWhatsAppStringChunk assetMap content offset (Finite n) st
    = Some (next, msgs, st') →
  length msgs ≤ n.
Proof.
  intros H. apply parse_loop_shape in H as (new & -> & _ & _ & _ & Hbud & _).
  specialize (Hbud n eq_refl). simpl in *. lia.
Qed.

Lemma budget_bounds_the_records_witness :
  parseWhatsAppStringChunk ∅ demo_text 0 (Finite 2) (mkState [] None)
    = Some (48, [0],
            mkState [mkMsg (lit "1/2/23, 10:00:00 AM") (lit "Alice")
                       (lit "Hello" ++ [newline] ++ lit "How are you?")
                       None None false] (Some 0))
  ∧ length [0] ≤ 2.
Proof.
  assert (parseWhatsAppStringChunk ∅ demo_text 0 (Finite 2) (mkState [] None)
          = Some (48, [0],
                  mkState [mkMsg (lit "1/2/23, 10:00:00 AM") (lit "Alice")
                             (lit "Hello" ++ [newline] ++ lit "How are you?")
                             None None false] (Some 0))) as H
    by (vm_compute; reflexivity).
  split; [exact H|].
  exact (budget_bounds_the_records _ _ _ _ _ _ _ _ H).
Defined.

Lemma extends_refl m : extends m m.
Proof. repeat split. exists []. by rewrite app_nil_r. Qed.

Lemma extends_stable assetMap m : stable assetMap (extends m).
Proof.
  intros f line x (Hts & Hs & Hme & Hvo & more & Ht). unfold continue_message.
  destruct f as [name|].
  - destruct (truthy (resolve assetMap name)), (clean name line) as [|c cl]; simpl;
      repeat split; try done; try by exists more.
    all: rewrite Ht; eexists; by rewrite <- app_assoc.
  - simpl. repeat split; try done. rewrite Ht. eexists. by rewrite <- app_assoc.
Qed.

(** X4.  A call rewrites no record: every record of the store keeps its
    timestamp, sender and flags, and its text can only get longer at the
    end; and a record that was not the open one when the call began is left
    exactly as it was. *)
Theorem records_are_only_extended assetMap content offset limit st next msgs st' r m :
  parseWhatsAppStringChunk assetMap content offset limit st = Some (next, msgs, st') →
  heap st !! r = Some m →
  ∃ m', heap st' !! r = Some m' ∧ extends m m'
        ∧ (current st ≠ Some r → m' = m).
Proof.
  intros H Hr.
  destruct (parse_loop_preserves assetMap (extends m) _ _ _ _ _ _ _ _ _ _ r m
              (extends_stable assetMap m) H Hr (extends_refl m)) as (m' & Hr' & Hext).
  exists m'. split; [done|]. split; [done|]. intros Hne.
  apply parse_loop_shape in H as (_ & _ & _ & _ & _ & _ & Hfr & _).
  rewrite Hfr in Hr'; [congruence|by eapply lookup_lt_Some|done].
Qed.

Lemma records_are_only_extended_witness :
  parseWhatsAppStringChunk ∅ demo_text 35 Infinity
    (mkState [mkMsg (lit "1/2/23, 10:00:00 AM") (lit "Alice") (lit "Hello")
                None None false] (Some 0))
    = Some (80, [1], demo_state)
  ∧ ∃ m', heap demo_state !! 0 = Some m'
          ∧ extends (mkMsg (lit "1/2/23, 10:00:00 AM") (lit "Alice") (lit "Hello")
                       None None false) m'.
Proof.
  assert (parseWhatsAppStringChunk ∅ demo_text 35 Infinity
            (mkState [mkMsg (lit "1/2/23, 10:00:00 AM") (lit "Alice") (lit "Hello")
                        None None false] (Some 0))
          = Some (80, [1], demo_state)) as H by (vm_compute; reflexivity).
  split; [exact H|].
  destruct (records_are_only_extended _ _ _ _ _ _ _ _ 0 _ H eq_refl)
    as (m' & Hm' & Hext & _).
  by exists m'.
Defined.

(** X5.  After a call the open record is the last record the call
    returned, or, when it returned none, the record that was open before. *)
Theorem open_record_after_a_call assetMap content offset limit st next msgs st' :
  parseWhatsAppStringChunk assetMap content offset limit st = Some (next, msgs, st') →
  current st' = match last msgs with Some r => Some r | None => current st end.
Proof.
  intros H. by apply parse_loop_shape in H as (new & -> & _ & _ & Hcur & _).
Qed.

Lemma open_record_after_a_call_witness :
  parseWhatsAppStringChunk ∅ demo_text 0 Infinity (mkState [] None)
    = Some (80, [0; 1], demo_state)
  ∧ current demo_state = Some 1.
Proof.
  assert (parseWhatsAppStringChunk ∅ demo_text 0 Infinity (mkState [] None)
          = Some (80, [0; 1], demo_state)) as H by (vm_compute; reflexivity).
  split; [exact H|].
  exact (open_record_after_a_call _ _ _ _ _ _ _ _ H).
Defined.

(** X6.  The returned index is the offset itself (nothing was read), or one
    past the end of the text (the last line had no line break), or the index
    right after a line break: a slice always ends on a line boundary. *)
Theorem slices_end_on_line_boundaries assetMap content offset limit st next msgs st' :
  parseWhatsAppStringChunk assetMap content offset limit st = Some (next, msgs, st') →
  next = offset ∨ next = length content + 1
  ∨ (0 < next ≤ length content ∧ content !! (next - 1) = Some newline).
Proof.
  intros H. by apply parse_loop_shape in H as (_ & _ & _ & _ & _ & _ & _ & Hnx).
Qed.

Lemma slices_end_on_line_boundaries_witness :
  parseWhatsAppStringChunk ∅ demo_text 0 (Finite 2) (mkState [] None)
    = Some (48, [0],
            mkState [mkMsg (lit "1/2/23, 10:00:00 AM") (lit "Alice")
                       (lit "Hello" ++ [newline] ++ lit "How are you?")
                       None None false] (Some 0))
  ∧ (48 = 0 ∨ 48 = length demo_text + 1
     ∨ (0 < 48 ≤ length demo_text ∧ demo_text !! (48 - 1) = Some newline)).
Proof.
  assert (parseWhatsAppStringChunk ∅ demo_text 0 (Finite 2) (mkState [] None)
          = Some (48, [0],
                  mkState [mkMsg (lit "1/2/23, 10:00:00 AM") (lit "Alice")
                             (lit "Hello" ++ [newline] ++ lit "How are you?")
                             None None false] (Some 0))) as H
    by (vm_compute; reflexivity).
  split; [exact H|].
  exact (slices_end_on_line_boundaries _ _ _ _ _ _ _ _ H).
Defined.

Lemma run_lines_no_header assetMap ls st :
  current st = None →
  Forall (λ l, head_match (trim l) = None) ls →
  run_lines assetMap ls st = (st, []).
Proof.
  intros Hc Hall. induction Hall as [|l ls Hl _ IH]; simpl; [done|].
  destruct (trim l) as [|c line]; [done|].
  unfold process_line. by rewrite Hl, Hc, IH.
Qed.

(** X7.  With no record open, lines that are not headers are dropped: a
    call over a text none of whose remaining lines is a header returns no
    record and leaves the store as it was. *)
Theorem orphan_lines_are_dropped assetMap content offset limit st next msgs st' :
  current st = None →
  Forall (λ l, head_match (trim l) = None) (lines_of (drop offset content)) →
  parseWhatsAppStringChunk assetMap content offset limit st = Some (next, msgs, st') →
  msgs = [] ∧ st' = st.
Proof.
  intros Hc Hall H.
  destruct (parse_loop_lines assetMap (length content) content limit offset 0 [] st)
    as (next' & k & Heq & _); [lia|].
  unfold parseWhatsAppStringChunk in H. rewrite Heq in H.
  rewrite (run_lines_no_header assetMap _ _ Hc) in H by (by apply Forall_take).
  by injection H as _ <- <-.
Qed.

Lemma orphan_lines_are_dropped_witness :
  (current (mkState [] None) = None
   ∧ Forall (λ l, head_match (trim l) = None) (lines_of (drop 0 orphan_text))
   ∧ parseWhatsAppStringChunk ∅ orphan_text 0 Infinity (mkState [] None)
     = Some (50, [], mkState [] None))
  ∧ ([] : list ref) = [] ∧ mkState [] None = mkState [] None.
Proof.
  assert (Forall (λ l, head_match (trim l) = None) (lines_of (drop 0 orphan_text)))
    as Hall.
  { assert (lines_of (drop 0 orphan_text)
            = [lit "Messages are end-to-end encrypted."; lit "no header here"]) as ->
      by (vm_compute; reflexivity).
    repeat (apply Forall_cons_2; [vm_compute; reflexivity|]). apply Forall_nil_2. }
  assert (parseWhatsAppStringChunk ∅ orphan_text 0 Infinity (mkState [] None)
          = Some (50, [], mkState [] None)) as H by (vm_compute; reflexivity).
  split; [by repeat split|].
  exact (orphan_lines_are_dropped ∅ orphan_text 0 Infinity (mkState [] None)
           50 [] (mkState [] None) eq_refl Hall H).
Defined.

Lemma blank_slices_trim_to_nothing (content : str) a b :
  Forall (λ ch, is_space ch = true) content →
  trim (substring a b content) = [].
Proof.
  intros Hall. apply trim_nil_iff. unfold substring.
  by apply Forall_take, Forall_drop.
Qed.

Lemma parse_loop_blank assetMap fuel content limit ptr lines acc st :
  Forall (λ ch, is_space ch = true) content →
  under lines limit = true →
  length content - ptr ≤ fuel →
  ∃ next, parse_loop assetMap fuel content limit ptr lines acc st = Some (next, acc, st)
          ∧ length content ≤ next.
Proof.
  intros Hall Hu. revert ptr.
  induction fuel as [|fuel IH]; intros ptr Hfuel; simpl.
  - replace (ptr <? length content) with false by (symmetry; apply Nat.ltb_ge; lia).
    exists ptr. split; [done|lia].
  - destruct (ptr <? length content) eqn:Hp; simpl.
    2:{ apply Nat.ltb_ge in Hp. by exists ptr. }
    apply Nat.ltb_lt in Hp. rewrite Hu.
    pose proof (next_break_bounds content ptr Hp) as Hb.
    rewrite blank_slices_trim_to_nothing by done.
    apply IH. lia.
Qed.

(** X8.  Blank lines cost no budget: a text made of white space only is
    read to its end by one call with any positive budget, which returns no
    record and leaves the store as it was. *)
Theorem blank_text_is_read_in_one_call assetMap content offset limit st :
  Forall (λ ch, is_space ch = true) content →
  positive limit →
  ∃ next, parseWhatsAppStringChunk assetMap content offset limit st
            = Some (next, [], st)
          ∧ length content ≤ next.
Proof.
  intros Hall Hpos. apply parse_loop_blank; [done| |lia].
  by destruct limit as [[|n]|].
Qed.

Lemma blank_text_is_read_in_one_call_witness :
  (Forall (λ ch, is_space ch = true) blank_text ∧ positive (Finite 1))
  ∧ ∃ next, parseWhatsAppStringChunk ∅ blank_text 0 (Finite 1) (mkState [] None)
              = Some (next, [], mkState [] None)
            ∧ length blank_text ≤ next.
Proof.
  assert (Forall (λ ch, is_space ch = true) blank_text) as Hall.
  { unfold blank_text. simpl.
    repeat (apply Forall_cons_2; [reflexivity|]). apply Forall_nil_2. }
  split; [by split|].
  exact (blank_text_is_read_in_one_call ∅ blank_text 0 (Finite 1) _ Hall I).
Defined.

(* ===================================================================== *)
(** * The asset table *)
(* ===================================================================== *)

Section MediaFacts.

Import Archive Media.

Variable objectURL : ZipEntry → option str.

Lemma lower_idempotent c : lower (lower c) = lower c.
Proof. by destruct c as [[] [] [] [] [] [] [] []]. Qed.

Lemma toLowerCase_idempotent (s : str) : toLowerCase (toLowerCase s) = toLowerCase s.
Proof.
  unfold toLowerCase. rewrite map_map. apply map_ext. intros c. apply lower_idempotent.
Qed.

Lemma register_sources (m : gmap (list ascii) (list ascii)) (l : list ZipEntry) k u :
  fold_left (register objectURL) l m !! k = Some u →
  m !! k = Some u
  ∨ ∃ f, f ∈ l ∧ objectURL f = Some u
         ∧ (k = baseName f ∨ k = toLowerCase (baseName f)).
Proof.
  revert m. induction l as [|g l IH]; intros m H; simpl in H; [by left|].
  apply IH in H as [H|(f & Hf & Hu & Hk)].
  - unfold register in H. destruct (objectURL g) as [v|] eqn:Hg; [|by left].
    destruct (decide (toLowerCase (baseName g) = k)) as [<-|Hne1].
    + rewrite lookup_insert_eq in H. injection H as <-.
      right. exists g. split; [by left|]. by split; [|right].
    + rewrite lookup_insert_ne in H by done.
      destruct (decide (baseName g = k)) as [<-|Hne2].
      * rewrite lookup_insert_eq in H. injection H as <-.
        right. exists g. split; [by left|]. by split; [|left].
      * rewrite lookup_insert_ne in H by done. by left.
  - right. exists f. split; [by right|done].
Qed.


Lemma register_agree (L u : str) (m : gmap (list ascii) (list ascii)) l :
  (∀ g v, g ∈ l → toLowerCase (baseName g) = L → objectURL g = Some v → v = u) →
  (∀ k v, toLowerCase k = L → m !! k = Some v → v = u) →
  ∀ k v, toLowerCase k = L → fold_left (register objectURL) l m !! k = Some v → v = u.
Proof.
  intros Hl Hm k v Hk H. apply register_sources in H as [H|(f & Hf & Hu & Hkf)].
  - by eapply Hm.
  - eapply Hl; [exact Hf| |exact Hu].
    destruct Hkf as [->| ->]; [done|]. by rewrite toLowerCase_idempotent in Hk.
Qed.

Lemma register_keeps (L u : str) l : ∀ (m : gmap (list ascii) (list ascii)),
  toLowerCase L = L →
  (∀ g v, g ∈ l → toLowerCase (baseName g) = L → objectURL g = Some v → v = u) →
  m !! L = Some u →
  fold_left (register objectURL) l m !! L = Some u.
Proof.
  induction l as [|g l IH]; intros m HLL Hl Hm; simpl; [done|].
  apply IH; [done|intros g' v Hg'; apply Hl; by right|].
  unfold register. destruct (objectURL g) as [v|] eqn:Hg; [|done].
  destruct (decide (toLowerCase (baseName g) = L)) as [HL|Hne1].
  - rewrite HL, lookup_insert_eq. f_equal. eapply Hl; [by left|exact HL|exact Hg].
  - rewrite lookup_insert_ne by done.
    destruct (decide (baseName g = L)) as [HL|Hne2].
    + exfalso. apply Hne1. by rewrite HL.
    + by rewrite lookup_insert_ne.
Qed.

Lemma register_sets (f : ZipEntry) u l : ∀ (m : gmap (list ascii) (list ascii)),
  f ∈ l → objectURL f = Some u →
  (∀ g v, g ∈ l → toLowerCase (baseName g) = toLowerCase (baseName f) →
          objectURL g = Some v → v = u) →
  fold_left (register objectURL) l m !! toLowerCase (baseName f) = Some u.
Proof.
  induction l as [|g l IH]; intros m Hin Hu Hl; [by apply elem_of_nil in Hin|].
  simpl. apply elem_of_cons in Hin as [<-|Hin].
  - apply register_keeps; [apply toLowerCase_idempotent| |].
    + intros g v Hg. apply Hl. by right.
    + unfold register. rewrite Hu. apply lookup_insert_eq.
  - apply IH; [done|done|]. intros g' v Hg'. apply Hl. by right.
Qed.

(** X12.  Attachments resolve without regard to case: when an asset was
    registered and no other asset with the same lower-cased base name got a
    different locator, every reference that equals its base name up to case
    resolves to its locator. *)
Theorem attachment_resolution_ignores_case (entries : list ZipEntry) f u n :
  f ∈ entries → dir f = false → regex_test MEDIA_NAME_REGEXP (name f) = true →
  objectURL f = Some u →
  (∀ g v, g ∈ mediaEntries entries →
          toLowerCase (baseName g) = toLowerCase (baseName f) →
          objectURL g = Some v → v = u) →
  toLowerCase n = toLowerCase (baseName f) →
  resolve (mediaMap objectURL entries) n = Some u.
Proof.
  intros Hin Hd Ht Hu Hsame Hn.
  assert (f ∈ mediaEntries entries) as Hf.
  { apply list_elem_of_In, filter_In. split; [by apply list_elem_of_In|].
    by rewrite Hd, Ht. }
  pose proof (register_sets f u _ ∅ Hf Hu Hsame) as HL. fold (mediaMap objectURL entries) in HL.
  unfold resolve, js_or. rewrite Hn, HL.
  destruct (mediaMap objectURL entries !! n) as [v|] eqn:Hv; [|done].
  assert (v = u) as ->.
  { eapply (register_agree (toLowerCase (baseName f)) u ∅); [exact Hsame| |exact Hn|exact Hv].
    intros k v0 _ H0. by rewrite lookup_empty in H0. }
  by destruct (truthy (Some u)).
Qed.

End MediaFacts.

Section MediaWitnesses.

Import Archive Media.


Lemma attachment_resolution_ignores_case_witness :
  let f := mkEntry (lit "media/IMG-001.jpg") false [] in
  (f ∈ demo_archive ∧ dir f = false
   ∧ regex_test MEDIA_NAME_REGEXP (name f) = true
   ∧ demo_urls f = Some (lit "blob:media/IMG-001.jpg")
   ∧ toLowerCase (lit "Img-001.JPG") = toLowerCase (baseName f))
  ∧ resolve (mediaMap demo_urls demo_archive) (lit "Img-001.JPG")
    = Some (lit "blob:media/IMG-001.jpg").
Proof.
  intros f.
  assert (f ∈ demo_archive) as Hin by (apply list_elem_of_In; simpl; tauto).
  assert (regex_test MEDIA_NAME_REGEXP (name f) = true) as Ht by (vm_compute; reflexivity).
  assert (toLowerCase (lit "Img-001.JPG") = toLowerCase (baseName f)) as Hn
    by (vm_compute; reflexivity).
  assert (∀ g v, g ∈ mediaEntries demo_archive →
            toLowerCase (baseName g) = toLowerCase (baseName f) →
            demo_urls g = Some v → v = lit "blob:media/IMG-001.jpg") as Hsame.
  { intros g v Hg Hl Hv. apply list_elem_of_In in Hg. vm_compute in Hg.
    destruct Hg as [<-|[<-|[<-|[<-|[]]]]]; vm_compute in Hl; try discriminate.
    vm_compute in Hv. by injection Hv as <-. }
  split; [exact (conj Hin (conj eq_refl (conj Ht (conj eq_refl Hn))))|].
  exact (attachment_resolution_ignores_case demo_urls demo_archive f _ _
           Hin eq_refl Ht eq_refl Hsame Hn).
Defined.

End MediaWitnesses.

(* ===================================================================== *)
(** * Statistics and grouping *)
(* ===================================================================== *)

Section ViewFacts.

Import View.

Lemma bump_other (p : gmap (list ascii) tally) k s :
  k ≠ s → bump p k !! s = p !! s.
Proof.
  intros Hne. unfold bump. destruct (str_eqb k (lit "__proto__")); [done|].
  by rewrite lookup_insert_ne.
Qed.

Lemma bump_same (p : gmap (list ascii) tally) s :
  bump p s !! s = tally_after (p !! s) s 1.
Proof.
  unfold bump, tally_after. destruct (str_eqb s (lit "__proto__")); [done|].
  rewrite lookup_insert_eq. destruct (p !! s) as [[n|]|]; [done|done|].
  by destruct (inherited s).
Qed.

Lemma tally_after_succ o s n :
  tally_after (tally_after o s 1) s n = tally_after o s (S n).
Proof.
  unfold tally_after. destruct n as [|n].
  - destruct (str_eqb s (lit "__proto__")); [done|].
    destruct o as [[k|]|]; [done|done|]. by destruct (inherited s).
  - destruct (str_eqb s (lit "__proto__")); [done|].
    destruct o as [[k|]|]; [f_equal; f_equal; lia|done|].
    destruct (inherited s); [done|]. f_equal.
Qed.

Lemma fold_stats (messages : list ChatMessage) : ∀ p c s,
  let '(p', c') :=
    fold_left
      (λ '(p, c) m, (bump p (sender m), if truthy (mediaUrl m) then S c else c))
      messages (p, c) in
  c' = c + length (galleryMedia messages)
  ∧ p' !! s = tally_after (p !! s) s (occurrences s messages).
Proof.
  induction messages as [|m messages IH]; intros p c s.
  - simpl. split; [lia|done].
  - cbn [fold_left]. specialize (IH (bump p (sender m))
      (if truthy (mediaUrl m) then S c else c) s).
    destruct (fold_left _ messages _) as [p' c'].
    destruct IH as (Hc & Hp).
    unfold galleryMedia, occurrences in *. cbn [List.filter].
    split; [destruct (truthy (mediaUrl m)); simpl; lia|].
    destruct (str_eqb (sender m) s) eqn:E.
    + apply str_eqb_eq in E. rewrite E in *.
      rewrite Hp, bump_same. cbn [length]. apply tally_after_succ.
    + assert (sender m ≠ s) as Hne.
      { intros Heq. apply str_eqb_eq in Heq. congruence. }
      by rewrite bump_other in Hp.
Qed.

(** X13.  [computeStats] counts every message, counts as media the
    messages the gallery shows, and gives each sender the number of its
    messages; except that a sender named like a property of
    [Object.prototype] gets a string instead of a number, and a sender named
    [__proto__] gets no entry at all. *)
Theorem computeStats_tallies (messages : list ChatMessage) (s : str) :
  totalMessages (computeStats messages) = length messages
  ∧ mediaCount (computeStats messages) = length (galleryMedia messages)
  ∧ mediaCount (computeStats messages) ≤ totalMessages (computeStats messages)
  ∧ participants (computeStats messages) !! s =
      match occurrences s messages with
      | 0 => None
      | S n =>
          if inherited s
          then (if str_eqb s (lit "__proto__") then None else Some Words)
          else Some (Count (S n))
      end.
Proof.
  unfold computeStats. pose proof (fold_stats messages ∅ 0 s) as H.
  destruct (fold_left _ messages _) as [p' c']. destruct H as [Hc Hp].
  cbn [totalMessages mediaCount participants].
  split; [done|]. split; [done|]. split.
  - rewrite Hc. simpl. unfold galleryMedia.
    clear. induction messages as [|m l IH]; simpl; [lia|].
    destruct (truthy (mediaUrl m)); simpl; lia.
  - rewrite Hp, lookup_empty. unfold tally_after.
    destruct (occurrences s messages) as [|n]; [done|].
    destruct (str_eqb s (lit "__proto__")) eqn:E; [|by destruct (inherited s)].
    apply str_eqb_eq in E. subst s. reflexivity.
Qed.

Lemma last_snoc_alter (gs : list Group) g (f : Group → Group) :
  alter f (length (gs ++ [g]) - 1) (gs ++ [g]) = gs ++ [f g].
Proof.
  rewrite length_app. simpl. replace (length gs + 1 - 1) with (length gs + 0) by lia.
  by rewrite alter_app_r.
Qed.

(** What one message does to the groups, by cases on the last group. *)
Lemma push_message_cases (groups : list Group) msg :
  (groups = [] ∧ push_message groups msg = [mkGroup (dateKey msg) [msg]])
  ∨ (∃ gs g, groups = gs ++ [g] ∧ date g = dateKey msg
             ∧ push_message groups msg = gs ++ [mkGroup (date g) (msgs g ++ [msg])])
  ∨ (∃ gs g, groups = gs ++ [g] ∧ date g ≠ dateKey msg
             ∧ push_message groups msg = gs ++ [g; mkGroup (dateKey msg) [msg]]).
Proof.
  destruct groups as [|g0 gs0 _] using rev_ind; [by left|]. right.
  unfold push_message. rewrite last_snoc.
  destruct (str_eqb (date g0) (dateKey msg)) eqn:E.
  - left. exists gs0, g0. apply str_eqb_eq in E. split; [done|]. split; [done|].
    apply last_snoc_alter.
  - right. exists gs0, g0. split; [done|]. split.
    + intros Heq. apply str_eqb_eq in Heq. congruence.
    + rewrite <- app_assoc. change ([g0] ++ [mkGroup (dateKey msg) []])
        with ([g0; mkGroup (dateKey msg) []]).
      replace (gs0 ++ [g0; mkGroup (dateKey msg) []])
        with ((gs0 ++ [g0]) ++ [mkGroup (dateKey msg) []])
        by (by rewrite <- app_assoc).
      rewrite last_snoc_alter. by rewrite <- app_assoc.
Qed.

Lemma neighbours_differ_snoc (gs : list Group) g g' :
  neighbours_differ (gs ++ [g]) → date g ≠ date g' →
  neighbours_differ (gs ++ [g; g']).
Proof.
  induction gs as [|x gs IH]; intros H Hne; [by simpl|].
  destruct gs as [|y gs].
  - simpl in *. destruct H as [H _]. by repeat split.
  - cbn [app neighbours_differ] in *. destruct H as [H1 H2]. split; [done|].
    by apply IH.
Qed.

Lemma neighbours_differ_last (gs : list Group) g g' :
  neighbours_differ (gs ++ [g]) → date g' = date g →
  neighbours_differ (gs ++ [g']).
Proof.
  induction gs as [|x gs IH]; intros H Heq; [by simpl|].
  destruct gs as [|y gs].
  - simpl in *. destruct H as [H _]. split; [congruence|done].
  - cbn [app neighbours_differ] in *. destruct H as [H1 H2]. split; [done|].
    by apply IH.
Qed.

Lemma neighbours_differ_lookup (gs : list Group) i g g' :
  neighbours_differ gs → gs !! i = Some g → gs !! S i = Some g' → date g ≠ date g'.
Proof.
  revert i. induction gs as [|x gs IH]; intros i H Hi Hi'; [done|].
  destruct gs as [|y gs]; [done|]. cbn [neighbours_differ] in H. destruct H as [H1 H2].
  destruct i as [|i].
  - simpl in *. congruence.
  - by apply (IH i).
Qed.

Lemma push_message_well_grouped gs seen msg :
  well_grouped gs seen → well_grouped (push_message gs msg) (seen ++ [msg]).
Proof.
  intros (Hcat & Hall & Hnb).
  destruct (push_message_cases gs msg)
    as [[-> ->]|[(gs0 & g & -> & Hd & ->)|(gs0 & g & -> & Hd & ->)]].
  - simpl in Hcat. subst seen. repeat split; simpl; try done.
    repeat constructor; done.
  - rewrite map_app, concat_app in Hcat. simpl in Hcat. rewrite app_nil_r in Hcat.
    apply Forall_app in Hall as [Hall1 Hall2].
    apply Forall_cons_1 in Hall2 as [[Hne Hg] _].
    repeat split.
    + rewrite map_app, concat_app. simpl. rewrite app_nil_r, <- Hcat.
      by rewrite app_assoc.
    + apply Forall_app. split; [done|]. apply Forall_cons_2; [|constructor].
      simpl. split; [by destruct (msgs g)|].
      apply Forall_app. split; [done|]. by repeat constructor.
    + by eapply neighbours_differ_last.
  - repeat split.
    + replace (gs0 ++ [g; mkGroup (dateKey msg) [msg]])
        with ((gs0 ++ [g]) ++ [mkGroup (dateKey msg) [msg]])
        by (by rewrite <- app_assoc).
      rewrite map_app, concat_app, Hcat. simpl. by rewrite ?app_nil_r.
    + replace (gs0 ++ [g; mkGroup (dateKey msg) [msg]])
        with ((gs0 ++ [g]) ++ [mkGroup (dateKey msg) [msg]])
        by (by rewrite <- app_assoc).
      apply Forall_app. split; [done|]. repeat constructor; done.
    + by apply neighbours_differ_snoc.
Qed.

Lemma fold_well_grouped rest : ∀ gs seen,
  well_grouped gs seen →
  well_grouped (fold_left push_message rest gs) (seen ++ rest).
Proof.
  induction rest as [|msg rest IH]; intros gs seen H; simpl.
  - by rewrite app_nil_r.
  - replace (seen ++ msg :: rest) with ((seen ++ [msg]) ++ rest)
      by (by rewrite <- app_assoc).
    apply IH. by apply push_message_well_grouped.
Qed.

(** X14.  Grouping by date loses and reorders nothing: the groups, read in
    order, give back the list of messages; no group is empty; every message
    of a group has the date of the group; and two groups next to each other
    never carry the same date. *)
Theorem grouping_partitions_the_messages (visible : list ChatMessage) :
  concat (map msgs (groupedMessages visible)) = visible
  ∧ Forall (λ g, msgs g ≠ [] ∧ Forall (λ m, dateKey m = date g) (msgs g))
      (groupedMessages visible)
  ∧ ∀ i g g', groupedMessages visible !! i = Some g →
              groupedMessages visible !! S i = Some g' →
              date g ≠ date g'.
Proof.
  destruct (fold_well_grouped visible [] []) as (Hcat & Hall & Hnb).
  { split; [done|]. split; [constructor|done]. }
  split; [done|]. split; [done|].
  intros i g g'. by apply neighbours_differ_lookup.
Qed.

End ViewFacts.

(* ===================================================================== *)
(** * The date shown and the date compared *)
(* ===================================================================== *)

Section DateAgreement.

Import DateFormat View.
Local Open Scope Z_scope.







Lemma trim_start_decompose (s : str) :
  ∃ sp, s = sp ++ trim_start s ∧ Forall (λ ch, is_space ch = true) sp.
Proof.
  induction s as [|x s (sp & Hs & Hsp)]; simpl.
  - by exists [].
  - destruct (is_space x) eqn:Hx.
    + exists (x :: sp). split; [by rewrite Hs at 1|by constructor].
    + by exists [].
Qed.

Lemma trim_end_decompose (s : str) :
  ∃ sp, s = trim_end s ++ sp ∧ Forall (λ ch, is_space ch = true) sp.
Proof.
  unfold trim_end. destruct (trim_start_decompose (rev s)) as (sp & Hs & Hsp).
  exists (rev sp). split.
  - rewrite <- rev_app_distr, <- Hs. by rewrite rev_involutive.
  - by apply Forall_rev.
Qed.

Lemma trim_start_id (s : str) :
  (∀ x t, s = x :: t → is_space x = false) → trim_start s = s.
Proof.
  destruct s as [|x s]; [done|]. intros H. simpl. by rewrite (H x s eq_refl).
Qed.



End DateAgreement.

(* ===================================================================== *)
(** * Sender names and colours in a bubble *)
(* ===================================================================== *)

Section BubbleFacts.

Import RegexSem RegexFacts Media Bubble.

(** A greedy unbounded repetition over a string made of the class, in
    front of a continuation that only accepts the end, takes it all. *)
Lemma rep_greedy_all {R} p (s : str) (k : nat → str → option R) : ∀ lo i,
  Forall (λ ch, p ch = true) s → lo ≤ length s →
  (∀ i' (s' : str), s' ≠ [] → k i' s' = None) →
  rep p lo None true i s k = k (i + length s) [].
Proof.
  induction s as [|c s IH]; intros lo i Hall Hlo Hk.
  - simpl in Hlo. replace lo with 0 by lia. cbn [length]. rewrite Nat.add_0_r.
    by simpl.
  - apply Forall_cons_1 in Hall as [Hc Hall]. simpl in Hlo.
    cbn [rep hi_zero hi_pred fmap option_fmap option_map]. rewrite Hc.
    replace (i + length (c :: s)) with (S i + length s) by (simpl; lia).
    destruct lo as [|lo].
    + rewrite (IH 0 (S i)) by (done || lia).
      destruct (k (S i + length s) []) eqn:E; [done|]. by apply Hk.
    + apply IH; (done || lia).
Qed.

Lemma match_at_sound r i (s : str) e c :
  wf r = true →
  match_at r i s = Some (e, c) →
  ∃ rest, s = take (e - i) s ++ rest ∧ den r i (take (e - i) s) rest ∅ c.
Proof.
  intros Hwf E. unfold match_at in E.
  destruct (exec_sound _ _ _ _ _ _ Hwf E) as (w & rest & c1 & -> & Hd & [= <- <-]).
  exists rest. replace (i + length w - i) with (length w) by lia.
  by rewrite take_app_length.
Qed.

Lemma search_sound_pos r : ∀ i (s : str) b e m c,
  wf r = true →
  search r i s = Some (b, e, m, c) →
  ∃ pre rest, s = pre ++ m ++ rest ∧ b = i + length pre ∧ den r b m rest ∅ c.
Proof.
  intros i s. revert i. induction s as [|ch s IH]; intros i b e m c Hwf H;
    cbn [search] in H.
  - destruct (match_at r i []) as [[e' c']|] eqn:E; [|done].
    injection H as <- <- <- <-.
    destruct (match_at_sound _ _ _ _ _ Hwf E) as (rest & Hs & Hd).
    exists [], rest. simpl. split; [done|]. split; [lia|done].
  - destruct (match_at r i (ch :: s)) as [[e' c']|] eqn:E.
    + injection H as <- <- <- <-.
      destruct (match_at_sound _ _ _ _ _ Hwf E) as (rest & Hs & Hd).
      exists [], rest. simpl. split; [done|]. split; [lia|done].
    + destruct (IH _ _ _ _ _ Hwf H) as (pre & rest & -> & -> & Hd).
      exists (ch :: pre), rest. simpl. split; [done|]. split; [lia|done].
Qed.

(** The phone pattern accepts exactly the non-empty strings made of digits,
    white space, hyphens, plus signs and parentheses. *)
Lemma phone_test_spec (name : str) :
  regex_test PHONE_REGEXP name = true ↔
  name ≠ [] ∧ Forall (λ ch, is_phone_char ch = true) name.
Proof.
  unfold regex_test. split.
  - destruct (search PHONE_REGEXP 0 name) as [[[[b e] m] c]|] eqn:Hs; [|done].
    intros _. apply search_sound_pos in Hs as (pre & rest & -> & Hb & Hd); [|done].
    unfold PHONE_REGEXP in Hd. cbn [seqs foldr den] in Hd.
    destruct Hd as (w0 & w1 & c0 & -> & (-> & Hb0 & _) & Hd).
    destruct Hd as (w2 & w3 & c1 & -> & (Hall & Hlen & _) & Hd).
    destruct Hd as (w4 & w5 & c2 & -> & (-> & Hrest & _) & (-> & _)).
    simpl in Hrest. subst rest.
    assert (pre = []) as -> by (destruct pre; [done|simpl in Hb; lia]).
    simpl. rewrite !app_nil_r. split; [|done].
    destruct w2; [simpl in Hlen; lia|done].
  - intros [Hne Hall].
    assert (match_at PHONE_REGEXP 0 name = Some (length name, ∅)) as Hm.
    { unfold match_at, PHONE_REGEXP. cbn [seqs foldr exec].
      rewrite rep_greedy_all; [done|done| |].
      - destruct name; [done|simpl; lia].
      - intros i' s' Hs'. by destruct s'. }
    destruct name as [|ch name]; [done|]. cbn [search]. by rewrite Hm.
Qed.

Lemma remove_all_class p (s : str) : ∀ i,
  remove_all_from (Chr p) i 0 s = List.filter (λ ch, negb (p ch)) s.
Proof.
  induction s as [|ch s IH]; intros i; [done|].
  cbn [remove_all_from match_at exec List.filter]. destruct (p ch); cbn [negb].
  - rewrite (proj2 (Nat.leb_gt (S i) i)) by lia.
    replace (S i - i - 1) with 0 by lia. apply IH.
  - f_equal. apply IH.
Qed.

Lemma search_bol_later r (s : str) : ∀ i, search (Seq Bol r) (S i) s = None.
Proof.
  induction s as [|ch s IH]; intros i; [done|]. cbn [search match_at exec]. apply IH.
Qed.

Lemma remove_leading_plus (s : str) :
  remove_first_match LEADING_PLUS_REGEXP s = strip_plus s.
Proof.
  unfold remove_first_match, LEADING_PLUS_REGEXP. destruct s as [|c s]; [done|].
  cbn [search match_at exec chr strip_plus].
  destruct (ch_eqb c "+"); [by simpl|].
  by rewrite search_bol_later.
Qed.

Lemma formatSenderName_phone isMe sender (name : str) :
  isMe ≠ Some true →
  formatSenderName isMe sender name =
  if regex_test PHONE_REGEXP name
  then "+"%char :: strip_plus (List.filter is_dial_char name)
  else name.
Proof.
  intros Hme. unfold formatSenderName.
  assert (∀ x : str, match isMe with Some true => sender | _ => x end = x) as ->.
  { intros x. by destruct isMe as [[]|]. }
  destruct (regex_test PHONE_REGEXP name); [|done].
  rewrite remove_leading_plus. unfold remove_all, NON_DIAL_REGEXP.
  rewrite remove_all_class. simpl. f_equal. f_equal.
  apply filter_ext. intros ch. by rewrite negb_involutive.
Qed.

Lemma dial_is_phone ch : is_dial_char ch = true → is_phone_char ch = true.
Proof. by destruct ch as [[] [] [] [] [] [] [] []]. Qed.

Lemma plus_no_digit ch : ch_eqb ch "+" = true → is_digit ch = false.
Proof. by destruct ch as [[] [] [] [] [] [] [] []]. Qed.

Lemma digit_is_dial ch : is_digit ch = true → is_dial_char ch = true.
Proof. unfold is_dial_char. by intros ->. Qed.

Lemma strip_plus_dial (s : str) :
  Forall (λ ch, is_dial_char ch = true) s →
  Forall (λ ch, is_dial_char ch = true) (strip_plus s).
Proof.
  destruct s as [|c s]; [done|]. intros H. simpl.
  destruct (ch_eqb c "+"); [by apply Forall_cons_1 in H as [_ H]|done].
Qed.

Lemma filter_all {A} (p : A → bool) (l : list A) :
  Forall (λ x, p x = true) l → List.filter p l = l.
Proof.
  induction 1 as [|x l Hx _ IH]; simpl; [done|]. by rewrite Hx, IH.
Qed.

Lemma filter_dial_all (s : str) :
  Forall (λ ch, is_dial_char ch = true) (List.filter is_dial_char s).
Proof.
  apply Forall_forall. intros ch Hin. apply list_elem_of_In, filter_In in Hin. tauto.
Qed.

Lemma filter_digit_strip_plus (s : str) :
  List.filter is_digit (strip_plus s) = List.filter is_digit s.
Proof.
  destruct s as [|c s]; [done|]. simpl.
  destruct (ch_eqb c "+") eqn:E; [|done]. by rewrite (plus_no_digit c E).
Qed.

Lemma filter_filter_digit (s : str) :
  List.filter is_digit (List.filter is_dial_char s) = List.filter is_digit s.
Proof.
  induction s as [|c s IH]; [done|]. simpl.
  destruct (is_digit c) eqn:Ed.
  - rewrite (digit_is_dial c Ed). simpl. by rewrite Ed, IH.
  - destruct (is_dial_char c); simpl; [by rewrite Ed|done].
Qed.

(** X16.  For a message that is not one's own, [formatSenderName] leaves a
    name alone unless it is non-empty and made of digits, white space,
    hyphens, plus signs and parentheses; such a name becomes a plus sign
    followed by its digits and plus signs (without a leading plus), so its
    digits are kept in order; and formatting twice is formatting once. *)
Theorem formatSenderName_normalises isMe sender (name : str) :
  isMe ≠ Some true →
  let phone := name ≠ [] ∧ Forall (λ ch, is_phone_char ch = true) name in
  (phone → formatSenderName isMe sender name
           = "+"%char :: strip_plus (List.filter is_dial_char name))
  ∧ (phone → List.filter is_digit (formatSenderName isMe sender name)
             = List.filter is_digit name)
  ∧ (¬ phone → formatSenderName isMe sender name = name)
  ∧ formatSenderName isMe sender (formatSenderName isMe sender name)
    = formatSenderName isMe sender name.
Proof.
  intros Hme phone.
  assert (phone → formatSenderName isMe sender name
                  = "+"%char :: strip_plus (List.filter is_dial_char name)) as Hphone.
  { intros Hp. rewrite formatSenderName_phone by done.
    by rewrite (proj2 (phone_test_spec name) Hp). }
  assert (¬ phone → formatSenderName isMe sender name = name) as Hother.
  { intros Hp. rewrite formatSenderName_phone by done.
    destruct (regex_test PHONE_REGEXP name) eqn:E; [|done].
    by apply phone_test_spec in E. }
  split; [done|]. split; [|split; [done|]].
  - intros Hp. rewrite (Hphone Hp). simpl.
    by rewrite filter_digit_strip_plus, filter_filter_digit.
  - destruct (regex_test PHONE_REGEXP name) eqn:E.
    + apply phone_test_spec in E. rewrite (Hphone E).
      set (d := strip_plus (List.filter is_dial_char name)).
      assert (Forall (λ ch, is_dial_char ch = true) ("+"%char :: d)) as Hd.
      { apply Forall_cons_2; [done|]. apply strip_plus_dial, filter_dial_all. }
      rewrite formatSenderName_phone by done.
      rewrite (proj2 (phone_test_spec _)).
      * by rewrite (filter_all _ _ Hd).
      * split; [done|]. eapply Forall_impl; [exact Hd|]. apply dial_is_phone.
    + assert (¬ phone) as Hp.
      { intros Hp. apply phone_test_spec in Hp. congruence. }
      by rewrite !(Hother Hp).
Qed.

Lemma formatSenderName_normalises_witness :
  (None : option bool) ≠ Some true
  ∧ formatSenderName None (lit "+1 (555) 010-42") (lit "+1 (555) 010-42")
    = lit "+155501042".
Proof.
  assert ((None : option bool) ≠ Some true) as Hme by discriminate.
  split; [exact Hme|].
  destruct (formatSenderName_normalises None (lit "+1 (555) 010-42")
              (lit "+1 (555) 010-42") Hme) as (Hphone & _).
  rewrite Hphone; [reflexivity|].
  split; [discriminate|].
  repeat (apply Forall_cons_2; [reflexivity|]). apply Forall_nil_2.
Defined.

Local Open Scope Z_scope.

Lemma wrap32_bounds z : - 2 ^ 31 ≤ wrap32 z < 2 ^ 31.
Proof.
  unfold wrap32. pose proof (Z.mod_pos_bound (z + 2 ^ 31) (2 ^ 32) eq_refl). lia.
Qed.

Lemma name_hash_bound (name : str) : ∀ h,
  Z.abs (fold_left hash_step name h)
  ≤ Z.abs h + Z.of_nat (length name) * (2 ^ 31 + 255).
Proof.
  induction name as [|c name IH]; intros h; simpl fold_left.
  - simpl. lia.
  - etransitivity; [apply IH|].
    assert (Z.abs (hash_step h c) ≤ Z.abs h + (2 ^ 31 + 255)) as Hs.
    { unfold hash_step. pose proof (wrap32_bounds (wrap32 h * 32)).
      assert (Z.of_nat (code c) ≤ 255).
      { unfold code. pose proof (nat_ascii_bounded c). lia. }
      lia. }
    rewrite length_cons, Nat2Z.inj_succ. lia.
Qed.

(** X17.  Every name gets a colour: [getNameColor] and [getAvatarStyles]
    never run off their palettes, and the base colour of the avatar gradient
    is the colour of the name.  The hash stays, in absolute value, below
    the length of the name times 2^31 + 255. *)
Theorem avatar_and_name_share_a_colour (name : str) :
  (∃ base light,
     In (base, light) avatar_colors
     ∧ getNameColor name = Some (lit base)
     ∧ getAvatarStyles name
       = Some (mkStyle (lit "linear-gradient(135deg, " ++ lit light ++ lit " 0%, "
                          ++ lit base ++ lit " 100%)")%list
                       (lit "#ffffff")))
  ∧ Z.abs (name_hash name) ≤ Z.of_nat (length name) * (2 ^ 31 + 255).
Proof.
  split; [|by pose proof (name_hash_bound name 0) as H; simpl in H].
  unfold getNameColor, getAvatarStyles, color_index.
  change (Z.of_nat (length name_colors)) with 7.
  change (Z.of_nat (length avatar_colors)) with 7.
  pose proof (Z.mod_pos_bound (Z.abs (name_hash name)) 7 eq_refl) as Hb.
  set (i := Z.abs (name_hash name) mod 7) in *.
  assert (Z.to_nat i < 7)%nat as Hi by lia.
  destruct (Z.to_nat i) as [|[|[|[|[|[|[|n]]]]]]]; [..|lia];
    eexists _, _; (split; [|split; reflexivity]); simpl; tauto.
Qed.

End BubbleFacts.

(* ===================================================================== *)
(** * Headers, continuation lines and locators *)
(* ===================================================================== *)

Section MoreParserFacts.

Variable assetMap : gmap (list ascii) (list ascii).

Lemma run_lines_count ls : ∀ st,
  length (run_lines assetMap ls st).2 = length (List.filter is_header ls).
Proof.
  induction ls as [|l ls IH]; intros st; [done|]. cbn [run_lines List.filter].
  unfold is_header at 1. destruct (trim l) as [|c line] eqn:Ht.
  - replace (head_match []) with (@None (str * str * str)) by (vm_compute; reflexivity).
    apply IH.
  - destruct (process_line assetMap (c :: line) st) as [st1 out] eqn:Hpl.
    specialize (IH st1). destruct (run_lines assetMap ls st1) as [st2 msgs].
    simpl in *. rewrite length_app, IH.
    unfold process_line in Hpl.
    destruct (head_match (c :: line)) as [[[ts au] bo]|].
    + by injection Hpl as <- <-.
    + destruct (current st); by injection Hpl as <- <-.
Qed.

(** X18.  One record per header line: a call with an unbounded budget
    returns as many records as there are header lines from the offset on. *)
Theorem one_record_per_header_line content offset st next msgs st' :
  parseWhatsAppStringChunk assetMap content offset Infinity st = Some (next, msgs, st') →
  length msgs = length (List.filter is_header (lines_of (drop offset content))).
Proof.
  intros H.
  destruct (parse_loop_lines assetMap (length content) content Infinity offset 0 [] st)
    as (next' & k & Heq & Hk); [lia|].
  unfold parseWhatsAppStringChunk in H. rewrite Heq in H. injection H as _ <- _.
  rewrite take_ge by auto. simpl. apply run_lines_count.
Qed.

Lemma run_continuations h conts : ∀ m,
  Forall (λ l, head_match (trim l) = None ∧ file_name (trim l) = None) conts →
  run_lines assetMap conts (mkState (h ++ [m]) (Some (length h)))
  = (mkState (h ++ [set_text (text m ++ joined conts) m]) (Some (length h)), []).
Proof.
  induction conts as [|l conts IH]; intros m Hall.
  - unfold joined. simpl. rewrite app_nil_r. by destruct m.
  - apply Forall_cons_1 in Hall as [[Hh Hf] Hall]. cbn [run_lines].
    unfold joined. cbn [map concat]. fold (joined conts).
    destruct (trim l) as [|c line] eqn:Ht.
    + rewrite IH by done. done.
    + unfold process_line. rewrite Hh, Hf. cbn [current heap].
      replace (length h) with (length h + 0) at 1 by lia.
      rewrite alter_app_r. cbn [alter list_alter continue_message].
      rewrite IH by done. cbn [set_text text timestamp sender isMe mediaUrl isViewOnce].
      by rewrite <- app_assoc.
Qed.

(** X19.  A header line without attachment followed by lines that are
    neither headers nor name an attachment gives one record: timestamp and
    sender trimmed, no locator, and as text the trimmed body followed by
    each non-blank line, trimmed, after a line break. *)
Theorem continuation_lines_are_joined content offset st next msgs st'
    header conts ts author body :
  lines_of (drop offset content) = header :: conts →
  head_match (trim header) = Some (ts, author, body) →
  file_name (trim header) = None →
  Forall (λ l, head_match (trim l) = None ∧ file_name (trim l) = None) conts →
  parseWhatsAppStringChunk assetMap content offset Infinity st = Some (next, msgs, st') →
  msgs = [length (heap st)]
  ∧ st' = mkState
            (heap st ++
               [mkMsg (trim ts) (trim author) (trim body ++ joined conts) None None
                  (includes (lit "view once") (toLowerCase body))])
            (Some (length (heap st))).
Proof.
  intros Hlines Hh Hf Hall H.
  destruct (parse_loop_lines assetMap (length content) content Infinity offset 0 [] st)
    as (next' & k & Heq & Hk); [lia|].
  unfold parseWhatsAppStringChunk in H. rewrite Heq in H. injection H as _ <- <-.
  rewrite take_ge by auto. rewrite Hlines. cbn [run_lines].
  destruct (trim header) as [|c line] eqn:Ht.
  { by replace (head_match []) with (@None (str * str * str)) in Hh
      by (vm_compute; reflexivity). }
  unfold process_line. rewrite Hh, Hf.
  rewrite run_continuations by done. simpl. done.
Qed.

Lemma resolve_from_table (f : str) :
  resolve assetMap f = None ∨ ∃ k, assetMap !! k = resolve assetMap f.
Proof.
  unfold resolve, js_or. destruct (truthy (assetMap !! f)); right; by eexists.
Qed.

(** X20.  The parser invents no locator: the mediaUrl of every record a
    call returns is absent or is a value of the asset table. *)
Theorem locators_come_from_the_table content offset limit st next msgs st' r :
  parseWhatsAppStringChunk assetMap content offset limit st = Some (next, msgs, st') →
  r ∈ msgs →
  ∃ m, heap st' !! r = Some m ∧ from_table assetMap m.
Proof.
  intros H Hin.
  eapply (parse_loop_emitted assetMap (from_table assetMap)); [| |exact H| |exact Hin].
  - intros f line m Hm. unfold from_table. rewrite continue_message_mediaUrl.
    destruct f as [name|]; [|done].
    destruct (truthy (resolve assetMap name)); [|done].
    apply resolve_from_table.
  - intros line ts au bo _. unfold from_table, header_message.
    destruct (file_name line) as [name|]; simpl; [apply resolve_from_table|by left].
  - intros r0 Hr0. by apply elem_of_nil in Hr0.
Qed.

End MoreParserFacts.

Lemma one_record_per_header_line_witness :
  parseWhatsAppStringChunk ∅ demo_text 0 Infinity (mkState [] None)
    = Some (80, [0; 1], demo_state)
  ∧ length [0; 1] = length (List.filter is_header (lines_of (drop 0 demo_text))).
Proof.
  assert (parseWhatsAppStringChunk ∅ demo_text 0 Infinity (mkState [] None)
          = Some (80, [0; 1], demo_state)) as H by (vm_compute; reflexivity).
  split; [exact H|].
  exact (one_record_per_header_line ∅ demo_text 0 _ _ _ _ H).
Defined.

Lemma continuation_lines_are_joined_witness :
  (lines_of (drop 0 headers_text)
     = [ lit "[1/2/23, 10:00:00 AM] Alice: Hello"; lit " How are you? "; [];
         lit "Fine, I hope." ]
   ∧ head_match (trim (lit "[1/2/23, 10:00:00 AM] Alice: Hello"))
     = Some (lit "1/2/23, 10:00:00 AM", lit "Alice", lit "Hello")
   ∧ parseWhatsAppStringChunk ∅ headers_text 0 Infinity (mkState [] None)
     = Some (65, [0],
             mkState [mkMsg (lit "1/2/23, 10:00:00 AM") (lit "Alice")
                        (lit "Hello" ++ [newline] ++ lit "How are you?" ++ [newline]
                           ++ lit "Fine, I hope.")
                        None None false] (Some 0)))
  ∧ [0] = [length (heap (mkState [] None))]
  ∧ mkState [mkMsg (lit "1/2/23, 10:00:00 AM") (lit "Alice")
               (lit "Hello" ++ [newline] ++ lit "How are you?" ++ [newline]
                  ++ lit "Fine, I hope.")
               None None false] (Some 0)
    = mkState
        (heap (mkState [] None) ++
           [mkMsg (trim (lit "1/2/23, 10:00:00 AM")) (trim (lit "Alice"))
              (trim (lit "Hello")
                 ++ joined [lit " How are you? "; []; lit "Fine, I hope."])
              None None (includes (lit "view once") (toLowerCase (lit "Hello")))])
        (Some (length (heap (mkState [] None)))).
Proof.
  assert (lines_of (drop 0 headers_text)
          = [ lit "[1/2/23, 10:00:00 AM] Alice: Hello"; lit " How are you? "; [];
              lit "Fine, I hope." ]) as Hl by (vm_compute; reflexivity).
  assert (head_match (trim (lit "[1/2/23, 10:00:00 AM] Alice: Hello"))
          = Some (lit "1/2/23, 10:00:00 AM", lit "Alice", lit "Hello")) as Hh
    by (vm_compute; reflexivity).
  assert (file_name (trim (lit "[1/2/23, 10:00:00 AM] Alice: Hello")) = None) as Hf
    by (vm_compute; reflexivity).
  assert (parseWhatsAppStringChunk ∅ headers_text 0 Infinity (mkState [] None)
          = Some (65, [0],
                  mkState [mkMsg (lit "1/2/23, 10:00:00 AM") (lit "Alice")
                             (lit "Hello" ++ [newline] ++ lit "How are you?" ++ [newline]
                                ++ lit "Fine, I hope.")
                             None None false] (Some 0))) as H
    by (vm_compute; reflexivity).
  assert (Forall (λ l, head_match (trim l) = None ∧ file_name (trim l) = None)
            [lit " How are you? "; []; lit "Fine, I hope."]) as Hall.
  { repeat (apply Forall_cons_2; [split; vm_compute; reflexivity|]). apply Forall_nil_2. }
  split; [exact (conj Hl (conj Hh H))|].
  exact (continuation_lines_are_joined ∅ headers_text 0 (mkState [] None) _ _ _
           _ _ _ _ _ Hl Hh Hf Hall H).
Defined.

Lemma locators_come_from_the_table_witness :
  parseWhatsAppStringChunk two_assets two_attachments 0 Infinity (mkState [] None)
    = Some (64, [0],
            mkState [mkMsg (lit "1/2/23, 10:00") (lit "Al") [] None
                       (Some (lit "blob:2")) false] (Some 0))
  ∧ ∃ m, heap (mkState [mkMsg (lit "1/2/23, 10:00") (lit "Al") [] None
                          (Some (lit "blob:2")) false] (Some 0)) !! 0 = Some m
         ∧ from_table two_assets m.
Proof.
  assert (parseWhatsAppStringChunk two_assets two_attachments 0 Infinity (mkState [] None)
          = Some (64, [0],
                  mkState [mkMsg (lit "1/2/23, 10:00") (lit "Al") [] None
                             (Some (lit "blob:2")) false] (Some 0))) as H
    by (vm_compute; reflexivity).
  split; [exact H|].
  apply (locators_come_from_the_table two_assets _ _ _ _ _ _ _ 0 H).
  apply list_elem_of_In. simpl. tauto.
Defined.

(* ===================================================================== *)
(** * Texts in pieces and attachment names *)
(* ===================================================================== *)

Section PiecesFacts.

Variable assetMap : gmap (list ascii) (list ascii).

Lemma lines_of_nonempty (s : str) : lines_of s ≠ [].
Proof.
  destruct s as [|c s]; [done|]. simpl.
  destruct (ch_eqb c newline); [done|]. by destruct (lines_of s).
Qed.

Lemma lines_of_app (a b : str) :
  lines_of (a ++ newline :: b) = lines_of a ++ lines_of b.
Proof.
  induction a as [|c a IH]; [done|]. cbn [app lines_of]. rewrite IH.
  destruct (ch_eqb c newline); [done|].
  pose proof (lines_of_nonempty a). by destruct (lines_of a).
Qed.

Lemma parse_unbounded_lines content st :
  ∃ next,
    parseWhatsAppStringChunk assetMap content 0 Infinity st
      = Some (next, (run_lines assetMap (lines_of content) st).2,
              (run_lines assetMap (lines_of content) st).1).
Proof.
  destruct (parse_loop_lines assetMap (length content) content Infinity 0 0 [] st)
    as (next & k & Heq & Hk); [lia|].
  exists next. unfold parseWhatsAppStringChunk. rewrite Heq.
  rewrite drop_0. by rewrite take_ge by auto.
Qed.

(** X21.  Parsing composes over concatenation: one unbounded call over a
    text followed, after a line break, by a second text returns the records
    that an unbounded call over the first text and then, on the store it
    leaves, an unbounded call over the second text return, and leaves the
    same store. *)
Theorem parsing_composes_over_concatenation (text1 text2 : str) st n1 m1 s1 n2 m2 s2 :
  parseWhatsAppStringChunk assetMap text1 0 Infinity st = Some (n1, m1, s1) →
  parseWhatsAppStringChunk assetMap text2 0 Infinity s1 = Some (n2, m2, s2) →
  ∃ next,
    parseWhatsAppStringChunk assetMap (text1 ++ newline :: text2) 0 Infinity st
      = Some (next, m1 ++ m2, s2).
Proof.
  intros H1 H2.
  destruct (parse_unbounded_lines text1 st) as (k1 & E1).
  destruct (parse_unbounded_lines text2 s1) as (k2 & E2).
  destruct (parse_unbounded_lines (text1 ++ newline :: text2) st) as (k & E).
  rewrite E1 in H1. rewrite E2 in H2.
  injection H1 as _ Hm1 Hs1. injection H2 as _ Hm2 Hs2.
  exists k. rewrite E. rewrite lines_of_app, run_lines_app.
  destruct (run_lines assetMap (lines_of text1) st) as [sa ma]. simpl in *. subst sa ma.
  destruct (run_lines assetMap (lines_of text2) s1) as [sb mb]. simpl in *. by subst sb mb.
Qed.

End PiecesFacts.

Lemma parsing_composes_over_concatenation_witness :
  ∃ next, parseWhatsAppStringChunk ∅ (two_texts.1 ++ newline :: two_texts.2) 0 Infinity
            (mkState [] None)
          = Some (next, [0] ++ [1],
                  mkState [mkMsg (lit "1/2/23, 10:00") (lit "Al")
                             (lit "Hi" ++ [newline] ++ lit "there" ++ [newline] ++ lit "again")
                             None None false;
                           mkMsg (lit "1/2/23, 10:01") (lit "Bo") (lit "Yo") None None false]
                          (Some 1)).
Proof.
  assert (parseWhatsAppStringChunk ∅ two_texts.1 0 Infinity (mkState [] None)
          = Some (29, [0],
                  mkState [mkMsg (lit "1/2/23, 10:00") (lit "Al")
                             (lit "Hi" ++ [newline] ++ lit "there") None None false]
                          (Some 0))) as H1 by (vm_compute; reflexivity).
  assert (parseWhatsAppStringChunk ∅ two_texts.2 0 Infinity
            (mkState [mkMsg (lit "1/2/23, 10:00") (lit "Al")
                        (lit "Hi" ++ [newline] ++ lit "there") None None false] (Some 0))
          = Some (29, [1],
                  mkState [mkMsg (lit "1/2/23, 10:00") (lit "Al")
                             (lit "Hi" ++ [newline] ++ lit "there" ++ [newline] ++ lit "again")
                             None None false;
                           mkMsg (lit "1/2/23, 10:01") (lit "Bo") (lit "Yo") None None false]
                          (Some 1))) as H2 by (vm_compute; reflexivity).
  exact (parsing_composes_over_concatenation ∅ _ _ _ _ _ _ _ _ _ H1 H2).
Defined.

Section AttachmentFacts.

Import RegexSem RegexFacts.

Lemma den_word ci s : ∀ i (w rest : str) c c',
  den (word ci s) i w rest c c' →
  c' = c ∧ Forall2 (λ x y, (if ci then ci_eqb x y else ch_eqb x y) = true) w (lit s).
Proof.
  unfold word. induction (lit s) as [|y l IH]; intros i w rest c c' H; simpl in H.
  - destruct H as [-> ->]. by split.
  - destruct H as (w1 & w2 & c1 & -> & (ch & -> & Hch & ->) & H2).
    apply IH in H2 as [-> Hall]. split; [done|]. by constructor.
Qed.

Lemma den_fold_alt rs : ∀ r0 i (w rest : str) c c',
  den (fold_left Alt rs r0) i w rest c c' →
  den r0 i w rest c c' ∨ ∃ r, In r rs ∧ den r i w rest c c'.
Proof.
  induction rs as [|r rs IH]; intros r0 i w rest c c' H; simpl in H.
  - by left.
  - apply IH in H as [[H|H]|(r' & Hin & H)].
    + by left.
    + right. exists r. split; [by left|done].
    + right. exists r'. split; [by right|done].
Qed.

Lemma den_alts rs i (w rest : str) c c' :
  rs ≠ [] →
  den (alts rs) i w rest c c' → ∃ r, In r rs ∧ den r i w rest c c'.
Proof.
  destruct rs as [|r0 rs]; [done|]. intros _ H. simpl in H.
  apply den_fold_alt in H as [H|(r & Hin & H)].
  - exists r0. split; [by left|done].
  - exists r. split; [by right|done].
Qed.

Lemma lower_canon c : lower (canon c) = lower c.
Proof.
  destruct c as [[] [] [] [] [] [] [] []]; vm_compute; reflexivity.
Qed.

(** A lower-case letter or a digit is what any character equal to it up
    to case becomes in lower case. *)
Lemma ci_eqb_lower x y :
  in_range 97 122 y || is_digit y = true → ci_eqb x y = true → lower x = y.
Proof.
  intros Hy H. unfold ci_eqb, ch_eqb in H. apply Ascii.eqb_eq in H.
  rewrite <- (lower_canon x), H, lower_canon.
  revert Hy. destruct y as [[] [] [] [] [] [] [] []]; vm_compute; (reflexivity || discriminate).
Qed.

Lemma ci_eqb_dot x : ci_eqb x "." = true → x = "."%char.
Proof.
  destruct x as [[] [] [] [] [] [] [] []]; vm_compute; (reflexivity || discriminate).
Qed.

Lemma extensions_lower e :
  In e EXTENSIONS → Forall (λ y, in_range 97 122 y || is_digit y = true) (lit e).
Proof.
  intros Hin. apply (proj1 (Forall_forall (λ e, Forall (λ y, in_range 97 122 y || is_digit y = true) (lit e)) EXTENSIONS)); [|by apply list_elem_of_In].
  repeat (apply Forall_cons_2; [repeat (apply Forall_cons_2; [vm_compute; reflexivity|]); apply Forall_nil_2|]).
  apply Forall_nil_2.
Qed.

Lemma name_char_not_space c : is_name_char c = true → is_space c = false.
Proof.
  destruct c as [[] [] [] [] [] [] [] []]; vm_compute; (reflexivity || discriminate).
Qed.

Lemma lower_digit_not_space c :
  in_range 97 122 (lower c) || is_digit (lower c) = true → is_space c = false.
Proof.
  destruct c as [[] [] [] [] [] [] [] []]; vm_compute; (reflexivity || discriminate).
Qed.

Lemma trim_end_id (s : str) :
  (∀ x t, rev s = x :: t → is_space x = false) → trim_end s = s.
Proof.
  intros H. unfold trim_end. rewrite trim_start_id by done. apply rev_involutive.
Qed.

(** What the attachment pattern matches. *)
Lemma media_match_shape (line m : str) :
  media_match line = Some m →
  (∃ pre post, line = pre ++ m ++ post) ∧ attachment_shaped m ∧ trim m = m.
Proof.
  unfold media_match.
  destruct (search ATTACHMENT_REGEXP 0 line) as [[[[b en] m'] c]|] eqn:Hs; [|done].
  intros [= ->].
  apply search_sound_pos in Hs as (pre & post & -> & _ & Hd); [|done].
  split; [by exists pre, post|].
  destruct Hd as (c1 & Hd & _).
  destruct Hd as (stem & w2 & c2 & -> & (Hstem & Hlen & _) & Hd).
  destruct Hd as (dot & w3 & c3 & -> & (ch & -> & Hdot & _) & Hd).
  destruct Hd as (ext & w4 & c4 & -> & Hd & (-> & _)).
  apply ci_eqb_dot in Hdot as ->.
  apply den_alts in Hd as (r & Hin & Hd); [|done].
  apply in_map_iff in Hin as (e & <- & Hin).
  apply den_word in Hd as [_ Hall].
  pose proof (extensions_lower e Hin) as Hlow.
  assert (toLowerCase ext = lit e ∧
          Forall (λ x, in_range 97 122 (lower x) || is_digit (lower x) = true) ext)
    as [Hext Hextl].
  { clear -Hall Hlow. induction Hall as [|x y w l Hxy Hall IH]; [done|].
    apply Forall_cons in Hlow as [Hy Hl]. destruct (IH Hl) as [IH1 IH2].
    pose proof (ci_eqb_lower x y Hy Hxy) as Hx. split.
    - simpl. by rewrite Hx, <- IH1.
    - constructor; [by rewrite Hx|done]. }
  rewrite app_nil_r.
  assert (stem ≠ []) as Hne by (intros ->; simpl in Hlen; lia).
  split.
  - exists stem, ext, e. by repeat split.
  - unfold trim. rewrite trim_start_id.
    + apply trim_end_id. intros x t Hrev.
      rewrite !rev_app_distr in Hrev. simpl in Hrev.
      destruct (rev ext) as [|z zs] eqn:Hz.
      * rewrite <- app_assoc in Hrev. simpl in Hrev. by injection Hrev as <- _.
      * rewrite <- !app_assoc in Hrev. simpl in Hrev. injection Hrev as <- _.
        apply lower_digit_not_space.
        assert (z ∈ ext) as Hzin.
        { apply list_elem_of_In, in_rev, list_elem_of_In. rewrite Hz. by left. }
        by apply (proj1 (Forall_forall _ _) Hextl).
    + intros x t Hx. destruct stem as [|s0 stem]; [done|].
      simpl in Hx. injection Hx as <- _. apply Forall_cons in Hstem as [Hs0 _].
      by apply name_char_not_space.
Qed.

(** X22.  The attachment name found in a line is a piece of that line: a
    non-empty run of letters, digits, dots, underscores and hyphens, a dot,
    and an extension that is one of the listed ones up to case; it is the
    matched text itself, which trimming leaves as it is. *)
Theorem attachment_name_shape (line f : str) :
  file_name line = Some f →
  (∃ pre post, line = pre ++ f ++ post) ∧ attachment_shaped f
  ∧ media_match line = Some f.
Proof.
  unfold file_name. destruct (media_match line) as [m|] eqn:Hm; simpl; [|done].
  destruct (media_match_shape _ _ Hm) as (Hpiece & Hshape & Htrim).
  rewrite Htrim. destruct m as [|c m]; [done|]. by intros [= <-].
Qed.

End AttachmentFacts.

Lemma attachment_name_shape_witness :
  (∃ pre post, lit "see IMG-1.JPG (file attached)" = pre ++ lit "IMG-1.JPG" ++ post)
  ∧ attachment_shaped (lit "IMG-1.JPG")
  ∧ media_match (lit "see IMG-1.JPG (file attached)") = Some (lit "IMG-1.JPG").
Proof.
  assert (file_name (lit "see IMG-1.JPG (file attached)") = Some (lit "IMG-1.JPG")) as H
    by (vm_compute; reflexivity).
  exact (attachment_name_shape _ _ H).
Defined.

(* ===================================================================== *)
(** * The guess of the user's own name *)
(* ===================================================================== *)

Section DetectFacts.

Import View Detect.

Lemma str_eqb_neq (a b : str) : str_eqb a b = false ↔ a ≠ b.
Proof.
  rewrite <- str_eqb_eq. by destruct (str_eqb a b).
Qed.

Lemma own_set_prop (cs : props) k v k' :
  own (set_prop cs k v) k' = if str_eqb k k' then Some v else own cs k'.
Proof.
  induction cs as [|[k0 v0] cs IH]; simpl.
  - done.
  - destruct (str_eqb k0 k) eqn:E0; simpl.
    + apply str_eqb_eq in E0 as ->. by destruct (str_eqb k k').
    + rewrite IH. destruct (str_eqb k0 k') eqn:E1; [|done].
      apply str_eqb_eq in E1 as ->. destruct (str_eqb k k') eqn:E2; [|done].
      apply str_eqb_eq in E2 as ->. apply str_eqb_neq in E0. done.
Qed.

Lemma own_elem (cs : props) k v : own cs k = Some v → (k, v) ∈ cs.
Proof.
  induction cs as [|[k0 v0] cs IH]; simpl; [done|].
  destruct (str_eqb k0 k) eqn:E.
  - apply str_eqb_eq in E as ->. intros [= ->]. by left.
  - intros H. right. by apply IH.
Qed.

Lemma set_prop_keys (cs : props) k v :
  map fst (set_prop cs k v)
  = match own cs k with Some _ => map fst cs | None => map fst cs ++ [k] end.
Proof.
  induction cs as [|[k0 v0] cs IH]; simpl; [done|].
  destruct (str_eqb k0 k) eqn:E; simpl; [done|].
  rewrite IH. by destruct (own cs k).
Qed.

Lemma own_none_keys (cs : props) k : own cs k = None → k ∉ map fst cs.
Proof.
  induction cs as [|[k0 v0] cs IH]; simpl; [intros _; apply not_elem_of_nil|].
  destruct (str_eqb k0 k) eqn:E; [done|]. intros H.
  apply not_elem_of_cons. split; [|by apply IH].
  apply str_eqb_neq in E. congruence.
Qed.

Lemma elem_own (cs : props) k v :
  NoDup (map fst cs) → (k, v) ∈ cs → own cs k = Some v.
Proof.
  induction cs as [|[k0 v0] cs IH]; simpl; intros Hnd Hin.
  - by apply elem_of_nil in Hin.
  - apply NoDup_cons in Hnd as [Hk0 Hnd].
    apply elem_of_cons in Hin as [[= -> ->]|Hin].
    + by rewrite (proj2 (str_eqb_eq k0 k0) eq_refl).
    + destruct (str_eqb k0 k) eqn:E; [|by apply IH].
      apply str_eqb_eq in E as ->. exfalso. apply Hk0.
      apply list_elem_of_fmap. by exists (k, v).
Qed.

Lemma occurrences_snoc s ms m :
  occurrences s (ms ++ [m])
  = occurrences s ms + (if str_eqb (sender m) s then 1 else 0).
Proof.
  unfold occurrences. rewrite List.filter_app, length_app. simpl.
  by destruct (str_eqb (sender m) s).
Qed.

(** The object [counts] after a run over messages none of whose senders is
    an inherited name: one property for each sender seen, holding the number
    of its messages. *)
Lemma counts_after (ms : list ChatMessage) :
  Forall (λ m, inherited (sender m) = false) ms →
  let cs := fold_left (λ counts m, bump_prop counts (sender m)) ms [] in
  NoDup (map fst cs)
  ∧ ∀ k, own cs k = match occurrences k ms with
                    | 0 => None
                    | S n => Some (Count (S n))
                    end.
Proof.
  induction ms as [|m ms IH] using rev_ind; intros Hall cs.
  - split; [constructor|done].
  - apply Forall_app in Hall as [Hms Hm]. apply Forall_cons in Hm as [Hm _].
    cbv beta in Hm. subst cs. rewrite fold_left_app. simpl.
    destruct (IH Hms) as [Hnd Hown].
    set (cs := fold_left _ ms []) in *. clearbody cs.
    unfold bump_prop.
    assert (str_eqb (sender m) (lit "__proto__") = false) as ->.
    { apply str_eqb_neq. intros E. rewrite E in Hm. by vm_compute in Hm. }
    rewrite Hm. split.
    + rewrite set_prop_keys. destruct (own cs (sender m)) eqn:E; [done|].
      apply NoDup_app. split; [done|]. split; [|apply NoDup_singleton].
      intros x Hx ->%list_elem_of_singleton. by apply (own_none_keys _ _ E).
    + intros k. rewrite own_set_prop, occurrences_snoc.
      destruct (str_eqb (sender m) k) eqn:E.
      * apply str_eqb_eq in E as <-. rewrite Hown.
        destruct (occurrences (sender m) ms) as [|n]; simpl; [done|].
        rewrite ?Nat.add_1_r. done.
      * rewrite Hown, Nat.add_0_r. done.
Qed.

Lemma insert_by_index_elem x (l : props) e :
  e ∈ insert_by_index x l ↔ e = x ∨ e ∈ l.
Proof.
  induction l as [|y l IH]; simpl.
  - rewrite list_elem_of_singleton. split; [by left|]. intros [?|H]; [done|].
    by apply elem_of_nil in H.
  - destruct (_ <? _)%N; rewrite !elem_of_cons; [rewrite IH|]; tauto.
Qed.

Lemma entries_elem (cs : props) e : e ∈ entries cs ↔ e ∈ cs.
Proof.
  unfold entries. rewrite elem_of_app.
  assert (∀ l : props, e ∈ foldr insert_by_index [] l ↔ e ∈ l) as Hsort.
  { induction l as [|x l IH]; simpl; [done|].
    by rewrite insert_by_index_elem, elem_of_cons, IH. }
  rewrite Hsort, !list_elem_of_In, !filter_In, negb_true_iff.
  destruct (is_index e); intuition congruence.
Qed.

Lemma insert_by_count_head x (l : props) :
  Forall (λ e, ∃ n, e.2 = Count n) (x :: l) →
  ∃ y rest, insert_by_count x l = y :: rest
            ∧ (y = x ∨ head l = Some y)
            ∧ count_of x ≤ count_of y
            ∧ (∀ z, head l = Some z → count_of z ≤ count_of y).
Proof.
  intros Hall. destruct l as [|z l]; simpl.
  - exists x, []. repeat split; [by left|lia|done].
  - apply Forall_cons in Hall as [[nx Hx] Hall].
    apply Forall_cons in Hall as [[nz Hz] _].
    unfold comes_after, count_of. rewrite Hx, Hz.
    destruct (nx <? nz) eqn:E.
    + apply Nat.ltb_lt in E. eexists _, _. repeat split; [by right|rewrite Hz; lia|].
      by intros ? [= <-].
    + apply Nat.ltb_ge in E. eexists _, _. repeat split; [by left|rewrite Hx; lia|].
      intros ? [= <-]. rewrite Hx, Hz. lia.
Qed.

Lemma insert_by_count_elem x (l : props) e :
  e ∈ insert_by_count x l ↔ e = x ∨ e ∈ l.
Proof.
  induction l as [|y l IH]; simpl.
  - rewrite list_elem_of_singleton. split; [by left|]. intros [?|H]; [done|].
    by apply elem_of_nil in H.
  - destruct (comes_after x y); rewrite !elem_of_cons; [rewrite IH|]; tauto.
Qed.

Lemma sort_by_count_elem (l : props) e : e ∈ sort_by_count l ↔ e ∈ l.
Proof.
  induction l as [|x l IH]; simpl; [done|].
  by rewrite insert_by_count_elem, elem_of_cons, IH.
Qed.

(** The head of the sorted array has a maximal count. *)
Lemma sort_by_count_head (l : props) :
  Forall (λ e, ∃ n, e.2 = Count n) l → l ≠ [] →
  ∃ e, head (sort_by_count l) = Some e ∧ e ∈ l
       ∧ ∀ x, x ∈ l → count_of x ≤ count_of e.
Proof.
  induction l as [|x l IH]; [done|]. intros Hall _. simpl.
  apply Forall_cons in Hall as [Hx Hall].
  destruct (insert_by_count_head x (sort_by_count l)) as (y & rest & -> & Hy & Hxy & Hmax).
  { constructor; [done|]. apply Forall_forall. intros e He.
    apply (proj1 (sort_by_count_elem _ _)) in He.
    rewrite Forall_forall in Hall. by apply Hall. }
  exists y. simpl. split; [done|].
  destruct l as [|x' l].
  - simpl in Hy. destruct Hy as [->|?]; [|done].
    split; [by left|]. by intros ? ->%list_elem_of_singleton.
  - destruct IH as (e & He & Hin & Hle); [done..|].
    specialize (Hmax e He). split.
    + destruct Hy as [->|Hy]; [by left|]. right. congruence.
    + intros z [->|Hz]%elem_of_cons; [done|]. specialize (Hle z Hz). lia.
Qed.

(** X23.  When none of the first 300 senders is a name that objects
    inherit, [detectMeSender] on a non-empty list sets the name to a sender
    that has the most messages among the first 300. *)
Theorem detectMeSender_picks_the_most_frequent (messages : list ChatMessage) :
  messages ≠ [] →
  Forall (λ m, inherited (sender m) = false) (take 300 messages) →
  ∃ s, detectMeSender messages = SetMeSender s
       ∧ 0 < occurrences s (take 300 messages)
       ∧ ∀ s', occurrences s' (take 300 messages) ≤ occurrences s (take 300 messages).
Proof.
  intros Hne Hall. unfold detectMeSender.
  destruct messages as [|m0 messages]; [done|].
  set (ms := take 300 (m0 :: messages)) in *.
  assert (m0 ∈ ms) as Hm0 by (subst ms; simpl; by left).
  clearbody ms.
  destruct (counts_after ms Hall) as [Hnd Hown].
  set (cs := fold_left _ ms []) in *. clearbody cs.
  assert (∀ e, e ∈ cs → e.2 = Count (occurrences e.1 ms) ∧ 0 < occurrences e.1 ms)
    as Hval.
  { intros [k v] He. apply (elem_own _ _ _ Hnd) in He. rewrite Hown in He. simpl.
    destruct (occurrences k ms); [done|]. injection He as <-. split; [done|lia]. }
  assert (Forall (λ e, ∃ n, e.2 = Count n) (entries cs)) as Hcounts.
  { apply Forall_forall. intros e He.
    apply (proj1 (entries_elem _ _)) in He. exists (occurrences e.1 ms).
    by apply Hval. }
  assert (consistent (entries cs) = true) as ->.
  { unfold consistent. apply orb_true_iff. left. apply forallb_forall.
    intros e He%list_elem_of_In.
    destruct (proj1 (Forall_forall _ _) Hcounts e He) as [n ->]. done. }
  assert (entries cs ≠ []) as Hes.
  { assert (0 < occurrences (sender m0) ms) as Hpos.
    { unfold occurrences. assert (m0 ∈ List.filter (λ m, str_eqb (sender m) (sender m0)) ms) as Hin.
      { apply list_elem_of_In, filter_In. split; [by apply list_elem_of_In|].
        by apply str_eqb_eq. }
      destruct (List.filter _ ms); [by apply elem_of_nil in Hin|simpl; lia]. }
    specialize (Hown (sender m0)). destruct (occurrences (sender m0) ms); [lia|].
    apply own_elem in Hown. apply (proj2 (entries_elem _ _)) in Hown. intros E. rewrite E in Hown.
    by apply elem_of_nil in Hown. }
  destruct (sort_by_count_head _ Hcounts Hes) as (e & Hhead & Hin & Hmax).
  destruct (sort_by_count (entries cs)) as [|e' rest]; [done|]. injection Hhead as ->.
  apply (proj1 (entries_elem _ _)) in Hin. destruct (Hval e Hin) as [He Hpos].
  exists e.1. split; [done|]. split; [done|].
  intros s'. specialize (Hown s').
  destruct (occurrences s' ms) as [|n] eqn:Hs'; [lia|].
  apply own_elem in Hown. apply (proj2 (entries_elem _ _)) in Hown. apply Hmax in Hown.
  unfold count_of in Hown. rewrite He in Hown. simpl in Hown. lia.
Qed.

End DetectFacts.

Lemma detectMeSender_picks_the_most_frequent_witness :
  ∃ s, Detect.detectMeSender three_messages = Detect.SetMeSender s
       ∧ 0 < View.occurrences s (take 300 three_messages)
       ∧ ∀ s', View.occurrences s' (take 300 three_messages)
               ≤ View.occurrences s (take 300 three_messages).
Proof.
  apply detectMeSender_picks_the_most_frequent; [done|].
  repeat (apply Forall_cons_2; [vm_compute; reflexivity|]). apply Forall_nil_2.
Defined.

(* ===================================================================== *)
(** * Timestamps of emitted records and the date of a bubble *)
(* ===================================================================== *)

Section StampFacts.

Import RegexSem RegexFacts Stamp.

Lemma den_within P r : ∀ i (w rest : str) c c',
  within P r = true → den r i w rest c c' → Forall (λ ch, P ch = true) w.
Proof.
  assert (∀ p, forallb (λ n, implb (p (ascii_of_nat n)) (P (ascii_of_nat n))) (seq 0 256)
               = true → ∀ ch, p ch = true → P ch = true) as Hclass.
  { intros p Hp ch Hch. rewrite forallb_forall in Hp.
    specialize (Hp (nat_of_ascii ch)). rewrite ascii_nat_embedding, Hch in Hp.
    apply Hp, in_seq. pose proof (nat_ascii_bounded ch). lia. }
  induction r as [|p|r1 IH1 r2 IH2|r1 IH1 r2 IH2|p lo hi g|g r1 IH1| |];
    intros i w rest c c' Hw Hd; cbn [within den] in *.
  - destruct Hd as [-> _]. constructor.
  - destruct Hd as (ch & -> & Hch & _). constructor; [by eapply Hclass|constructor].
  - apply andb_true_iff in Hw as [Hw1 Hw2].
    destruct Hd as (w1 & w2 & c1 & -> & Hd1 & Hd2).
    apply Forall_app. split; [by eapply IH1|by eapply IH2].
  - apply andb_true_iff in Hw as [Hw1 Hw2].
    destruct Hd as [Hd|Hd]; [by eapply IH1|by eapply IH2].
  - destruct Hd as (Hall & _). eapply Forall_impl; [exact Hall|].
    intros ch. by apply Hclass.
  - destruct Hd as (c1 & Hd & _). by eapply IH1.
  - destruct Hd as [-> _]. constructor.
  - destruct Hd as [-> _]. constructor.
Qed.

Lemma head_match_timestamp line ts author body :
  head_match line = Some (ts, author, body) →
  ∃ i rest c c', den TIMESTAMP i ts rest c c'.
Proof.
  unfold head_match.
  destruct (search MESSAGE_REGEXP 0 line) as [[[[b e] m] c]|] eqn:Hs; [|done].
  intros [= <- <- <-].
  apply search_sound in Hs as [rest Hd]; [|done].
  unfold MESSAGE_REGEXP in Hd. cbn [seqs foldr] in Hd.
  remember TIMESTAMP as T eqn:HT.
  cbn [den] in Hd.
  destruct Hd as (w0 & ? & c0 & _ & _ & Hd).
  destruct Hd as (wo & ? & c1 & _ & _ & Hd).
  destruct Hd as (wt & ? & c2 & _ & (cT & HdT & ->) & Hd).
  destruct Hd as (wc & ? & c3 & _ & Hc3 & Hd).
  apply den_no_group in Hc3 as ->; [|done].
  destruct Hd as (ws & ? & c4 & _ & (_ & _ & ->) & Hd).
  destruct Hd as (wa & ? & c5 & _ & (ca & (Hall & Hlen & ->) & ->) & Hd).
  destruct Hd as (? & ? & c6 & _ & Hc6 & Hd).
  apply den_no_group in Hc6 as ->; [|done].
  destruct Hd as (? & ? & c7 & _ & (? & _ & _ & ->) & Hd).
  destruct Hd as (wb & ? & c8 & _ & (cb & (_ & _ & ->) & ->) & Hd).
  destruct Hd as (? & ? & c9 & _ & (_ & _ & ->) & (_ & ->)).
  rewrite lookup_insert_ne, lookup_insert_ne, lookup_insert_eq by done. simpl.
  eauto.
Qed.

Lemma Forall_trim (P : ascii → Prop) (s : str) : Forall P s → Forall P (trim s).
Proof.
  intros H. unfold trim.
  destruct (trim_start_decompose s) as (sp & Hs & _).
  rewrite Hs in H. apply Forall_app in H as [_ H].
  destruct (trim_end_decompose (trim_start s)) as (sp' & Hs' & _).
  rewrite Hs' in H. by apply Forall_app in H as [H _].
Qed.

Lemma before_comma_index (s : str) :
  View.before_comma s = match index_from "," 0 s with
                   | Some i => take i s
                   | None => s
                   end.
Proof.
  induction s as [|x s IH]; [done|]. cbn [View.before_comma index_from].
  destruct (ch_eqb x ","); [done|]. rewrite IH.
  by destruct (index_from "," 0 s).
Qed.

Lemma cleanTimestamp_id (ts : str) :
  Forall (λ ch, is_bracket ch = false) ts → cleanTimestamp ts = ts.
Proof.
  intros H. unfold cleanTimestamp, remove_all, BRACKET_REGEXP.
  rewrite remove_all_class. induction H as [|x l Hx _ IH]; [done|].
  simpl. by rewrite Hx, IH.
Qed.

Lemma datePart_no_bracket (ts : str) :
  Forall (λ ch, is_bracket ch = false) ts →
  datePart ts = trim (View.before_comma ts).
Proof.
  intros H. unfold datePart. rewrite (cleanTimestamp_id _ H), before_comma_index.
  destruct (index_from "," 0 ts); [|done].
  unfold substring. by rewrite Nat.sub_0_r, drop_0.
Qed.

Lemma timestamp_char_no_bracket c : is_timestamp_char c = true → is_bracket c = false.
Proof.
  destruct c as [[] [] [] [] [] [] [] []]; vm_compute; (reflexivity || discriminate).
Qed.

Lemma continue_message_timestamp assetMap f line m :
  timestamp (continue_message assetMap f line m) = timestamp m.
Proof.
  unfold continue_message. destruct f as [f|]; [|done].
  destruct (truthy (resolve assetMap f)); by destruct (clean f line).
Qed.

(** X24.  The timestamp of every record a call returns is made of digits,
    date separators, white space, commas, colons and the letters of AM and
    PM only; it holds no bracket, so that the date part a bubble formats is
    the key the record is grouped under. *)
Theorem bubble_date_is_group_date assetMap content offset limit st next msgs st' r :
  parseWhatsAppStringChunk assetMap content offset limit st = Some (next, msgs, st') →
  r ∈ msgs →
  ∃ m, heap st' !! r = Some m
       ∧ Forall (λ ch, is_timestamp_char ch = true) (timestamp m)
       ∧ datePart (timestamp m) = View.dateKey m.
Proof.
  intros H Hin.
  set (P := λ m : ChatMessage, Forall (λ ch, is_timestamp_char ch = true) (timestamp m)).
  assert (stable assetMap P) as Hstable.
  { intros f line m Hm. unfold P. by rewrite continue_message_timestamp. }
  assert (∀ line ts author body,
            head_match line = Some (ts, author, body) →
            P (header_message assetMap (file_name line) ts author body)) as Hhead.
  { intros line ts author body Hh. unfold P.
    apply head_match_timestamp in Hh as (i & rest & c & c' & Hd).
    assert (timestamp (header_message assetMap (file_name line) ts author body) = trim ts)
      as -> by (unfold header_message; by destruct (file_name line)).
    apply Forall_trim. eapply den_within; [|exact Hd]. vm_compute. reflexivity. }
  destruct (parse_loop_emitted assetMap P _ _ _ _ _ _ _ _ _ _ Hstable Hhead H) with (r := r)
    as (m & Hr & Hm); [|done|].
  { intros r0 Hr0. by apply elem_of_nil in Hr0. }
  exists m. split; [done|]. split; [done|].
  unfold View.dateKey. apply datePart_no_bracket.
  eapply Forall_impl; [exact Hm|]. apply timestamp_char_no_bracket.
Qed.

End StampFacts.

Lemma bubble_date_is_group_date_witness :
  ∃ m, heap demo_state !! 1 = Some m
       ∧ Forall (λ ch, is_timestamp_char ch = true) (timestamp m)
       ∧ Stamp.datePart (timestamp m) = View.dateKey m.
Proof.
  assert (parseWhatsAppStringChunk ∅ demo_text 35 Infinity
            (mkState [mkMsg (lit "1/2/23, 10:00:00 AM") (lit "Alice") (lit "Hello")
                        None None false] (Some 0))
          = Some (80, [1], demo_state)) as H by (vm_compute; reflexivity).
  assert (1 ∈ [1]) as Hin by (by left).
  exact (bubble_date_is_group_date _ _ _ _ _ _ _ _ 1 H Hin).
Defined.

(* ===================================================================== *)
(** * One slice, read off the lines that are left *)
(* ===================================================================== *)

Section SliceFacts.

Variable assetMap : gmap (list ascii) (list ascii).

Lemma spend_under limit lines :
  match spend (left_of limit lines) with
  | Some limit' => under lines limit = true ∧ limit' = left_of limit (S lines)
  | None => under lines limit = false
  end.
Proof.
  destruct limit as [n|]; simpl; [|done].
  destruct (n - lines) as [|k] eqn:E; simpl.
  - apply Nat.ltb_ge. lia.
  - split; [apply Nat.ltb_lt; lia|f_equal; lia].
Qed.

Lemma at_end_lines_of (s : str) : at_end (lines_of s) = true ↔ s = [].
Proof.
  destruct s as [|c s]; [done|]. simpl. split; [|done].
  destruct (ch_eqb c newline).
  - pose proof (lines_of_nonempty s). by destruct (lines_of s).
  - pose proof (lines_of_nonempty s). by destruct (lines_of s) as [|l [|l' ls]].
Qed.

(** The loop, from any pointer, is [slice_lines] over the lines from that
    pointer on. *)
Lemma parse_loop_slice fuel content limit ptr lines acc st :
  length content - ptr ≤ fuel →
  parse_loop assetMap fuel content limit ptr lines acc st
  = Some (slice_lines assetMap (lines_of (drop ptr content)) ptr
            (left_of limit lines) acc st).
Proof.
  revert ptr lines acc st.
  assert (∀ ptr lines acc st, length content ≤ ptr →
            slice_lines assetMap (lines_of (drop ptr content)) ptr
              (left_of limit lines) acc st = (ptr, acc, st)) as Hstop.
  { intros ptr lines acc st Hle. by rewrite drop_ge by lia. }
  induction fuel as [|fuel IH]; intros ptr lines acc st Hfuel.
  - simpl. replace (ptr <? length content) with false
      by (symmetry; apply Nat.ltb_ge; lia).
    simpl. by rewrite Hstop by lia.
  - simpl. destruct (ptr <? length content) eqn:Hp; simpl.
    2:{ apply Nat.ltb_ge in Hp. by rewrite Hstop. }
    apply Nat.ltb_lt in Hp.
    assert (drop ptr content ≠ []) as Hrest.
    { intros E. apply (f_equal length) in E. rewrite length_drop in E. simpl in E. lia. }
    assert (at_end (lines_of (drop ptr content)) = false) as Hend.
    { destruct (at_end _) eqn:E; [|done]. by apply at_end_lines_of in E. }
    pose proof (lines_of_nonempty (drop ptr content)) as Hne.
    pose proof (spend_under limit lines) as Hsp.
    destruct (under lines limit) eqn:Hu.
    2:{ destruct (lines_of (drop ptr content)) as [|l ls] eqn:El; [done|].
        cbn [slice_lines]. rewrite Hend.
        destruct (spend (left_of limit lines)); [by destruct Hsp|done]. }
    destruct (spend (left_of limit lines)) as [limit'|] eqn:Espend; [|done].
    destruct Hsp as [_ ->].
    pose proof (lines_of_first (drop ptr content)) as Hfirst.
    rewrite index_from_drop by lia.
    destruct (index_from newline 0 (drop ptr content)) as [k|] eqn:Hk; simpl.
    + apply index_from_bounds in Hk as Hkb. rewrite length_drop in Hkb.
      unfold substring. replace (ptr + k - ptr) with k by lia.
      rewrite Hfirst in Hend |- *. cbn [slice_lines]. rewrite Hend, Espend.
      rewrite length_take, length_drop, drop_drop.
      replace (S (k `min` (length content - ptr) + ptr)) with (ptr + k + 1) by lia.
      replace (ptr + S k) with (ptr + k + 1) by lia.
      destruct (trim (take k (drop ptr content))) as [|c line] eqn:Ht.
      * by rewrite IH by lia.
      * destruct (process_line assetMap (c :: line) st) as [st1 out] eqn:Hpl.
        by rewrite IH by lia.
    + unfold substring.
      rewrite (take_ge (drop ptr content)) by (rewrite length_drop; lia).
      rewrite Hfirst in Hend |- *. cbn [slice_lines]. rewrite Hend, Espend.
      rewrite length_drop.
      replace (S (length content - ptr + ptr)) with (length content + 1) by lia.
      assert (∀ l a s0, parse_loop assetMap fuel content limit (length content + 1) l a s0
                        = Some (length content + 1, a, s0)) as Hpast.
      { intros l a s0. destruct fuel; simpl;
          replace (length content + 1 <? length content) with false
            by (symmetry; apply Nat.ltb_ge; lia); done. }
      destruct (trim (drop ptr content)) as [|c line] eqn:Ht.
      * by rewrite Hpast.
      * destruct (process_line assetMap (c :: line) st) as [st1 out] eqn:Hpl.
        by rewrite Hpast.
Qed.

(** A call is [slice_lines] over the lines from the offset on. *)
Lemma parse_slice content offset limit st :
  parseWhatsAppStringChunk assetMap content offset limit st
  = Some (slice_lines assetMap (lines_of (drop offset content)) offset limit [] st).
Proof.
  unfold parseWhatsAppStringChunk. rewrite parse_loop_slice by lia.
  destruct limit as [n|]; simpl; [|done]. by rewrite Nat.sub_0_r.
Qed.

Lemma parse_slice_eq content offset limit st msgs st' :
  (slice_lines assetMap (lines_of (drop offset content)) offset limit [] st).1.2 = msgs →
  (slice_lines assetMap (lines_of (drop offset content)) offset limit [] st).2 = st' →
  parseWhatsAppStringChunk assetMap content offset limit st
  = Some ((slice_lines assetMap (lines_of (drop offset content)) offset limit [] st).1.1,
          msgs, st').
Proof.
  intros <- <-. rewrite parse_slice.
  by destruct (slice_lines assetMap _ offset limit [] st) as [[? ?] ?].
Qed.

End SliceFacts.

(* ===================================================================== *)
(** * The page: tasks, uploads and frames *)
(* ===================================================================== *)

Section PageFacts.

Import App.

Lemma parse_unbounded_at_end assetMap content p st :
  length content ≤ p →
  parseWhatsAppStringChunk assetMap content p Infinity st = Some (p, [], st).
Proof.
  intros Hle. unfold parseWhatsAppStringChunk.
  destruct (length content) as [|n] eqn:Hlen; simpl; rewrite Hlen.
  - by destruct p.
  - by replace (p <? S n) with false by (symmetry; apply Nat.ltb_ge; lia).
Qed.

(** A call followed by an unbounded call from where it stopped is the
    unbounded call. *)
Lemma parse_then_unbounded assetMap content offset limit st p1 m1 s1 p2 m2 s2 :
  parseWhatsAppStringChunk assetMap content offset limit st = Some (p1, m1, s1) →
  parseWhatsAppStringChunk assetMap content p1 Infinity s1 = Some (p2, m2, s2) →
  parseWhatsAppStringChunk assetMap content offset Infinity st = Some (p2, m1 ++ m2, s2).
Proof.
  unfold parseWhatsAppStringChunk. intros H1 H2.
  eapply parse_loop_split; [exact H1|exact H2|lia].
Qed.

(** A call that reaches the end of the text is the unbounded call. *)
Lemma parse_to_end assetMap content offset limit st p1 m1 s1 :
  parseWhatsAppStringChunk assetMap content offset limit st = Some (p1, m1, s1) →
  length content ≤ p1 →
  parseWhatsAppStringChunk assetMap content offset Infinity st = Some (p1, m1, s1).
Proof.
  intros H Hle. rewrite <- (app_nil_r m1).
  eapply parse_then_unbounded; [exact H|]. by apply parse_unbounded_at_end.
Qed.

(** A slice with a positive budget returns and moves forward. *)
Lemma parse_advances assetMap content offset n st :
  ∃ next msgs st',
    parseWhatsAppStringChunk assetMap content offset (Finite (S n)) st
      = Some (next, msgs, st')
    ∧ offset ≤ next
    ∧ (offset < length content → offset < next).
Proof.
  destruct (parse_loop_total assetMap content (length content) (Finite (S n)) offset 0 [] st)
    as (next & msgs & st' & Heq & Hle & _ & Hadv); [lia|].
  exists next, msgs, st'. split; [exact Heq|]. split; [exact Hle|].
  intros Hlt. by apply Hadv.
Qed.

Lemma begin_upload_in_order (app : Refs) :
  controllers_in_order app →
  controllers_in_order (begin_upload app) ∧ signal_aborted (begin_upload app) = false.
Proof.
  intros [Hall Hcur].
  assert (Forall (λ c, c < S (controllers app)) (aborted (begin_upload app))) as Hall'.
  { unfold begin_upload. simpl.
    destruct (abortControllerRef app) as [c|] eqn:Hc.
    - apply Forall_cons_2; [destruct (Hcur c) as [? _]; [done|lia]|].
      eapply Forall_impl; [exact Hall|]. simpl. lia.
    - eapply Forall_impl; [exact Hall|]. simpl. lia. }
  assert (controllers app ∉ aborted (begin_upload app)) as Hfresh.
  { unfold begin_upload. simpl. intros Hin.
    destruct (abortControllerRef app) as [c|] eqn:Hc.
    - apply elem_of_cons in Hin as [<-|Hin].
      + destruct (Hcur (controllers app)) as [? _]; [done|lia].
      + rewrite Forall_forall in Hall. apply Hall in Hin. lia.
    - rewrite Forall_forall in Hall. apply Hall in Hin. lia. }
  split; [split|].
  - exact Hall'.
  - simpl. intros c [= <-]. split; [lia|exact Hfresh].
  - unfold signal_aborted. simpl. by apply bool_decide_eq_false.
Qed.

Lemma signal_aborted_in_order (app : Refs) :
  controllers_in_order app → signal_aborted app = false.
Proof.
  intros [_ Hcur]. unfold signal_aborted.
  destruct (abortControllerRef app) as [c|]; [|done].
  apply bool_decide_eq_false. by destruct (Hcur c eq_refl).
Qed.

Lemma parseNext_cases up pos page :
  ∃ next msgs st',
    parseWhatsAppStringChunk (mediaMap up) (fileText up) pos (Finite (15 * 1000))
      (store (refs page)) = Some (next, msgs, st')
    ∧ pos ≤ next
    ∧ (pos < length (fileText up) → pos < next)
    ∧ parseNext up pos page =
      Some (if signal_aborted (refs page) then page
            else
              let acc := accumulatedRef (refs page) ++ msgs in
              mkPage (mkRefs st' acc (abortControllerRef (refs page))
                        (controllers (refs page)) (aborted (refs page)))
                (if (length (fileText up) <=? next) || (length acc mod (10 * 1000) =? 0)
                 then acc else messages page)
                (loading page) (error page) (cache page)
                (pending page ++ [if next <? length (fileText up) then Frame up next
                                  else AwaitSave (cacheId up) acc])).
Proof.
  destruct (parse_advances (mediaMap up) (fileText up) pos (15 * 1000 - 1)
              (store (refs page))) as (next & msgs & st' & Heq & Hle & Hadv).
  change (S (15 * 1000 - 1)) with (15 * 1000) in Heq.
  exists next, msgs, st'. split; [exact Heq|]. split; [exact Hle|]. split; [exact Hadv|].
  unfold parseNext. destruct (signal_aborted (refs page)); [done|].
  by rewrite Heq.
Qed.


Lemma parseNext_eq up pos page next msgs st' :
  signal_aborted (refs page) = false →
  parseWhatsAppStringChunk (mediaMap up) (fileText up) pos (Finite (15 * 1000))
    (store (refs page)) = Some (next, msgs, st') →
  parseNext up pos page =
  Some (let acc := accumulatedRef (refs page) ++ msgs in
        mkPage (mkRefs st' acc (abortControllerRef (refs page))
                  (controllers (refs page)) (aborted (refs page)))
          (if (length (fileText up) <=? next) || (length acc mod (10 * 1000) =? 0)
           then acc else messages page)
          (loading page) (error page) (cache page)
          (pending page ++ [if next <? length (fileText up) then Frame up next
                            else AwaitSave (cacheId up) acc])).
Proof.
  intros Hab Heq. unfold parseNext. by rewrite Hab, Heq.
Qed.

Lemma after_file_cases up page :
  failure up = None →
  ∃ n1 b1 s1,
    parseWhatsAppStringChunk (mediaMap up) (fileText up) 0 (Finite 1000)
      (store (refs page)) = Some (n1, b1, s1)
    ∧ after_file up page =
      let page1 :=
        mkPage (mkRefs s1 b1 (abortControllerRef (refs page))
                  (controllers (refs page)) (aborted (refs page)))
          b1 false (error page) (cache page) (pending page) in
      if n1 <? length (fileText up) then parseNext up n1 page1 else Some page1.
Proof.
  intros Hf.
  destruct (parse_advances (mediaMap up) (fileText up) 0 999 (store (refs page)))
    as (n1 & b1 & s1 & Heq & _ & _).
  exists n1, b1, s1. split; [exact Heq|].
  unfold after_file, processInChunks. by rewrite Hf, Heq.
Qed.

Lemma total_work_snoc r m l e c ts t :
  total_work (mkPage r m l e c (ts ++ [t])) = total_work (mkPage r m l e c ts) + work t.
Proof.
  unfold total_work. simpl. induction ts as [|x ts IH]; simpl; lia.
Qed.

Lemma total_work_delete (ts : list task) i t :
  ts !! i = Some t →
  sum_list (map work ts) = sum_list (map work (delete i ts)) + work t.
Proof.
  revert i. induction ts as [|x ts IH]; intros [|i] H; simpl in *; try done.
  - injection H as ->. lia.
  - rewrite (IH i H). lia.
Qed.

Lemma parseNext_work up pos page :
  ∃ page',
    parseNext up pos page = Some page'
    ∧ total_work page' < total_work page + work (Frame up pos)
    ∧ same_controllers (refs page) (refs page').
Proof.
  destruct (parseNext_cases up pos page) as (next & msgs & st' & _ & Hle & Hadv & ->).
  eexists. split; [reflexivity|].
  destruct (signal_aborted (refs page)).
  { split; [simpl; lia|done]. }
  cbv zeta. destruct page as [r m l e c ts]. rewrite total_work_snoc.
  split; [|done]. unfold total_work. cbn [pending refs].
  destruct (next <? length (fileText up)) eqn:Hn; cbn [work].
  - apply Nat.ltb_lt in Hn. assert (pos < next) by (apply Hadv; lia). lia.
  - lia.
Qed.

Lemma after_file_work up page :
  ∃ page',
    after_file up page = Some page'
    ∧ total_work page' < total_work page + work (AwaitFile up)
    ∧ same_controllers (refs page) (refs page').
Proof.
  destruct (failure up) as [message|] eqn:Hf.
  { unfold after_file. rewrite Hf. eexists. split; [reflexivity|].
    split; [unfold total_work; simpl; lia|done]. }
  destruct (after_file_cases up page Hf) as (n1 & b1 & s1 & _ & ->). cbv zeta.
  destruct (n1 <? length (fileText up)).
  - match goal with |- context [parseNext up n1 ?p] =>
      destruct (parseNext_work up n1 p) as (page' & -> & Hw & Hc) end.
    exists page'. split; [done|]. split; [|exact Hc].
    unfold total_work in *. simpl in *. lia.
  - eexists. split; [reflexivity|]. split; [unfold total_work; simpl; lia|done].
Qed.

(** A waiting task always runs, what it leaves to do is less than what
    there was, and it does not touch the controllers. *)
Lemma step_resume page i ok :
  i < length (pending page) →
  ∃ page',
    step (Resume i ok) page = Some page'
    ∧ total_work page' < total_work page
    ∧ same_controllers (refs page) (refs page').
Proof.
  intros Hi. apply lookup_lt_is_Some_2 in Hi as [t Ht].
  unfold step. rewrite Ht.
  pose proof (total_work_delete _ _ _ Ht) as Hsum.
  destruct page as [r m l e c ts]. simpl in *.
  set (page0 := mkPage r m l e c (delete i ts)).
  assert (total_work (mkPage r m l e c ts) = total_work page0 + work t) as Htot
    by exact Hsum.
  rewrite Htot. clear Hsum Htot.
  destruct t as [up|up|up pos|key msgs].
  - eexists. split; [reflexivity|].
    destruct (if ok then c !! cacheId up else None) as [cached|]; simpl.
    + split; [unfold total_work; simpl; lia|done].
    + split; [|done]. unfold page0. rewrite total_work_snoc.
      unfold total_work. simpl. lia.
  - apply after_file_work.
  - apply parseNext_work.
  - eexists. split; [reflexivity|].
    destruct ok; (split; [unfold total_work; simpl; lia|done]).
Qed.

Lemma run_app es1 es2 page :
  run (es1 ++ es2) page =
  match run es1 page with
  | Some page' => run es2 page'
  | None => None
  end.
Proof.
  revert page. induction es1 as [|e es1 IH]; intros page; simpl; [done|].
  by destruct (step e page).
Qed.

(** The frames of a run, one after the other, come to an end. *)
Lemma frames_end up : ∀ k pos page,
  length (fileText up) - pos ≤ k →
  pos < length (fileText up) →
  pending page = [Frame up pos] →
  ∃ n page',
    n ≤ length (fileText up) - pos
    ∧ run (replicate n (Resume 0 true)) page = Some page'
    ∧ Forall (λ t, is_frame t = false) (pending page').
Proof.
  induction k as [|k IH]; intros pos page Hk Hpos Hp; [lia|].
  destruct page as [r m l e c ts]. cbn [pending] in Hp. subst ts.
  set (page0 := mkPage r m l e c []).
  assert (step (Resume 0 true) (mkPage r m l e c [Frame up pos]) = parseNext up pos page0)
    as Hstep by reflexivity.
  destruct (parseNext_cases up pos page0) as (next & msgs & st' & _ & _ & Hadv & Hnext).
  specialize (Hadv Hpos).
  assert (∀ page', parseNext up pos page0 = Some page' →
                   run [Resume 0 true] (mkPage r m l e c [Frame up pos]) = Some page') as Hone.
  { intros page' H. cbn [run]. by rewrite Hstep, H. }
  destruct (signal_aborted (refs page0)) eqn:Hab.
  { exists 1, page0. split; [lia|]. split; [by apply Hone|constructor]. }
  cbv zeta in Hnext.
  destruct (next <? length (fileText up)) eqn:Hn.
  - apply Nat.ltb_lt in Hn.
    match type of Hnext with _ = Some ?p =>
      destruct (IH next p) as (n & page' & Hle & Hrun & Hall); [lia|done|reflexivity|] end.
    exists (S n), page'. split; [lia|]. split; [|exact Hall].
    change (replicate (S n) (Resume 0 true)) with ([Resume 0 true] ++ replicate n (Resume 0 true)).
    rewrite run_app, (Hone _ Hnext). exact Hrun.
  - eexists 1, _. split; [lia|]. split; [apply Hone; exact Hnext|].
    cbn [pending app]. by repeat constructor.
Qed.

Lemma reachable_page_in_order page :
  reachable_page page → controllers_in_order (refs page).
Proof.
  induction 1 as [cache|e page page' _ IH Hstep].
  - split; [constructor|done].
  - destruct e as [file|i ok].
    + unfold step in Hstep. destruct (input_mounted page); [|done].
      injection Hstep as <-. destruct file as [up|]; [|done].
      by apply begin_upload_in_order.
    + destruct (decide (i < length (pending page))) as [Hi|Hi].
      * destruct (step_resume page i ok Hi) as (p & Hp & _ & Hc1 & Hc2 & Hc3).
        rewrite Hp in Hstep. injection Hstep as <-.
        destruct IH as [Ha Hb]. unfold controllers_in_order.
        rewrite Hc1, Hc2, Hc3. by split.
      * unfold step in Hstep. rewrite lookup_ge_None_2 in Hstep by lia. done.
Qed.

Lemma reachable_run events : ∀ page page',
  reachable_page page → run events page = Some page' → reachable_page page'.
Proof.
  induction events as [|e events IH]; intros page page' Hr Hrun; simpl in Hrun.
  - by injection Hrun as <-.
  - destruct (step e page) as [p|] eqn:Hstep; [|done].
    eapply IH; [|exact Hrun]. by eapply reach_step.
Qed.

(** A run that is alone on the page stays so while its tasks run. *)
Lemma alone_step up st0 page i ok page' :
  failure up = None →
  alone up st0 page →
  step (Resume i ok) page = Some page' →
  alone up st0 page'.
Proof.
  intros Hf [Hab Hcases] Hstep.
  assert (signal_aborted (refs page') = false) as Hab'.
  { destruct (decide (i < length (pending page))) as [Hi|Hi].
    - destruct (step_resume page i ok Hi) as (p & Hp & _ & Hc1 & Hc2 & Hc3).
      rewrite Hp in Hstep. injection Hstep as <-.
      unfold signal_aborted in *. by rewrite Hc1, Hc3.
    - unfold step in Hstep. rewrite lookup_ge_None_2 in Hstep by lia. done. }
  split; [exact Hab'|]. clear Hab'.
  assert (∀ pos r m l e c,
            signal_aborted r = false →
            (∀ next msgs st,
               parseWhatsAppStringChunk (mediaMap up) (fileText up) pos Infinity (store r)
                 = Some (next, msgs, st) →
               parseWhatsAppStringChunk (mediaMap up) (fileText up) 0 Infinity st0
                 = Some (next, accumulatedRef r ++ msgs, st)) →
            parseNext up pos (mkPage r m l e c []) = Some page' →
            (∃ pos', pending page' = [Frame up pos']
                     ∧ ∀ next msgs st,
                         parseWhatsAppStringChunk (mediaMap up) (fileText up) pos' Infinity
                           (store (refs page')) = Some (next, msgs, st) →
                         parseWhatsAppStringChunk (mediaMap up) (fileText up) 0 Infinity st0
                           = Some (next, accumulatedRef (refs page') ++ msgs, st))
            ∨ (Forall (λ t, is_save t = true) (pending page')
               ∧ messages page' = accumulatedRef (refs page')
               ∧ ∃ next,
                   parseWhatsAppStringChunk (mediaMap up) (fileText up) 0 Infinity st0
                     = Some (next, accumulatedRef (refs page'), store (refs page'))))
    as Hframe.
  { clear. intros pos r m l e c Hab Hinv Hnext.
    destruct (parse_advances (mediaMap up) (fileText up) pos (15 * 1000 - 1) (store r))
      as (n2 & b2 & s2 & H2 & _ & _).
    change (S (15 * 1000 - 1)) with (15 * 1000) in H2.
    rewrite (parseNext_eq up pos (mkPage r m l e c []) n2 b2 s2 Hab H2) in Hnext.
    apply (inj Some) in Hnext as <-. cbv zeta.
    cbn [pending refs accumulatedRef store messages app].
    destruct (n2 <? length (fileText up)) eqn:Hn2.
    - left. exists n2. split; [done|]. intros next msgs st H3.
      rewrite <- app_assoc. apply Hinv.
      eapply parse_then_unbounded; [exact H2|exact H3].
    - apply Nat.ltb_ge in Hn2. right.
      rewrite (proj2 (Nat.leb_le _ _) Hn2). cbn [orb].
      split; [by repeat constructor|]. split; [done|]. exists n2.
      apply Hinv. by eapply parse_to_end. }
  destruct page as [r m l e c ts]. cbn [pending refs store cache messages accumulatedRef] in *.
  destruct Hcases as [(-> & Hst & Hc)|[(-> & Hst)|[(pos & -> & Hinv)|(Hall & Hm & next & Hp)]]].
  - destruct i as [|i]; [|done].
    change (step (Resume 0 ok) (mkPage r m l e c [AwaitCache up]))
      with (Some (after_cache up (if ok then c !! cacheId up else None)
                    (mkPage r m l e c []))) in Hstep.
    rewrite Hc in Hstep.
    assert ((if ok then None else None) = @None (list ChatMessage)) as E by (by destruct ok).
    rewrite E in Hstep. injection Hstep as <-. right. left. by split.
  - destruct i as [|i]; [|done].
    change (step (Resume 0 ok) (mkPage r m l e c [AwaitFile up]))
      with (after_file up (mkPage r m l e c [])) in Hstep.
    destruct (after_file_cases up (mkPage r m l e c []) Hf) as (n1 & b1 & s1 & H1 & Heq).
    rewrite Heq in Hstep. cbv zeta in Hstep.
    cbn [refs store abortControllerRef controllers aborted error cache pending] in *.
    rewrite Hst in H1.
    destruct (n1 <? length (fileText up)) eqn:Hn1.
    + right. right. eapply Hframe; [| |exact Hstep]; [exact Hab|].
      intros next msgs st H3. eapply parse_then_unbounded; [exact H1|exact H3].
    + injection Hstep as <-. apply Nat.ltb_ge in Hn1.
      right. right. right. split; [constructor|]. split; [done|].
      exists n1. by eapply parse_to_end.
  - destruct i as [|i]; [|done].
    change (step (Resume 0 ok) (mkPage r m l e c [Frame up pos]))
      with (parseNext up pos (mkPage r m l e c [])) in Hstep.
    right. right. eapply Hframe; [| |exact Hstep]; [exact Hab|exact Hinv].
  - unfold step in Hstep. cbn [pending] in Hstep.
    destruct (ts !! i) as [t|] eqn:Ht; [|done].
    assert (is_save t = true) as Hsave.
    { rewrite Forall_forall in Hall. apply Hall. by eapply list_elem_of_lookup_2. }
    destruct t as [| | |key msgs]; try done.
    assert (Forall (λ t, is_save t = true) (delete i ts)) as Hall'
      by (by apply Forall_delete).
    injection Hstep as <-. right. right. right.
    destruct ok; (split; [exact Hall'|]); (split; [exact Hm|]); by exists next.
Qed.

Lemma alone_run up st0 events : ∀ page page',
  failure up = None →
  forallb is_resume events = true →
  alone up st0 page →
  run events page = Some page' →
  alone up st0 page'.
Proof.
  induction events as [|e events IH]; intros page page' Hf Hres Hal Hrun; simpl in *.
  - by injection Hrun as <-.
  - apply andb_true_iff in Hres as [He Hres].
    destruct (step e page) as [p|] eqn:Hstep; [|done].
    destruct e as [file|i ok]; [done|].
    eapply IH; [done|done| |exact Hrun]. by eapply alone_step.
Qed.

(** Choosing a file that the cache does not hold: the handler runs up to
    the cache, the cache answers, and the next task reads the file. *)
Lemma upload_then_read up r m l e c ts :
  input_mounted (mkPage r m l e c ts) = true →
  c !! cacheId up = None →
  run [Select (Some up); Resume (length ts) true] (mkPage r m l e c ts)
  = Some (mkPage (begin_upload r) [] true None c (ts ++ [AwaitFile up]))
  ∧ step (Resume (length ts) true)
      (mkPage (begin_upload r) [] true None c (ts ++ [AwaitFile up]))
    = after_file up (mkPage (begin_upload r) [] true None c ts).
Proof.
  intros Hin Hc.
  assert (∀ t : task, (ts ++ [t]) !! length ts = Some t) as Hlook.
  { intros t. by rewrite lookup_app_r, Nat.sub_diag by lia. }
  assert (∀ t : task, delete (length ts) (ts ++ [t]) = ts) as Hdel.
  { intros t. clear. induction ts as [|x ts' IH]; [done|].
    cbn [length app]. change (delete (S (length ts')) (x :: ts' ++ [t]))
      with (x :: delete (length ts') (ts' ++ [t])). by rewrite IH. }
  split.
  - cbn [run step]. rewrite Hin. cbn [handleFileUpload refs cache pending].
    cbn [step pending]. rewrite Hlook. cbn [cache]. rewrite Hc, Hdel. reflexivity.
  - cbn [step pending]. rewrite Hlook, Hdel. reflexivity.
Qed.

End PageFacts.

(* ===================================================================== *)
(** * Termination and progress of one slice and of the frames *)
(* ===================================================================== *)

(** C9.  One slice always returns; with a positive line budget and an offset
    inside the text the returned [nextCharIndex] lies strictly beyond the
    offset and is at most [content.length + 1]; the frames that resume from
    [nextCharIndex], run one after the other from any state of the page,
    come to an end after at most [content.length - offset] of them; and
    whatever else waits on the page, every task that runs leaves less to do
    than there was, so that every schedule of the waiting tasks is finite. *)
Theorem slice_terminates_and_advances assetMap content offset limit st :
  positive limit →
  (∃ next msgs st',
     parseWhatsAppStringChunk assetMap content offset limit st = Some (next, msgs, st')
     ∧ (offset < length content → offset < next ≤ length content + 1))
  ∧ (offset < length content →
     ∀ key failure page,
       App.pending page = [App.Frame (App.mkUpload key content assetMap failure) offset] →
       ∃ n page',
         n ≤ length content - offset
         ∧ App.run (replicate n (App.Resume 0 true)) page = Some page'
         ∧ Forall (λ t, App.is_frame t = false) (App.pending page'))
  ∧ (∀ page i ok,
       i < length (App.pending page) →
       ∃ page', App.step (App.Resume i ok) page = Some page'
                ∧ App.total_work page' < App.total_work page).
Proof.
  intros Hpos. split; [|split].
  - destruct (parse_loop_total assetMap content (length content) limit offset 0 [] st)
      as (n & m & s & Heq & Hle & Hmax & Hadv); [lia|].
    exists n, m, s. split; [exact Heq|]. intros Hlt.
    assert (under 0 limit = true) as Hu.
    { destruct limit as [[|k]|]; simpl in *; done. }
    specialize (Hadv Hlt Hu). lia.
  - intros Hlt key failure page Hp.
    apply (frames_end (App.mkUpload key content assetMap failure) (length content - offset));
      [done|exact Hlt|exact Hp].
  - intros page i ok Hi.
    destruct (step_resume page i ok Hi) as (page' & Hstep & Hwork & _).
    by exists page'.
Qed.

Lemma slice_terminates_and_advances_witness :
  positive (Finite 1)
  ∧ ((∃ next msgs st',
       parseWhatsAppStringChunk ∅ two_lines 0 (Finite 1) (mkState [] None)
         = Some (next, msgs, st')
       ∧ (0 < length two_lines → 0 < next ≤ length two_lines + 1))
     ∧ (0 < length two_lines →
        ∀ key failure page,
          App.pending page = [App.Frame (App.mkUpload key two_lines ∅ failure) 0] →
          ∃ n page',
            n ≤ length two_lines - 0
            ∧ App.run (replicate n (App.Resume 0 true)) page = Some page'
            ∧ Forall (λ t, App.is_frame t = false) (App.pending page'))
     ∧ (∀ page i ok,
          i < length (App.pending page) →
          ∃ page', App.step (App.Resume i ok) page = Some page'
                   ∧ App.total_work page' < App.total_work page)).
Proof.
  split; [exact I|].
  apply (slice_terminates_and_advances ∅ two_lines 0 (Finite 1) (mkState [] None)).
  exact I.
Defined.

(* ===================================================================== *)
(** * A second upload *)
(* ===================================================================== *)

Section UploadFacts.

Import App.

(** Nothing before the first slice of a run touches the store: the open
    record of the previous run is still [lastMessageRef.current]. *)
Lemma begin_upload_keeps_store (app : Refs) :
  store (begin_upload app) = store app.
Proof. reflexivity. Qed.

(** The first two slices of [first_file], from the empty store: the first
    returns no record, the second one Al's, and text is left. *)
Lemma first_file_slices :
  parseWhatsAppStringChunk (mediaMap first_file) (fileText first_file) 0
    (Finite 1000) (mkState [] None)
  = Some (first_slice_end, [], mkState [] None)
  ∧ (first_slice_end <? length (fileText first_file)) = true
  ∧ parseWhatsAppStringChunk (mediaMap first_file) (fileText first_file) first_slice_end
      (Finite (15 * 1000)) (mkState [] None)
    = Some (second_slice_end, [0],
            mkState [mkMsg (lit "1/2/23, 10:00") (lit "Al") (lit "Hi") None None false]
              (Some 0))
  ∧ (second_slice_end <? length (fileText first_file)) = true
  ∧ (length (fileText first_file) <=? second_slice_end) = false.
Proof.
  set (al := mkMsg (lit "1/2/23, 10:00") (lit "Al") (lit "Hi") None None false).
  assert ((slice_lines ∅ (lines_of (drop 0 (fileText first_file))) 0 (Finite 1000) []
             (mkState [] None)).1.2 = []) as A1 by (vm_compute; reflexivity).
  assert ((slice_lines ∅ (lines_of (drop 0 (fileText first_file))) 0 (Finite 1000) []
             (mkState [] None)).2 = mkState [] None) as A2 by (vm_compute; reflexivity).
  assert ((slice_lines ∅ (lines_of (drop first_slice_end (fileText first_file)))
             first_slice_end (Finite (15 * 1000)) [] (mkState [] None)).1.2 = [0]) as B1
    by (vm_compute; reflexivity).
  assert ((slice_lines ∅ (lines_of (drop first_slice_end (fileText first_file)))
             first_slice_end (Finite (15 * 1000)) [] (mkState [] None)).2
          = mkState [al] (Some 0)) as B2 by (vm_compute; reflexivity).
  split; [|split; [|split; [|split]]].
  - exact (parse_slice_eq ∅ (fileText first_file) 0 (Finite 1000) (mkState [] None)
             _ _ A1 A2).
  - vm_compute; reflexivity.
  - exact (parse_slice_eq ∅ (fileText first_file) first_slice_end (Finite (15 * 1000))
             (mkState [] None) _ _ B1 B2).
  - vm_compute; reflexivity.
  - vm_compute; reflexivity.
Qed.

(** Reading [first_file] on the initial page leaves a frame waiting. *)
Lemma first_file_read :
  after_file first_file (mkPage (begin_upload initial_refs) [] true None ∅ [])
  = Some (mkPage
            (mkRefs (mkState [mkMsg (lit "1/2/23, 10:00") (lit "Al") (lit "Hi")
                                None None false] (Some 0))
               [0] (Some 0) 1 [])
            [] false None ∅ [Frame first_file second_slice_end]).
Proof.
  destruct first_file_slices as (P1 & L1 & P2 & L2 & L3).
  destruct (after_file_cases first_file
              (mkPage (begin_upload initial_refs) [] true None ∅ []) eq_refl)
    as (n1 & b1 & s1 & H1 & ->).
  change (store (refs (mkPage (begin_upload initial_refs) [] true None ∅ [])))
    with (mkState [] None) in H1.
  rewrite P1 in H1. apply (inj Some) in H1.
  rewrite !pair_equal_spec in H1. destruct H1 as [[<- <-] <-].
  cbv zeta. rewrite L1.
  erewrite parseNext_eq; [| |exact P2]; [|reflexivity].
  cbv zeta. rewrite L2, L3. reflexivity.
Qed.

(** C4, the code at the failing input.  The first transcript has no header
    among its first 1000 lines, so [state.messages] is empty and the file
    input is rendered again while the frames go on; its second slice makes
    Al's record the open one and leaves a frame waiting.  A second
    transcript is chosen then, whose first line is not a header.  When the
    second run comes to its first slice [lastMessageRef.current] still
    refers to Al's record, and the slice appends that line to it. *)
Theorem second_upload_extends_previous_record :
  let al t := mkMsg (lit "1/2/23, 10:00") (lit "Al") t None None false in
  let bo := mkMsg (lit "1/2/23, 10:01") (lit "Bo") (lit "Yo") None None false in
  ∃ page1 page2 page3,
    run [Select (Some first_file); Resume 0 true; Resume 0 true] (initial ∅) = Some page1
    ∧ shown page1 = (true, mkState [al (lit "Hi")] (Some 0), [0], [],
                     [Frame first_file second_slice_end])
    ∧ run [Select (Some second_file); Resume 1 true] page1 = Some page2
    ∧ shown page2 = (false, mkState [al (lit "Hi")] (Some 0), [], [],
                     [Frame first_file second_slice_end; AwaitFile second_file])
    ∧ step (Resume 1 true) page2 = Some page3
    ∧ shown page3 = (false,
                     mkState [al (lit "Hi" ++ [newline] ++ lit "orphan line"); bo] (Some 1),
                     [1], [1], [Frame first_file second_slice_end]).
Proof.
  intros al bo.
  set (st1 := mkState [al (lit "Hi")] (Some 0)).
  set (st3 := mkState [al (lit "Hi" ++ [newline] ++ lit "orphan line"); bo] (Some 1)).
  set (refs1 := mkRefs st1 [0] (Some 0) 1 []).
  set (frame := Frame first_file second_slice_end).
  exists (mkPage refs1 [] false None ∅ [frame]),
         (mkPage (begin_upload refs1) [] true None ∅ [frame; AwaitFile second_file]),
         (mkPage (mkRefs st3 [1] (Some 1) 2 [0]) [1] false None ∅ [frame]).
  destruct (upload_then_read first_file initial_refs [] false None ∅ []
              eq_refl (lookup_empty _)) as [Ha Hb].
  destruct (upload_then_read second_file refs1 [] false None ∅ [frame]
              eq_refl (lookup_empty _)) as [Hc Hd].
  split; [|split; [reflexivity|split; [exact Hc|split; [reflexivity|split; [|reflexivity]]]]].
  - change [Select (Some first_file); Resume 0 true; Resume 0 true]
      with ([Select (Some first_file); Resume 0 true] ++ [Resume 0 true]).
    rewrite run_app. change (initial ∅) with (mkPage initial_refs [] false None ∅ []).
    change (Resume 0 true) with (Resume (length (@nil task)) true).
    rewrite Ha. cbn [run]. rewrite Hb. rewrite first_file_read. reflexivity.
  - change (Resume 1 true) with (Resume (length [frame]) true).
    change [frame; AwaitFile second_file] with ([frame] ++ [AwaitFile second_file]).
    rewrite Hd.
    destruct (after_file_cases second_file
                (mkPage (begin_upload refs1) [] true None ∅ [frame]) eq_refl)
      as (n1 & b1 & s1 & H1 & ->).
    assert (parseWhatsAppStringChunk (mediaMap second_file) (fileText second_file) 0
              (Finite 1000) st1 = Some (35, [1], st3)) as H by (vm_compute; reflexivity).
    change (store (refs (mkPage (begin_upload refs1) [] true None ∅ [frame])))
      with st1 in H1.
    rewrite H in H1. apply (inj Some) in H1.
    rewrite !pair_equal_spec in H1. destruct H1 as [[<- <-] <-]. reflexivity.
Qed.

End UploadFacts.

(* ===================================================================== *)
(** * A whole upload *)
(* ===================================================================== *)

Section RunFacts.

Import App.

(** X9.  An upload that has the page to itself is one pass over the text:
    when a file that is not in the cache is chosen on a page where nothing
    waits, and only its own tasks run until nothing but the write to the
    cache is left, [accumulatedRef], [state.messages] and the store hold
    exactly what a single call over the whole text with an unbounded budget
    returns from the store the upload found. *)
Theorem upload_is_one_pass_over_the_text up page events page' :
  reachable_page page →
  pending page = [] →
  failure up = None →
  cache page !! cacheId up = None →
  forallb is_resume events = true →
  run (Select (Some up) :: events) page = Some page' →
  Forall (λ t, is_save t = true) (pending page') →
  ∃ next,
    parseWhatsAppStringChunk (mediaMap up) (fileText up) 0 Infinity (store (refs page))
      = Some (next, accumulatedRef (refs page'), store (refs page'))
    ∧ messages page' = accumulatedRef (refs page').
Proof.
  intros Hreach Hp Hf Hc Hres Hrun Hdone.
  cbn [run step] in Hrun. destruct (input_mounted page); [|done].
  assert (alone up (store (refs page)) (handleFileUpload (Some up) page)) as Hal.
  { split.
    - apply begin_upload_in_order. by apply reachable_page_in_order.
    - left. cbn [handleFileUpload pending refs cache]. rewrite Hp. by repeat split. }
  destruct (alone_run up _ events _ _ Hf Hres Hal Hrun)
    as [_ [(Hp' & _)|[(Hp' & _)|[(pos & Hp' & _)|(_ & Hm & next & Hparse)]]]].
  - rewrite Hp' in Hdone. by apply Forall_cons in Hdone as [? _].
  - rewrite Hp' in Hdone. by apply Forall_cons in Hdone as [? _].
  - rewrite Hp' in Hdone. by apply Forall_cons in Hdone as [? _].
  - by exists next.
Qed.

Lemma upload_is_one_pass_over_the_text_witness :
  (run long_file_events (initial ∅) = Some long_file_loaded
   ∧ Forall (λ t, is_save t = true) (pending long_file_loaded))
  ∧ ∃ next,
      parseWhatsAppStringChunk (mediaMap long_file) (fileText long_file) 0 Infinity
        (store (refs (initial ∅)))
        = Some (next, accumulatedRef (refs long_file_loaded),
                store (refs long_file_loaded))
      ∧ messages long_file_loaded = accumulatedRef (refs long_file_loaded).
Proof.
  assert (run long_file_events (initial ∅) = Some long_file_loaded) as H
    by (vm_compute; reflexivity).
  assert (Forall (λ t, is_save t = true) (pending long_file_loaded)) as Hdone
    by (apply Forall_cons_2; [reflexivity|apply Forall_nil_2]).
  split; [exact (conj H Hdone)|].
  exact (upload_is_one_pass_over_the_text long_file (initial ∅)
           [Resume 0 true; Resume 0 true] long_file_loaded
           (reach_initial ∅) eq_refl eq_refl (lookup_empty _) eq_refl H Hdone).
Defined.

(** X10.  The abort check of [parseNext] never fires: in every state the
    component can reach, the controller installed in [abortControllerRef] is
    one that has not been aborted, because an upload aborts the previous
    controller and installs a new one before anything can read it. *)
Theorem abort_check_never_fires (app : Refs) :
  reachable app → signal_aborted app = false.
Proof.
  intros (page & H & <-). by apply signal_aborted_in_order, reachable_page_in_order.
Qed.

Lemma abort_check_never_fires_witness :
  reachable (mkRefs (mkState [] None) [] (Some 1) 2 [0])
  ∧ signal_aborted (mkRefs (mkState [] None) [] (Some 1) 2 [0]) = false.
Proof.
  assert (reachable (mkRefs (mkState [] None) [] (Some 1) 2 [0])) as H.
  { exists (mkPage (mkRefs (mkState [] None) [] (Some 1) 2 [0]) [] true None ∅
              [AwaitCache second_file]).
    split; [|reflexivity].
    apply (reachable_run
             [Select (Some broken_file); Resume 0 true; Resume 0 true;
              Select (Some second_file)] (initial ∅)); [apply reach_initial|].
    vm_compute. reflexivity. }
  split; [exact H|].
  exact (abort_check_never_fires _ H).
Defined.

End RunFacts.

(* ===================================================================== *)
(** * Sender and timestamp of emitted records *)
(* ===================================================================== *)

Section EmittedFacts.

Variable assetMap : gmap (list ascii) (list ascii).

Lemma run_lines_preserves P ls : ∀ st st' out r m,
  stable assetMap P →
  run_lines assetMap ls st = (st', out) →
  heap st !! r = Some m → P m →
  ∃ m', heap st' !! r = Some m' ∧ P m'.
Proof.
  induction ls as [|l ls IH]; intros st st' out r m HP Hrun Hr Hm; simpl in Hrun.
  - injection Hrun as <- <-. by exists m.
  - destruct (trim l) as [|c line]; [by eapply IH|].
    destruct (process_line assetMap (c :: line) st) as [st1 out1] eqn:Hpl.
    destruct (run_lines assetMap ls st1) as [st2 out2] eqn:Hrest.
    injection Hrun as <- <-.
    destruct (process_line_preserves assetMap P _ _ _ _ _ _ HP Hpl Hr Hm) as (m1 & Hr1 & Hm1).
    by eapply IH.
Qed.

Lemma header_message_fields fileName ts author body :
  timestamp (header_message assetMap fileName ts author body) = trim ts
  ∧ sender (header_message assetMap fileName ts author body) = trim author.
Proof. unfold header_message. by destruct fileName. Qed.

(** Every reference pushed comes from a line that is a header line once
    trimmed, and the record still has the timestamp and the sender built
    from that line. *)
Lemma run_lines_emitted ls : ∀ st st' out r,
  run_lines assetMap ls st = (st', out) → r ∈ out →
  ∃ l ts author body m,
    l ∈ ls ∧ head_match (trim l) = Some (ts, author, body)
    ∧ heap st' !! r = Some m
    ∧ timestamp m = trim ts ∧ sender m = trim author.
Proof.
  induction ls as [|l ls IH]; intros st st' out r Hrun Hin; simpl in Hrun.
  - injection Hrun as <- <-. by apply elem_of_nil in Hin.
  - destruct (trim l) as [|c line] eqn:Ht.
    { destruct (IH _ _ _ _ Hrun Hin) as (l' & ts & au & bo & m & Hl & H).
      exists l', ts, au, bo, m. split; [by right|done]. }
    destruct (process_line assetMap (c :: line) st) as [st1 out1] eqn:Hpl.
    destruct (run_lines assetMap ls st1) as [st2 out2] eqn:Hrest.
    injection Hrun as <- <-.
    apply elem_of_app in Hin as [Hin|Hin].
    + destruct (process_line_emitted assetMap _ _ _ _ _ Hpl Hin)
        as (ts & au & bo & Hh & Hr).
      destruct (header_message_fields (file_name (c :: line)) ts au bo) as [Hts Hau].
      assert (stable assetMap (λ m, timestamp m = trim ts ∧ sender m = trim au)) as HP.
      { intros f line' x [Hx1 Hx2]. unfold continue_message.
        destruct f as [f|]; [|done].
        by destruct (truthy (resolve assetMap f)), (clean f line'). }
      destruct (run_lines_preserves _ ls st1 st2 out2 r _ HP Hrest Hr (conj Hts Hau))
        as (m & Hm & Hts' & Hau').
      exists l, ts, au, bo, m. rewrite Ht. split; [by left|done].
    + destruct (IH _ _ _ _ Hrest Hin) as (l' & ts & au & bo & m & Hl & H).
      exists l', ts, au, bo, m. split; [by right|done].
Qed.

(** C2, amended.  Every record a call emits was built from a line of the
    text, at or after the offset, that is a header line once trimmed: its
    timestamp is the trimmed first capture of that line and is non-empty,
    its sender is the trimmed second capture, and that capture is a
    non-empty string without colon; so the sender is empty exactly when the
    author capture of the line consists of white space. *)
Theorem emitted_timestamp_and_author content offset limit st next msgs st' r :
  parseWhatsAppStringChunk assetMap content offset limit st = Some (next, msgs, st') →
  r ∈ msgs →
  ∃ m line,
    heap st' !! r = Some m
    ∧ line ∈ lines_of (drop offset content)
    ∧ emitted_from (trim line) m.
Proof.
  intros Hparse Hin. unfold parseWhatsAppStringChunk in Hparse.
  destruct (parse_loop_lines assetMap (length content) content limit offset 0 [] st)
    as (next' & k & Heq & _); [lia|].
  rewrite Heq in Hparse. injection Hparse as _ <- <-. simpl in Hin.
  destruct (run_lines assetMap (take k (lines_of (drop offset content))) st)
    as [st1 out] eqn:Hrun.
  simpl in *.
  destruct (run_lines_emitted _ _ _ _ _ Hrun Hin)
    as (l & ts & au & bo & m & Hl & Hh & Hm & Hts & Hau).
  exists m, l. split; [exact Hm|]. split.
  { eapply elem_of_sublist; [exact Hl|apply sublist_take]. }
  exists ts, au, bo. split; [exact Hh|]. split; [exact Hts|].
  apply head_match_sound in Hh as ((d & ts' & -> & Hd) & Ha & Hc).
  split; [rewrite Hts; apply trim_nonempty, digit_not_space, Hd|].
  split; [exact Hau|]. split; [exact Ha|]. split; [exact Hc|].
  rewrite Hau. apply trim_nil_iff.
Qed.

End EmittedFacts.

Lemma emitted_timestamp_and_author_witness :
  parseWhatsAppStringChunk ∅ demo_text 0 Infinity (mkState [] None)
    = Some (80, [0; 1], demo_state)
  ∧ 1 ∈ [0; 1]
  ∧ ∃ m line,
      heap demo_state !! 1 = Some m
      ∧ line ∈ lines_of (drop 0 demo_text)
      ∧ emitted_from (trim line) m.
Proof.
  assert (parseWhatsAppStringChunk ∅ demo_text 0 Infinity (mkState [] None)
          = Some (80, [0; 1], demo_state)) as H by (vm_compute; reflexivity).
  assert (1 ∈ [0; 1]) as Hin by (apply list_elem_of_In; simpl; tauto).
  split; [exact H|]. split; [exact Hin|].
  exact (emitted_timestamp_and_author ∅ demo_text 0 Infinity _ _ _ _ 1 H Hin).
Defined.

(* ===================================================================== *)
(** * The attachment of the open record *)
(* ===================================================================== *)

(** C3, amended.  On a continuation line with an attachment filename the
    call reaches the open record and nothing else: its mediaUrl becomes the
    locator under the verbatim name when that one is non-empty, else the
    locator under the lower-cased name when that one is non-empty, whether
    or not a locator was already set; it stays as it was when neither key
    gives a non-empty locator.  And through any call a record whose
    mediaUrl is set keeps a set mediaUrl: it is never cleared. *)
Theorem mediaUrl_replaced_never_cleared assetMap line name st r m :
  head_match line = None →
  file_name line = Some name →
  current st = Some r →
  heap st !! r = Some m →
  ∃ st' m',
    process_line assetMap line st = (st', [])
    ∧ current st' = Some r
    ∧ heap st' !! r = Some m'
    ∧ (∀ r', r' ≠ r → heap st' !! r' = heap st !! r')
    ∧ (∀ url, assetMap !! name = Some url → url ≠ [] → mediaUrl m' = Some url)
    ∧ (∀ url, assetMap !! name = None ∨ assetMap !! name = Some [] →
              assetMap !! toLowerCase name = Some url → url ≠ [] →
              mediaUrl m' = Some url)
    ∧ (assetMap !! name = None ∨ assetMap !! name = Some [] →
       assetMap !! toLowerCase name = None ∨ assetMap !! toLowerCase name = Some [] →
       mediaUrl m' = mediaUrl m)
    ∧ (mediaUrl m ≠ None → mediaUrl m' ≠ None)
    ∧ ∀ content offset limit next msgs st0 st1 r0 m0,
        parseWhatsAppStringChunk assetMap content offset limit st0
          = Some (next, msgs, st1) →
        heap st0 !! r0 = Some m0 → mediaUrl m0 ≠ None →
        ∃ m1, heap st1 !! r0 = Some m1 ∧ mediaUrl m1 ≠ None.
Proof.
  intros Hh Hf Hc Hr. unfold process_line. rewrite Hh, Hc, Hf.
  eexists _, _. split; [reflexivity|]. simpl. split; [done|].
  split; [by rewrite list_lookup_alter_eq, Hr|].
  split; [by intros r' Hne; rewrite list_lookup_alter_ne|].
  rewrite continue_message_mediaUrl. unfold resolve, js_or.
  assert (∀ f l x, mediaUrl x ≠ None →
            mediaUrl (continue_message assetMap f l x) ≠ None) as Hkeep.
  { intros f l x Hx. rewrite continue_message_mediaUrl.
    destruct f as [n|]; [|done].
    destruct (truthy (resolve assetMap n)) eqn:Ht; [|done].
    by destruct (resolve assetMap n). }
  split; [|split; [|split; [|split]]].
  - intros url Hk Hne. rewrite Hk. by destruct url.
  - intros url [Hk1|Hk1] Hk2 Hne; rewrite Hk1, Hk2; by destruct url.
  - intros [Hk1|Hk1] [Hk2|Hk2]; by rewrite Hk1, Hk2.
  - intros Hset. destruct (truthy (assetMap !! name)) eqn:Hk1.
    + rewrite Hk1. by destruct (assetMap !! name).
    + destruct (truthy (assetMap !! toLowerCase name)) eqn:Hk2; [|done].
      by destruct (assetMap !! toLowerCase name).
  - intros content offset limit next msgs st0 st1 r0 m0 Hparse Hr0 Hset.
    by eapply (parse_loop_preserves assetMap (λ x, mediaUrl x ≠ None));
      [exact Hkeep|exact Hparse|exact Hr0|exact Hset].
Qed.

Lemma mediaUrl_replaced_never_cleared_witness :
  let m url := mkMsg (lit "1/2/23, 10:00") (lit "Al") [] None (Some (lit url)) false in
  (head_match (lit "b.jpg (file attached)") = None
   ∧ file_name (lit "b.jpg (file attached)") = Some (lit "b.jpg"))
  ∧ ∃ st' m',
      process_line two_assets (lit "b.jpg (file attached)")
        (mkState [m "blob:1"%string] (Some 0)) = (st', [])
      ∧ heap st' !! 0 = Some m'
      ∧ mediaUrl m' = Some (lit "blob:2").
Proof.
  intros m.
  assert (head_match (lit "b.jpg (file attached)") = None) as Hh
    by (vm_compute; reflexivity).
  assert (file_name (lit "b.jpg (file attached)") = Some (lit "b.jpg")) as Hf
    by (vm_compute; reflexivity).
  split; [exact (conj Hh Hf)|].
  destruct (mediaUrl_replaced_never_cleared two_assets (lit "b.jpg (file attached)")
              (lit "b.jpg") (mkState [m "blob:1"%string] (Some 0)) 0 (m "blob:1"%string)
              Hh Hf eq_refl eq_refl)
    as (st' & m' & Hpl & _ & Hm' & _ & Hurl & _).
  exists st', m'. split; [exact Hpl|]. split; [exact Hm'|].
  apply Hurl; [vm_compute; reflexivity|discriminate].
Defined.

(* ===================================================================== *)
(** * The choice of the transcript entry *)
(* ===================================================================== *)

Section SelectionFacts.

Import Archive.

Lemma ends_with_spec (p s : str) :
  ends_with p s = true ↔ ∃ stem, s = stem ++ p.
Proof.
  unfold ends_with. rewrite starts_with_spec. split.
  - intros (post & H). exists (rev post).
    apply (f_equal (@rev ascii)) in H. rewrite rev_involutive in H.
    by rewrite H, rev_app_distr, rev_involutive.
  - intros (stem & ->). exists (rev stem). by rewrite rev_app_distr.
Qed.

Lemma text_entry_spec (entries : list ZipEntry) e :
  e ∈ textEntries entries ↔ e ∈ entries ∧ is_txt_entry e.
Proof.
  rewrite text_entry_iff. unfold is_txt_entry. rewrite ends_with_spec. tauto.
Qed.

Lemma has_chat_spec e : has_chat e = true ↔ mentions_chat e.
Proof. unfold has_chat, mentions_chat. apply includes_lower_spec. Qed.

Lemma txt_entry_dec e : is_txt_entry e ∨ ¬ is_txt_entry e.
Proof.
  destruct (ends_with (lit ".txt") (name e) && negb (dir e)) eqn:E.
  - left. apply andb_true_iff in E as [E1 E2]. apply negb_true_iff in E2.
    split; [done|]. by apply ends_with_spec.
  - right. intros [Hd Hs]. apply ends_with_spec in Hs. by rewrite Hs, Hd in E.
Qed.

(** C7.  The transcript is the entry named "_chat.txt" when the archive has
    one that is a file; otherwise the first entry, in the order of the
    archive, that is a file named "....txt" with "chat" in its name in any
    casing; otherwise a file named "....txt" whose name is at least as long
    as that of every other such file; its content is the text returned.
    The error is thrown, and no text returned, exactly when no entry of the
    archive is a file named "....txt". *)
Theorem transcript_selection (entries : list ZipEntry) :
  NoDup (map name entries) →
  let no_chat_txt := ∀ e, e ∈ entries → name e = lit "_chat.txt" → dir e = true in
  (∀ e, e ∈ entries → name e = lit "_chat.txt" → dir e = false →
        chatFile entries = Some e)
  ∧ (no_chat_txt →
     ∀ pre e post, entries = pre ++ e :: post →
                   is_txt_entry e → mentions_chat e →
                   Forall (λ x, ¬ (is_txt_entry x ∧ mentions_chat x)) pre →
                   chatFile entries = Some e)
  ∧ (no_chat_txt →
     (∀ x, x ∈ entries → is_txt_entry x → ¬ mentions_chat x) →
     (∃ x, x ∈ entries ∧ is_txt_entry x) →
     ∃ e, chatFile entries = Some e ∧ e ∈ entries ∧ is_txt_entry e
          ∧ ∀ x, x ∈ entries → is_txt_entry x → length (name x) ≤ length (name e))
  ∧ (∀ e, chatFile entries = Some e →
          extractChat entries = Text (data e) ∧ e ∈ entries ∧ is_txt_entry e)
  ∧ (extractChat entries = Throw (lit "No chat logs found in archive.")
     ↔ ∀ x, x ∈ entries → ¬ is_txt_entry x)
  ∧ (∀ t, extractChat entries = Text t →
          ∃ e, e ∈ entries ∧ is_txt_entry e ∧ t = data e).
Proof.
  intros Hnd no_chat_txt. set (txt := textEntries entries).
  assert (∀ e, chatFile entries = Some e → e ∈ entries ∧ is_txt_entry e) as Hchosen.
  { intros e He. unfold chatFile, zip_file in He.
    destruct (List.find (λ f, str_eqb (name f) (lit "_chat.txt")) entries) as [f|] eqn:E.
    - apply find_some in E as [Hin Hn]. apply str_eqb_eq in Hn.
      apply list_elem_of_In in Hin.
      destruct (dir f) eqn:Hd.
      + fold txt in He. destruct (List.find has_chat txt) as [g|] eqn:Eg.
        * injection He as <-. apply find_some in Eg as [Hg _].
          by apply text_entry_spec, list_elem_of_In.
        * destruct txt as [|x l] eqn:Et; [done|].
          destruct (sort_by_length_head (x :: l)) as (e' & He' & Hin' & _); [done|].
          rewrite He' in He. injection He as <-. apply text_entry_spec.
          fold txt. by rewrite Et.
      + injection He as <-. split; [done|]. split; [done|].
        exists (lit "_chat"). by rewrite Hn.
    - fold txt in He. destruct (List.find has_chat txt) as [g|] eqn:Eg.
      + injection He as <-. apply find_some in Eg as [Hg _].
        by apply text_entry_spec, list_elem_of_In.
      + destruct txt as [|x l] eqn:Et; [done|].
        destruct (sort_by_length_head (x :: l)) as (e' & He' & Hin' & _); [done|].
        rewrite He' in He. injection He as <-. apply text_entry_spec.
        fold txt. by rewrite Et. }
  assert (chatFile entries = None → txt = []) as Hnone.
  { unfold chatFile. destruct (zip_file entries _); [done|].
    fold txt. destruct (List.find has_chat txt); [done|].
    destruct txt as [|x l]; [done|].
    destruct (sort_by_length_head (x :: l)) as (e & He & _); [done|].
    by rewrite He. }
  assert (txt = [] ↔ ∀ x, x ∈ entries → ¬ is_txt_entry x) as Hnil.
  { split.
    - intros Ht x Hx Hxt.
      assert (x ∈ txt) as Hin by (by apply text_entry_spec).
      rewrite Ht in Hin. by apply elem_of_nil in Hin.
    - intros Hno. destruct txt as [|x l] eqn:Et; [done|].
      assert (x ∈ txt) as Hin by (rewrite Et; by left).
      apply text_entry_spec in Hin as [Hin Hxt]. by destruct (Hno x Hin). }
  split; [|split; [|split; [|split; [|split]]]].
  - intros e Hin Hn Hd. unfold chatFile, zip_file.
    rewrite <- Hn, (find_by_name _ _ Hnd Hin). by rewrite Hd.
  - intros Hno pre e post Hsplit Hte Hce Hpre. unfold chatFile.
    rewrite (zip_file_absent _ _ Hno).
    assert (textEntries entries
            = textEntries pre ++ e :: textEntries post) as Ht.
    { rewrite Hsplit. unfold textEntries. rewrite List.filter_app.
      cbn [List.filter]. destruct Hte as [Hd (stem & Hs)].
      assert (ends_with (lit ".txt") (name e) = true) as ->
        by (apply ends_with_spec; by exists stem).
      by rewrite Hd. }
    rewrite (find_first _ _ _ _ Ht); [done|by apply has_chat_spec|].
    apply Forall_forall. intros x Hx.
    apply text_entry_spec in Hx as [Hx Hxt].
    rewrite Forall_forall in Hpre. specialize (Hpre x Hx).
    destruct (has_chat x) eqn:Hc; [|done].
    exfalso. apply Hpre. split; [done|]. by apply has_chat_spec.
  - intros Hno Hall (x0 & Hx0 & Hx0t). unfold chatFile.
    rewrite (zip_file_absent _ _ Hno). fold txt.
    assert (Forall (λ x, has_chat x = false) txt) as Hall'.
    { apply Forall_forall. intros x Hx. apply text_entry_spec in Hx as [Hx Hxt].
      destruct (has_chat x) eqn:Hc; [|done].
      exfalso. apply (Hall x Hx Hxt). by apply has_chat_spec. }
    rewrite (find_none_all _ Hall').
    destruct (sort_by_length_head txt) as (e & He & Hin & Hmax).
    { intros Ht. assert (x0 ∈ txt) as H by (by apply text_entry_spec).
      rewrite Ht in H. by apply elem_of_nil in H. }
    exists e. split; [exact He|]. apply text_entry_spec in Hin as [Hin Het].
    split; [exact Hin|]. split; [exact Het|].
    intros x Hx Hxt. apply Hmax. by apply text_entry_spec.
  - intros e He. destruct (Hchosen e He) as [Hin Het].
    unfold extractChat. by rewrite He.
  - rewrite <- Hnil. unfold extractChat. split.
    + destruct (chatFile entries) eqn:E; [done|]. intros _. by apply Hnone.
    + intros Ht. destruct (chatFile entries) as [e|] eqn:E; [|done].
      destruct (Hchosen e eq_refl) as [Hin Het].
      assert (e ∈ txt) as H by (by apply text_entry_spec).
      rewrite Ht in H. by apply elem_of_nil in H.
  - unfold extractChat. intros t Ht.
    destruct (chatFile entries) as [e|] eqn:E; [|done].
    injection Ht as <-. destruct (Hchosen e eq_refl) as [Hin Het]. by exists e.
Qed.

End SelectionFacts.

Lemma transcript_selection_witness :
  (NoDup (map Archive.name demo_archive)
   ∧ NoDup (map Archive.name named_archive)
   ∧ NoDup (map Archive.name photo_archive))
  ∧ Archive.chatFile demo_archive
      = Some (Archive.mkEntry (lit "_chat.txt") false (lit "c"))
  ∧ Archive.chatFile named_archive
      = Some (Archive.mkEntry (lit "WhatsApp Chat with Al.txt") false (lit "w"))
  ∧ Archive.extractChat photo_archive
      = Archive.Throw (lit "No chat logs found in archive.").
Proof.
  assert (NoDup (map Archive.name demo_archive)) as Hnd1
    by (apply (bool_decide_unpack _); vm_compute; reflexivity).
  assert (NoDup (map Archive.name named_archive)) as Hnd2
    by (apply (bool_decide_unpack _); vm_compute; reflexivity).
  assert (NoDup (map Archive.name photo_archive)) as Hnd3
    by (apply (bool_decide_unpack _); vm_compute; reflexivity).
  split; [exact (conj Hnd1 (conj Hnd2 Hnd3))|].
  destruct (transcript_selection demo_archive Hnd1) as (Hfirst & _).
  destruct (transcript_selection named_archive Hnd2) as (_ & Hsecond & _).
  destruct (transcript_selection photo_archive Hnd3) as (_ & _ & _ & _ & Hthrow & _).
  split; [|split].
  - apply Hfirst; [|reflexivity|reflexivity].
    apply list_elem_of_In. simpl. tauto.
  - assert (∀ e, e ∈ named_archive → Archive.name e = lit "_chat.txt" →
                 Archive.dir e = true) as Hno.
    { intros e Hin Hn. apply list_elem_of_In in Hin. simpl in Hin.
      destruct Hin as [<-|[<-|[<-|[<-|[]]]]]; vm_compute in Hn; discriminate. }
    apply (Hsecond Hno
             [Archive.mkEntry (lit "media/IMG-001.jpg") false [];
              Archive.mkEntry (lit "notes.txt") false (lit "n")]
             _ [Archive.mkEntry (lit "chat-old.txt") false (lit "o")] eq_refl).
    + split; [reflexivity|]. by exists (lit "WhatsApp Chat with Al").
    + by exists (lit "WhatsApp "), (lit "Chat"), (lit " with Al.txt").
    + apply Forall_cons_2; [|apply Forall_cons_2; [|apply Forall_nil_2]].
      * intros [[_ Hs] _]. apply (proj2 (ends_with_spec _ _)) in Hs.
        by vm_compute in Hs.
      * intros [_ Hc]. apply (proj2 (has_chat_spec _)) in Hc. by vm_compute in Hc.
  - apply Hthrow. intros x Hx [Hd Hs].
    apply list_elem_of_In in Hx. simpl in Hx.
    destruct Hx as [<-|[<-|[]]]; [|done].
    apply (proj2 (ends_with_spec _ _)) in Hs. by vm_compute in Hs.
Defined.

Section DateShown.

Import DateFormat View.




End DateShown.
